(** * tukitd: the transaction registry, the worker and the shutdown handler

    A shallow embedding of [src/dbus/tukitd.c].  The registry of locked
    transactions is the singly linked list of [TransactionEntry] nodes that
    ends in a placeholder node whose [id] is [NULL]; it lives in a heap of
    nodes, and [lockSnapshot] and [unlockSnapshot] walk and rewrite that heap
    as the C functions do.  The transaction engine (libtukit), the bus
    (sd-bus), the allocator and the threads (pthread, with the stack a new
    thread gets) are outside the file: their answers are the fields of a
    [world] record, and every call made to them is recorded in a trace of
    [call]s. *)

From Stdlib Require Import ZArith Ascii String List Lia.
From stdpp Require Import base option list gmap strings.

Open Scope Z_scope.

(** ** Data model *)

(** [enum transactionstates { queued, running, finished }] *)
Inductive transactionstates := queued | running | finished.

#[global] Instance transactionstates_eq_dec : EqDecision transactionstates.
Proof. solve_decision. Defined.

(** A pointer to a [TransactionEntry]. *)
Abbreviation addr := positive (only parsing).

(** [struct t_entry].  [id = None] is the [NULL] of the placeholder node.
    [next] and [state] are [None] while the field has never been written
    (memory fresh from [malloc]). *)
Record TransactionEntry := {
  id : option string;
  next : option addr;
  state : option transactionstates
}.

(** The heap of registry nodes; [free] removes the node. *)
Abbreviation heap := (gmap positive TransactionEntry) (only parsing).

(** [errno] values of Linux. *)
Definition EBUSY : Z := 16.
Definition ENOMEM : Z := 12.

(** The [sd_bus_error] filled by [sd_bus_error_set_const]: name and message. *)
Definition sd_bus_error : Type := string * string.

Definition tukit_error (message : string) : option sd_bus_error :=
  Some ("org.opensuse.tukit.Error"%string, message).

(** What a registry function hands back: the heap after the call, the [int]
    it returns and the error it has set, if any. *)
Record lock_result := {
  lr_heap : heap;
  lr_ret : Z;
  lr_error : option sd_bus_error
}.

(** ** The registry: [lockSnapshot] and [unlockSnapshot] *)

(** Where the first loop of [lockSnapshot] ends. *)
Inductive lock_scan :=
| scan_busy                     (* strcmp matched: return -EBUSY *)
| scan_end (placeholder : addr) (* activeTransaction->id == NULL *).

(** [while (activeTransaction->id != NULL) { if (strcmp(..) == 0) return
    -EBUSY; activeTransaction = activeTransaction->next; }]
    [None]: the walk reads a node that is not there, or does not end within
    [fuel] nodes. *)
Fixpoint lock_walk (fuel : nat) (h : heap) (activeTransaction : addr)
    (transaction : string) : option lock_scan :=
  match fuel with
  | O => None
  | S fuel' =>
      e ← h !! activeTransaction;
      match id e with
      | None => Some (scan_end activeTransaction)
      | Some i =>
          if String.eqb i transaction then Some scan_busy
          else q ← next e; lock_walk fuel' h q transaction
      end
  end.

(** [malloc(sizeof(TransactionEntry))]: a node address that is not in use,
    or [NULL] when the allocator has no memory. *)
Definition malloc (malloc_ok : bool) (h : heap) : option addr :=
  if malloc_ok then Some (fresh (dom h)) else None.

(** [lockSnapshot(userdata, transaction, ret_error)].  A heap of [n] nodes
    holds a list of at most [n] nodes, so [S (size h)] steps are enough for
    every walk that ends. *)
Definition lockSnapshot (malloc_ok strdup_ok : bool) (h : heap)
    (userdata : addr) (transaction : string) : option lock_result :=
  r ← lock_walk (S (size h)) h userdata transaction;
  match r with
  | scan_busy =>
      Some {| lr_heap := h; lr_ret := - EBUSY;
              lr_error := tukit_error "The transaction is currently in use by another thread." |}
  | scan_end activeTransaction =>
      match malloc malloc_ok h with
      | None =>
          Some {| lr_heap := h; lr_ret := - ENOMEM;
                  lr_error := tukit_error "Error while allocating space for transaction." |}
      | Some newTransaction =>
          (* newTransaction->id = NULL; *)
          let h1 := <[newTransaction := {| id := None; next := None; state := None |}]> h in
          e ← h1 !! activeTransaction;
          if strdup_ok then
            (* activeTransaction->id = strdup(transaction);
               activeTransaction->state = queued;
               activeTransaction->next = newTransaction; *)
            Some {| lr_heap :=
                      <[activeTransaction :=
                          {| id := Some transaction;
                             next := Some newTransaction;
                             state := Some queued |}]> h1;
                    lr_ret := 0; lr_error := None |}
          else
            (* activeTransaction->id = NULL; free(newTransaction); *)
            Some {| lr_heap :=
                      delete newTransaction
                        (<[activeTransaction :=
                             {| id := None; next := next e; state := state e |}]> h1);
                    lr_ret := - ENOMEM;
                    lr_error := tukit_error "Error during strdup." |}
      end
  end.

(** The loop of [unlockSnapshot].  On a match the node takes over the id of
    its successor (and the successor's [next] when that id is not [NULL]),
    keeps its own [state], and the successor is freed. *)
Fixpoint unlock_walk (fuel : nat) (h : heap) (activeTransaction : addr)
    (transaction : string) : option heap :=
  match fuel with
  | O => None
  | S fuel' =>
      e ← h !! activeTransaction;
      match id e with
      | None => Some h
      | Some i =>
          if String.eqb i transaction then
            prevNext ← next e;
            n ← h !! prevNext;
            let e' :=
              {| id := id n;
                 next := match id n with
                         | Some _ => next n
                         | None => next e
                         end;
                 state := state e |} in
            Some (delete prevNext (<[activeTransaction := e']> h))
          else q ← next e; unlock_walk fuel' h q transaction
      end
  end.

(** [unlockSnapshot(userdata, transaction)] *)
Definition unlockSnapshot (h : heap) (userdata : addr) (transaction : string)
    : option heap :=
  unlock_walk (S (size h)) h userdata transaction.

(** ** The registry as a list of records *)

(** A record of the registry: the transaction id and its state. *)
Definition record : Type := string * transactionstates.

(** [registry_at p l h]: the heap [h] is exactly the list that starts at
    node [p], holds the records [l] in this order and ends in the
    placeholder node. *)
Fixpoint registry_at (p : addr) (l : list record) (h : heap) : Prop :=
  match l with
  | [] => ∃ e, h = {[ p := e ]} ∧ id e = None
  | (t, s) :: l' =>
      ∃ q h', h' !! p = None
              ∧ h = <[p := {| id := Some t; next := Some q; state := Some s |}]> h'
              ∧ registry_at q l' h'
  end.

(** The ids that are locked. *)
Definition ids (l : list record) : list string := fst <$> l.

(** At most one record per id. *)
Definition unique_ids (l : list record) : Prop := NoDup (ids l).

(** The records after [unlockSnapshot]: the first record of the id goes, and
    the record behind it moves into its node and inherits the state stored
    there. *)
Fixpoint unlocked (transaction : string) (l : list record) : list record :=
  match l with
  | [] => []
  | (i, s) :: l' =>
      if String.eqb i transaction then
        match l' with
        | [] => []
        | (i', _) :: l'' => (i', s) :: l''
        end
      else (i, s) :: unlocked transaction l'
  end.

(** The heap that [main] sets up: the placeholder alone. *)
Definition initial_heap (p : addr) : heap :=
  {[ p := {| id := None; next := None; state := Some queued |} ]}.

(** The registry invariant: the heap is a registry with one record per
    id. *)
Definition registry_inv (p : addr) (h : heap) : Prop :=
  ∃ l, registry_at p l h ∧ unique_ids l.

(** The heaps [lockSnapshot] and [unlockSnapshot] can make of the heap
    [main] starts with, whatever the ids and the allocator. *)
Inductive reachable (p : addr) : heap → Prop :=
| reach_initial : reachable p (initial_heap p)
| reach_lock h mo so t r :
    reachable p h → lockSnapshot mo so h p t = Some r →
    reachable p (lr_heap r)
| reach_unlock h t h' :
    reachable p h → unlockSnapshot h p t = Some h' → reachable p h'.

(** ** The bus *)

(** A basic value of a message body: a string (["s"]) or an [int32]
    (["i"]).  [arg_s_invalid] is a value that the signature of the message
    announces as a string but whose bytes are none (a length that leaves
    the body, no terminating NUL, no UTF-8): [sd_bus_message_read] returns
    [-EBADMSG] when it gets there. *)
Inductive arg := arg_s (s : string) | arg_i (i : Z) | arg_s_invalid.

(** The signature of a body, as the header of the message carries it. *)
Definition type_of (a : arg) : string :=
  match a with
  | arg_s _ | arg_s_invalid => "s"
  | arg_i _ => "i"
  end.

Definition signature (m : list arg) : string :=
  foldr (λ a sg, type_of a +:+ sg) EmptyString m.

(** A signal on the bus: where it is emitted and its body. *)
Record signal := {
  sig_path : string;
  sig_interface : string;
  sig_member : string;
  sig_body : list arg
}.

(** The three signals the daemon emits, as the calls of
    [sd_bus_emit_signal] build them. *)
Definition TransactionOpened (snapid : string) : signal :=
  {| sig_path := "/org/opensuse/tukit";
     sig_interface := "org.opensuse.tukit.Transaction";
     sig_member := "TransactionOpened";
     sig_body := [arg_s snapid] |}.

Definition CommandExecuted (transaction : string) (exec_ret : Z)
    (output : string) : signal :=
  {| sig_path := "/org/opensuse/tukit";
     sig_interface := "org.opensuse.tukit.Transaction";
     sig_member := "CommandExecuted";
     sig_body := [arg_s transaction; arg_i exec_ret; arg_s output] |}.

Definition Error (transaction message : string) (error : Z) : signal :=
  {| sig_path := "/org/opensuse/tukit";
     sig_interface := "org.opensuse.tukit";
     sig_member := "Error";
     sig_body := [arg_s transaction; arg_s message; arg_i error] |}.

(** [sd_bus_message_read(m, "s", &x)] on a body: the first value, when it is
    a string. *)
Definition sd_bus_message_read_s (m : list arg) : option string :=
  match m with
  | arg_s x :: _ => Some x
  | _ => None
  end.

(** [sd_bus_message_read(m, "ss", &x, &y)] *)
Definition sd_bus_message_read_ss (m : list arg) : option (string * string) :=
  match m with
  | arg_s x :: arg_s y :: _ => Some (x, y)
  | _ => None
  end.

(** The match rule of [sd_bus_match_signal(bus, NULL, sender, path,
    interface, member, ...)]; [None] is the [NULL] that matches all. *)
Record match_rule := {
  rule_sender : option string;
  rule_path : option string;
  rule_interface : option string;
  rule_member : option string
}.

Definition field_matches (rule : option string) (value : string) : bool :=
  match rule with
  | None => true
  | Some r => String.eqb r value
  end.

(** A signal passes a rule when path, interface and member do (the sender
    is not part of [signal]; the rule of [main] leaves it open). *)
Definition rule_matches (r : match_rule) (s : signal) : bool :=
  field_matches (rule_path r) (sig_path s)
  && field_matches (rule_interface r) (sig_interface s)
  && field_matches (rule_member r) (sig_member s).

(** The rule [main] registers [signalCallback] with. *)
Definition main_match_rule : match_rule :=
  {| rule_sender := None;
     rule_path := Some "/org/opensuse/tukit"%string;
     rule_interface := None;
     rule_member := None |}.

(** ** The world outside: allocator, libtukit, wordexp, sd-bus, pthread *)

(** Where a bus connection is opened: by [sd_bus_open_system] in [main], or
    by one of the two calls of [get_bus]. *)
Inductive get_bus_site := in_main | in_send_error_signal | in_execution_func.

(** An [sd_bus *]: [None] is [NULL], otherwise the connection opened at the
    given place. *)
Definition sd_bus : Type := option get_bus_site.

(** The answers of the outside world during one handler or one worker. *)
Record world := {
  malloc_ok : bool;
  strdup_ok : bool;
  tukit_new_tx : bool;                      (* false: NULL *)
  tukit_get_errmsg : string;
  tukit_tx_init : string → Z;
  tukit_tx_get_snapshot : option string;    (* None: NULL *)
  tukit_tx_keep : Z;
  tukit_tx_resume : string → Z;
  tukit_tx_finalize : Z;
  wordexp : string → Z * list string;       (* return value and we_wordv *)
  tukit_tx_execute : list string → Z * string;
  tukit_tx_call_ext : list string → Z * string;
  sd_bus_default_system : get_bus_site → Z;
  sd_bus_emit_signal : signal → Z;          (* on an open connection *)
  sd_bus_reply_method_return : Z;
  pthread_create : Z;
  thread_stack : Z;        (* bytes the stack of a new thread has for arrays *)
  sd_event_exit : Z
}.

Definition EINVAL : Z := 22.
Definition WRDE_NOSPACE : Z := 1.

(** Every call that leaves the function under study. *)
Inductive call :=
| c_lockSnapshot (transaction : string) (ret : Z)
| c_unlockSnapshot (transaction : string)
| c_tukit_new_tx
| c_tukit_tx_init (base : string)
| c_tukit_tx_get_snapshot
| c_tukit_tx_resume (transaction : string)
| c_tukit_tx_finalize
| c_tukit_tx_keep
| c_tukit_tx_execute (argv : list string)
| c_tukit_tx_call_ext (argv : list string)
| c_tukit_free_tx
| c_wordexp (command : string)
| c_wordfree
| c_free_output
| c_sd_bus_default_system (site : get_bus_site)
| c_sd_bus_emit_signal (bus : sd_bus) (s : signal) (ret : Z)
| c_sd_bus_flush_close_unref (bus : sd_bus)
| c_sd_bus_reply_method_return (body : list arg)
| c_pthread_create
| c_pthread_detach
| c_stdout (text : string)
| c_stderr (text : string)
| c_sleep (seconds : Z)
| c_kill (pid : Z) (signo : Z)
| c_sd_event_exit (code : Z)
| c_exit (status : Z).

(** The signals of a trace that went out: the emissions that did not
    return a negative value. *)
Fixpoint emitted (tr : list call) : list signal :=
  match tr with
  | [] => []
  | c_sd_bus_emit_signal _ s ret :: tr' =>
      if ret <? 0 then emitted tr' else s :: emitted tr'
  | _ :: tr' => emitted tr'
  end.

(** The signals of a trace that [sd_bus_emit_signal] was called with,
    whatever it returned. *)
Fixpoint attempts (tr : list call) : list signal :=
  match tr with
  | [] => []
  | c_sd_bus_emit_signal _ s _ :: tr' => s :: attempts tr'
  | _ :: tr' => attempts tr'
  end.

(** The calls of [unlockSnapshot] in a trace. *)
Fixpoint unlocks (tr : list call) : list string :=
  match tr with
  | [] => []
  | c_unlockSnapshot t :: tr' => t :: unlocks tr'
  | _ :: tr' => unlocks tr'
  end.

(** [get_bus()] *)
Definition get_bus (w : world) (site : get_bus_site) : sd_bus * list call :=
  if sd_bus_default_system w site <? 0
  then (None, [c_sd_bus_default_system site;
               c_stderr "Failed to connect to system bus."])
  else (Some site, [c_sd_bus_default_system site]).

(** The value of [sd_bus_emit_signal(bus, ...)]: libsystemd refuses a [NULL]
    bus with a negative errno and sends nothing. *)
Definition emit_signal (w : world) (bus : sd_bus) (s : signal) : Z :=
  match bus with
  | None => - EINVAL
  | Some _ => sd_bus_emit_signal w s
  end.

(** A bus that takes what it is given: connections open and emissions do
    not fail. *)
Definition bus_accepts (w : world) : Prop :=
  (∀ site, 0 ≤ sd_bus_default_system w site)
  ∧ (∀ s, 0 ≤ sd_bus_emit_signal w s).

(** [send_error_signal(bus, transaction, message, error)] *)
Definition send_error_signal (w : world) (bus : sd_bus)
    (transaction message : string) (error : Z) : Z * list call :=
  let '(bus, opened) :=
    match bus with
    | None => get_bus w in_send_error_signal
    | Some _ => (bus, [])
    end in
  let ret := emit_signal w bus (Error transaction message error) in
  (ret,
   opened
   ++ [c_sd_bus_emit_signal bus (Error transaction message error) ret]
   ++ (if ret <? 0 then [c_stderr "Cannot reach D-Bus any more"] else [])
   ++ [c_sd_bus_flush_close_unref bus]).

(** ** The worker: [execution_func] *)

(** [struct execution_args]: what [execute] hands to the thread.  [state]
    points at the [state] field of a registry node. *)
Record execution_args := {
  transaction : string;
  command : string;
  chrooted : Z;
  state_of : addr
}.

(** The worker's own copies: [char transaction[]], [char command[]],
    [int chrooted]. *)
Record task := {
  task_transaction : string;
  task_command : string;
  task_chrooted : Z
}.

(** [*state = running;] through a pointer to the [state] field of a node. *)
Definition set_running (h : heap) (state : addr) : option heap :=
  e ← h !! state;
  Some (<[state := {| id := id e; next := next e; state := Some running |}]> h).

(** [strlen(s)] *)
Fixpoint strlen (s : string) : Z :=
  match s with
  | EmptyString => 0
  | String _ s' => 1 + strlen s'
  end.

(** [char a[strlen(s) + 1]; strcpy(a, s);] in a thread of which [used]
    bytes of stack are taken by arrays: the array is a variable-length
    array on the stack of the thread, and the copy stays inside the stack
    when the array does. *)
Definition array_fits (w : world) (used : Z) (s : string) : bool :=
  used + (strlen s + 1) <=? thread_stack w.

(** Do the two arrays of [execution_func], for the id and for the command,
    fit on the stack of the thread? *)
Definition strings_fit (w : world) (transaction command : string) : bool :=
  array_fits w 0 transaction
  && array_fits w (strlen transaction + 1) command.

Definition fits_stack (w : world) (ea : execution_args) : bool :=
  strings_fit w (transaction ea) (command ea).

(** Lines 156 to 164: copy the arguments into the arrays, then
    [*state = running].  A copy that leaves the stack ends the process
    ([SIGSEGV]): [None]. *)
Definition execution_func_start (w : world) (h : heap) (ea : execution_args)
    : option (heap * task) :=
  if negb (array_fits w 0 (transaction ea)) then None else
  if negb (array_fits w (strlen (transaction ea) + 1) (command ea)) then None
  else
    let t := {| task_transaction := transaction ea;
                task_command := command ea;
                task_chrooted := chrooted ea |} in
    h' ← set_running h (state_of ea);
    Some (h', t).

(** [finish_execute:] *)
Definition finish_execute (bus : sd_bus) (ret : Z) (tr : list call)
    : list call * Z :=
  (tr ++ [c_sd_bus_flush_close_unref bus; c_tukit_free_tx], ret).

(** Lines 166 to 222: the calls the worker makes, in order, and the value
    it returns. *)
Definition execution_func_body (w : world) (t : task) : list call * Z :=
  let transaction := task_transaction t in
  let command := task_command t in
  let tr := [c_stdout "Executing command"; c_tukit_new_tx] in
  if negb (tukit_new_tx w) then
    let '(_, sent) := send_error_signal w None transaction (tukit_get_errmsg w) (-1) in
    finish_execute None 0 (tr ++ sent)
  else
    let ret := tukit_tx_resume w transaction in
    let tr := tr ++ [c_tukit_tx_resume transaction] in
    if negb (ret =? 0) then
      let '(_, sent) := send_error_signal w None transaction (tukit_get_errmsg w) ret in
      finish_execute None ret (tr ++ sent)
    else
      let '(ret, we_wordv) := wordexp w command in
      let tr := tr ++ [c_wordexp command] in
      if negb (ret =? 0) then
        let tr := if ret =? WRDE_NOSPACE then tr ++ [c_wordfree] else tr in
        let '(_, sent) :=
          send_error_signal w None transaction "Command could not be processed." ret in
        finish_execute None ret (tr ++ sent)
      else
        let '(exec_ret, output, tr) :=
          if negb (task_chrooted t =? 0)
          then let '(r, o) := tukit_tx_execute w we_wordv in
               (r, o, tr ++ [c_tukit_tx_execute we_wordv])
          else let '(r, o) := tukit_tx_call_ext w we_wordv in
               (r, o, tr ++ [c_tukit_tx_call_ext we_wordv]) in
        let tr := tr ++ [c_wordfree] in
        let ret := tukit_tx_keep w in
        let tr := tr ++ [c_tukit_tx_keep] in
        if negb (ret =? 0) then
          let tr := tr ++ [c_free_output] in
          let '(_, sent) :=
            send_error_signal w None transaction (tukit_get_errmsg w) (-1) in
          finish_execute None ret (tr ++ sent)
        else
          let '(bus, opened) := get_bus w in_execution_func in
          let ret := emit_signal w bus (CommandExecuted transaction exec_ret output) in
          let tr := tr ++ opened
                       ++ [c_sd_bus_emit_signal bus
                             (CommandExecuted transaction exec_ret output) ret] in
          let tr :=
            if ret <? 0 then
              tr ++ (send_error_signal w bus transaction
                       "Cannot send signal 'CommandExecuted'." ret).2
            else tr in
          finish_execute bus ret (tr ++ [c_free_output])
  .

(** [execution_func(args)] *)
Definition execution_func (w : world) (h : heap) (ea : execution_args)
    : option (heap * (list call * Z)) :=
  '(h', t) ← execution_func_start w h ea;
  Some (h', execution_func_body w t).

(** ** The method handlers *)

(** What a handler leaves behind: the heap, the [int] it returns, the error
    it has set, its calls in order, and the worker it has started. *)
Record handled := {
  hd_heap : heap;
  hd_ret : Z;
  hd_error : option sd_bus_error;
  hd_calls : list call;
  hd_worker : option task
}.

(** [static int transaction_open(m, userdata, ret_error)].  The registry is
    not an argument the function uses; the heap goes through unchanged. *)
Definition transaction_open (w : world) (h : heap) (userdata : addr)
    (m : list arg) : option handled :=
  let done ret err calls :=
    Some {| hd_heap := h; hd_ret := ret; hd_error := err; hd_calls := calls;
            hd_worker := None |} in
  match sd_bus_message_read_s m with
  | None => done (-1) (tukit_error "Could not read base snapshot identifier.") []
  | Some base =>
      if negb (tukit_new_tx w) then
        done (-1) (tukit_error (tukit_get_errmsg w)) [c_tukit_new_tx]
      else
        let tr := [c_tukit_new_tx; c_tukit_tx_init base] in
        let ret := tukit_tx_init w base in
        let err := if negb (ret =? 0) then tukit_error (tukit_get_errmsg w) else None in
        let '(snapid, ret, err, tr) :=
          if ret =? 0 then
            match tukit_tx_get_snapshot w with
            | None => (None, -1, tukit_error (tukit_get_errmsg w),
                       tr ++ [c_tukit_tx_get_snapshot])
            | Some s => (Some s, ret, err, tr ++ [c_tukit_tx_get_snapshot])
            end
          else (None, ret, err, tr) in
        let '(ret, err, tr) :=
          if ret =? 0 then
            if negb (tukit_tx_keep w =? 0)
            then (tukit_tx_keep w, tukit_error (tukit_get_errmsg w), tr ++ [c_tukit_tx_keep])
            else (tukit_tx_keep w, err, tr ++ [c_tukit_tx_keep])
          else (ret, err, tr) in
        let tr := tr ++ [c_tukit_free_tx] in
        if negb (ret =? 0) then done ret err tr
        else
          snapid ← snapid;
          let sent := emit_signal w (Some in_main) (TransactionOpened snapid) in
          let tr := tr ++ [c_sd_bus_emit_signal (Some in_main) (TransactionOpened snapid) sent] in
          if sent <? 0 then
            done (-1) (tukit_error "Sending signal 'TransactionOpened' failed.") tr
          else
            done (sd_bus_reply_method_return w) err
              (tr ++ [c_stdout "Snapshot created.";
                      c_sd_bus_reply_method_return [arg_s snapid]])
  end.

(** [while (activeTransaction->next->id != NULL) activeTransaction =
    activeTransaction->next;] of [execute]: the node before the
    placeholder. *)
Fixpoint last_entry (fuel : nat) (h : heap) (activeTransaction : addr)
    : option addr :=
  match fuel with
  | O => None
  | S fuel' =>
      e ← h !! activeTransaction;
      q ← next e;
      n ← h !! q;
      match id n with
      | None => Some activeTransaction
      | Some _ => last_entry fuel' h q
      end
  end.

(** How far [execute] gets before it starts the thread (lines 232 to
    246). *)
Inductive prepared :=
| refused (r : handled)                       (* an early [return] *)
| ready (h : heap) (exec_args : execution_args).

Definition execute_prepare (w : world) (h : heap) (userdata : addr)
    (m : list arg) (chrooted : Z) : option prepared :=
  match sd_bus_message_read_ss m with
  | None =>
      Some (refused {| hd_heap := h; hd_ret := -1;
                       hd_error := tukit_error "Could not read D-Bus parameters.";
                       hd_calls := []; hd_worker := None |})
  | Some (transaction, command) =>
      r ← lockSnapshot (malloc_ok w) (strdup_ok w) h userdata transaction;
      if negb (lr_ret r =? 0) then
        Some (refused {| hd_heap := lr_heap r; hd_ret := lr_ret r;
                         hd_error := lr_error r;
                         hd_calls := [c_lockSnapshot transaction (lr_ret r)];
                         hd_worker := None |})
      else
        activeTransaction ← last_entry (S (size (lr_heap r))) (lr_heap r) userdata;
        Some (ready (lr_heap r)
                {| transaction := transaction; command := command;
                   chrooted := chrooted; state_of := activeTransaction |})
  end.

(** [static int execute(m, userdata, ret_error, chrooted)], with the thread
    it starts run up to its [*state = running].  When [pthread_create]
    fails no thread writes [running] and the loop
    [while (activeTransaction->state != running) usleep(500);] does not end:
    the result is [None].  It is [None] as well when the thread dies in
    its copies, and the process with it. *)
Definition execute (w : world) (h : heap) (userdata : addr) (m : list arg)
    (chrooted : Z) : option handled :=
  p ← execute_prepare w h userdata m chrooted;
  match p with
  | refused r => Some r
  | ready h1 exec_args =>
      let ret := pthread_create w in
      started ← (if ret =? 0
                 then '(h2, t) ← execution_func_start w h1 exec_args; Some (h2, Some t)
                 else Some (h1, None));
      e ← started.1 !! state_of exec_args;
      match state e with
      | Some running =>
          Some {| hd_heap := started.1; hd_ret := ret; hd_error := None;
                  hd_calls := [c_lockSnapshot (transaction exec_args) 0;
                               c_pthread_create; c_pthread_detach];
                  hd_worker := started.2 |}
      | _ => None
      end
  end.

(** The end of [transaction_call] and [transaction_callext]: reply unless
    [execute] returned a non-zero value. *)
Definition reply_empty (w : world) (r : handled) : handled :=
  if negb (hd_ret r =? 0) then r
  else {| hd_heap := hd_heap r; hd_ret := sd_bus_reply_method_return w;
          hd_error := hd_error r;
          hd_calls := hd_calls r ++ [c_sd_bus_reply_method_return []];
          hd_worker := hd_worker r |}.

(** [static int transaction_call(m, userdata, ret_error)] *)
Definition transaction_call (w : world) (h : heap) (userdata : addr)
    (m : list arg) : option handled :=
  reply_empty w <$> execute w h userdata m 1.

(** [static int transaction_callext(m, userdata, ret_error)] *)
Definition transaction_callext (w : world) (h : heap) (userdata : addr)
    (m : list arg) : option handled :=
  reply_empty w <$> execute w h userdata m 0.

(** [static int signalCallback(m, userdata, ret_error)] *)
Definition signalCallback (h : heap) (userdata : addr) (m : list arg)
    : option handled :=
  match sd_bus_message_read_s m with
  | None =>
      Some {| hd_heap := h; hd_ret := -1;
              hd_error := tukit_error "Could not read transaction ID.";
              hd_calls := []; hd_worker := None |}
  | Some transaction =>
      h' ← unlockSnapshot h userdata transaction;
      Some {| hd_heap := h'; hd_ret := 0; hd_error := None;
              hd_calls := [c_unlockSnapshot transaction]; hd_worker := None |}
  end.

(** A signal that arrives on the connection of [main]: the callback runs
    when the rule registered by [sd_bus_match_signal] lets it pass. *)
Definition deliver_signal (h : heap) (userdata : addr) (s : signal)
    : option heap :=
  if rule_matches main_match_rule s
  then hd_heap <$> signalCallback h userdata (sig_body s)
  else Some h.

(** The signals that arrive one after the other: the event loop runs the
    callback for each before it looks at the next. *)
Fixpoint deliver_signals (h : heap) (userdata : addr) (sigs : list signal)
    : option heap :=
  match sigs with
  | [] => Some h
  | s :: sigs' =>
      h' ← deliver_signal h userdata s;
      deliver_signals h' userdata sigs'
  end.

(** The id that the arrival of a signal unlocks, if it unlocks one. *)
Definition released (s : signal) : option string :=
  if rule_matches main_match_rule s
  then sd_bus_message_read_s (sig_body s)
  else None.

(** [finish_close:] and [finish_abort:] *)
Definition finish_unlock (h : heap) (userdata : addr) (transaction : string)
    (ret : Z) (err : option sd_bus_error) (tr : list call) : option handled :=
  h' ← unlockSnapshot h userdata transaction;
  Some {| hd_heap := h'; hd_ret := ret; hd_error := err;
          hd_calls := tr ++ [c_tukit_free_tx; c_unlockSnapshot transaction];
          hd_worker := None |}.

(** [static int transaction_close(m, userdata, ret_error)] *)
Definition transaction_close (w : world) (h : heap) (userdata : addr)
    (m : list arg) : option handled :=
  match sd_bus_message_read_s m with
  | None =>
      Some {| hd_heap := h; hd_ret := -1;
              hd_error := tukit_error "Could not read D-Bus parameters.";
              hd_calls := []; hd_worker := None |}
  | Some transaction =>
      r ← lockSnapshot (malloc_ok w) (strdup_ok w) h userdata transaction;
      let ret := lr_ret r in
      let tr := [c_lockSnapshot transaction ret] in
      if negb (ret =? 0) then
        Some {| hd_heap := lr_heap r; hd_ret := ret; hd_error := lr_error r;
                hd_calls := tr; hd_worker := None |}
      else
        let h := lr_heap r in
        let errmsg := tukit_error (tukit_get_errmsg w) in
        let tr := tr ++ [c_tukit_new_tx] in
        if negb (tukit_new_tx w) then
          finish_unlock h userdata transaction ret errmsg tr
        else
          let ret := tukit_tx_resume w transaction in
          let tr := tr ++ [c_tukit_tx_resume transaction] in
          if negb (ret =? 0) then
            finish_unlock h userdata transaction ret errmsg tr
          else
            let ret := tukit_tx_finalize w in
            let tr := tr ++ [c_tukit_tx_finalize] in
            if negb (ret =? 0) then
              finish_unlock h userdata transaction ret errmsg tr
            else
              finish_unlock h userdata transaction ret None
                (tr ++ [c_stdout "Snapshot closed.";
                        c_sd_bus_reply_method_return [arg_i ret]])
  end.

(** [static int transaction_abort(m, userdata, ret_error)] *)
Definition transaction_abort (w : world) (h : heap) (userdata : addr)
    (m : list arg) : option handled :=
  match sd_bus_message_read_s m with
  | None =>
      Some {| hd_heap := h; hd_ret := -1;
              hd_error := tukit_error "Could not read D-Bus parameters.";
              hd_calls := []; hd_worker := None |}
  | Some transaction =>
      r ← lockSnapshot (malloc_ok w) (strdup_ok w) h userdata transaction;
      let ret := lr_ret r in
      let tr := [c_lockSnapshot transaction ret] in
      if negb (ret =? 0) then
        Some {| hd_heap := lr_heap r; hd_ret := ret; hd_error := lr_error r;
                hd_calls := tr; hd_worker := None |}
      else
        let h := lr_heap r in
        let errmsg := tukit_error (tukit_get_errmsg w) in
        let tr := tr ++ [c_tukit_new_tx] in
        if negb (tukit_new_tx w) then
          finish_unlock h userdata transaction ret errmsg tr
        else
          let ret := tukit_tx_resume w transaction in
          let tr := tr ++ [c_tukit_tx_resume transaction] in
          if negb (ret =? 0) then
            finish_unlock h userdata transaction ret errmsg tr
          else
            finish_unlock h userdata transaction ret None
              (tr ++ [c_stdout "Snapshot aborted.";
                      c_sd_bus_reply_method_return [arg_i ret]])
  end.

(** ** The object: [tukit_transaction_vtable] *)

(** The methods of the vtable (lines 371 to 375). *)
Inductive method := Open | Call | CallExt | Close | Abort.

(** [SD_BUS_ARGS(...)] of each method. *)
Definition method_signature (me : method) : string :=
  match me with
  | Open => "s"
  | Call | CallExt => "ss"
  | Close | Abort => "s"
  end.

(** The handler of each method. *)
Definition method_handler (me : method)
    : world → heap → addr → list arg → option handled :=
  match me with
  | Open => transaction_open
  | Call => transaction_call
  | CallExt => transaction_callext
  | Close => transaction_close
  | Abort => transaction_abort
  end.

(** What becomes of a method call on the object: sd-bus answers a message
    whose signature is not the one of the vtable itself, with the error
    [InvalidArgs], and runs the handler on every other. *)
Inductive dispatched :=
| invalid_args
| to_handler (r : handled).

Definition method_call (w : world) (h : heap) (userdata : addr) (me : method)
    (m : list arg) : option dispatched :=
  if String.eqb (signature m) (method_signature me)
  then to_handler <$> method_handler me w h userdata m
  else Some invalid_args.

(** Can the handler of a method read its parameters from the body
    ([sd_bus_message_read] with ["ss"] in [execute], with ["s"] in the
    others)? *)
Definition readable (me : method) (m : list arg) : bool :=
  match me with
  | Call | CallExt =>
      if sd_bus_message_read_ss m is Some _ then true else false
  | Open | Close | Abort =>
      if sd_bus_message_read_s m is Some _ then true else false
  end.

(** ** Shutdown: [event_handler] *)

(** The fields of [struct signalfd_siginfo] the handler reads: the signal
    number, and [ssi_pid], the PID of the process that sent the signal. *)
Record signalfd_siginfo := {
  ssi_signo : Z;
  ssi_pid : Z
}.

Definition SIGINT : Z := 2.
Definition SIGTERM : Z := 15.

(** [int event_handler(s, si, userdata)]: its calls, and the value it
    returns ([None] after [exit(1)], which does not return). *)
Definition event_handler (w : world) (h : heap) (userdata : addr)
    (si : signalfd_siginfo) : option (list call * option Z) :=
  activeTransaction ← h !! userdata;
  match id activeTransaction with
  | Some _ =>
      Some ([c_stdout "Waiting for remaining transactions to finish...";
             c_sleep 1;
             c_kill (ssi_pid si) (ssi_signo si)], Some 0)
  | None =>
      if sd_event_exit w <? 0 then
        Some ([c_stdout "Terminating."; c_sd_event_exit 0;
               c_stderr "Cannot exit the main loop!"; c_exit 1], None)
      else
        Some ([c_stdout "Terminating."; c_sd_event_exit 0], Some 0)
  end.

(** Does the trace send a signal to the process [pid]? *)
Definition signalled (pid : Z) (tr : list call) : bool :=
  existsb (λ c, match c with
                | c_kill target _ => target =? pid
                | _ => false
                end) tr.

(** ** Startup and exit status: [main] *)

(** The answers [main] gets from its startup steps and from the event
    loop. *)
Record startup := {
  st_malloc_ok : bool;
  st_sd_bus_open_system : Z;
  st_sd_bus_add_object_vtable : Z;
  st_sd_bus_request_name : Z;
  st_sd_bus_match_signal : Z;
  st_sd_event_default : Z;
  st_sigemptyset : Z;
  st_sigaddset : Z → Z;
  st_sigprocmask : Z;
  st_sd_event_add_signal : Z → Z;
  st_sd_bus_attach_event : Z;
  st_sd_event_loop : Z
}.

Definition EXIT_SUCCESS : Z := 0.
Definition EXIT_FAILURE : Z := 1.

(** [finish:] of [main]; freeing the registry and the handles changes
    nothing of the status. *)
Definition finish (ret : Z) (stderr : list string) : list string * Z :=
  (stderr, if ret <? 0 then EXIT_FAILURE else EXIT_SUCCESS).

(** [int main()]: what it writes to [stderr] and its exit status. *)
Definition main (s : startup) : list string * Z :=
  let ret := 1 in
  if negb (st_malloc_ok s) then
    finish ret ["malloc failed for TransactionEntry."]
  else
  let ret := st_sd_bus_open_system s in
  if ret <? 0 then finish ret ["Failed to connect to system bus"] else
  let ret := st_sd_bus_add_object_vtable s in
  if ret <? 0 then finish ret ["Failed to issue method call"] else
  let ret := st_sd_bus_request_name s in
  if ret <? 0 then finish ret ["Failed to acquire service name"] else
  let ret := st_sd_bus_match_signal s in
  if ret <? 0 then finish ret ["Failed to register DBus signal listener"] else
  let ret := st_sd_event_default s in
  if ret <? 0 then finish ret ["Failed to create default event loop"] else
  if (st_sigemptyset s <? 0) || (st_sigaddset s SIGTERM <? 0)
     || (st_sigaddset s SIGINT <? 0)
  then finish ret ["Failed to set the signal set"] else
  if st_sigprocmask s <? 0 then finish ret ["Failed to block the signals"] else
  let ret := st_sd_event_add_signal s SIGTERM in
  if ret <? 0 then finish ret ["Could not add signal handler for SIGTERM to event loop"] else
  let ret := st_sd_event_add_signal s SIGINT in
  if ret <? 0 then finish ret ["Could not add signal handler for SIGINT to event loop"] else
  let ret := st_sd_bus_attach_event s in
  if ret <? 0 then finish ret ["Could not add sd-bus handling to event bus"] else
  let ret := st_sd_event_loop s in
  if ret <? 0 then finish ret ["Error while running event loop"] else
  finish ret [].

(** ** The handshake between [execute] and the thread it starts

    From [pthread_create] on, [execute] and [execution_func] run side by
    side.  Each statement of the two that touches [exec_args], the strings
    of the message or the registry node is one step; a schedule picks the
    thread that moves next.  Memory is sequentially consistent: a step
    sees what the steps before it have written.  The code has no lock and
    no barrier around [exec_args] and the [state] field, so what is proved
    of the schedules is proved under this reading of the two threads. *)

Inductive thread := caller | worker.

(** Where [execute] stands (lines 248 to 255). *)
Inductive execute_pc :=
| at_pthread_create
| at_wait              (* while (activeTransaction->state != running) *)
| at_pthread_detach
| returned.            (* exec_args is gone, the message can be released *)

(** Where [execution_func] stands (lines 156 to 165). *)
Inductive worker_pc :=
| not_started
| copy_transaction     (* strcpy(transaction, ea->transaction) *)
| copy_command         (* strcpy(command, ea->command) *)
| copy_chrooted        (* chrooted = ea->chrooted *)
| copy_state           (* state = ea->state *)
| write_running        (* *state = running *)
| in_body.             (* line 166 on: only the copies are read *)

Record handshake := {
  hs_execute : execute_pc;
  hs_worker : worker_pc;
  hs_args_live : bool;                (* exec_args and the message exist *)
  hs_heap : heap;
  hs_transaction : option string;     (* the locals of the worker *)
  hs_command : option string;
  hs_chrooted : option Z;
  hs_state : option addr;
  hs_fault : bool                     (* the process has been killed *)
}.

(** The state in which [execute] is about to call [pthread_create]. *)
Definition handshake_start (h : heap) : handshake :=
  {| hs_execute := at_pthread_create; hs_worker := not_started;
     hs_args_live := true; hs_heap := h;
     hs_transaction := None; hs_command := None; hs_chrooted := None;
     hs_state := None; hs_fault := false |}.

(** One statement of [execute]. *)
Definition step_caller (w : world) (exec_args : execution_args)
    (s : handshake) : handshake :=
  match hs_execute s with
  | at_pthread_create =>
      {| hs_execute := at_wait;
         hs_worker := if pthread_create w =? 0 then copy_transaction else not_started;
         hs_args_live := hs_args_live s; hs_heap := hs_heap s;
         hs_transaction := hs_transaction s; hs_command := hs_command s;
         hs_chrooted := hs_chrooted s; hs_state := hs_state s;
         hs_fault := hs_fault s |}
  | at_wait =>
      match hs_heap s !! state_of exec_args ≫= state with
      | Some running =>
          {| hs_execute := at_pthread_detach;
             hs_worker := hs_worker s;
             hs_args_live := hs_args_live s; hs_heap := hs_heap s;
             hs_transaction := hs_transaction s; hs_command := hs_command s;
             hs_chrooted := hs_chrooted s; hs_state := hs_state s;
             hs_fault := hs_fault s |}
      | _ => s                         (* usleep(500); and test again *)
      end
  | at_pthread_detach =>
      {| hs_execute := returned;
         hs_worker := hs_worker s;
         hs_args_live := false; hs_heap := hs_heap s;
         hs_transaction := hs_transaction s; hs_command := hs_command s;
         hs_chrooted := hs_chrooted s; hs_state := hs_state s;
         hs_fault := hs_fault s |}
  | returned => s
  end.

(** A read through [ea]: the value when [exec_args] is alive. *)
Definition read_args {A} (s : handshake) (field : A) : option A :=
  if hs_args_live s then Some field else None.

(** The process is killed ([SIGSEGV]). *)
Definition fault (s : handshake) : handshake :=
  {| hs_execute := hs_execute s; hs_worker := hs_worker s;
     hs_args_live := hs_args_live s; hs_heap := hs_heap s;
     hs_transaction := hs_transaction s; hs_command := hs_command s;
     hs_chrooted := hs_chrooted s; hs_state := hs_state s;
     hs_fault := true |}.

(** One statement of [execution_func].  The two arrays are made on the
    stack of the thread, as long as the string they are to hold: a copy
    that leaves the stack kills the process, and so does a read of
    [exec_args] or of the message when they are gone. *)
Definition step_worker (w : world) (exec_args : execution_args)
    (s : handshake) : handshake :=
  let go pc tr cm ch st h :=
    {| hs_execute := hs_execute s; hs_worker := pc;
       hs_args_live := hs_args_live s; hs_heap := h;
       hs_transaction := tr; hs_command := cm; hs_chrooted := ch;
       hs_state := st; hs_fault := hs_fault s |} in
  match hs_worker s with
  | not_started => s
  | copy_transaction =>
      match read_args s (transaction exec_args) with
      | Some v =>
          if array_fits w 0 v
          then go copy_command (Some v) (hs_command s) (hs_chrooted s)
                  (hs_state s) (hs_heap s)
          else fault s
      | None => fault s
      end
  | copy_command =>
      match read_args s (command exec_args) with
      | Some v =>
          if array_fits w (strlen (transaction exec_args) + 1) v
          then go copy_chrooted (hs_transaction s) (Some v) (hs_chrooted s)
                  (hs_state s) (hs_heap s)
          else fault s
      | None => fault s
      end
  | copy_chrooted =>
      match read_args s (chrooted exec_args) with
      | Some v =>
          go copy_state (hs_transaction s) (hs_command s) (Some v)
             (hs_state s) (hs_heap s)
      | None => fault s
      end
  | copy_state =>
      match read_args s (state_of exec_args) with
      | Some v =>
          go write_running (hs_transaction s) (hs_command s) (hs_chrooted s)
             (Some v) (hs_heap s)
      | None => fault s
      end
  | write_running =>
      match hs_state s ≫= set_running (hs_heap s) with
      | Some h' =>
          go in_body (hs_transaction s) (hs_command s) (hs_chrooted s)
             (hs_state s) h'
      | None => fault s
      end
  | in_body => s
  end.

(** One statement of the thread the schedule picks; nothing moves once the
    process is killed. *)
Definition step (w : world) (exec_args : execution_args) (who : thread)
    (s : handshake) : handshake :=
  if hs_fault s then s
  else match who with
       | caller => step_caller w exec_args s
       | worker => step_worker w exec_args s
       end.

(** The state after the threads have moved in the order of the schedule. *)
Definition run (w : world) (exec_args : execution_args)
    (schedule : list thread) (s : handshake) : handshake :=
  foldl (λ s who, step w exec_args who s) s schedule.

(** The node [exec_args.state] points at is there and not yet [running]. *)
Definition not_yet_running (exec_args : execution_args) (s : handshake)
    : Prop :=
  ∃ e, hs_heap s !! state_of exec_args = Some e ∧ state e ≠ Some running.

(** What the worker has copied when it stands at a given statement. *)
Definition copied (exec_args : execution_args) (s : handshake)
    (n : nat) : Prop :=
  ((1 ≤ n)%nat → hs_transaction s = Some (transaction exec_args))
  ∧ ((2 ≤ n)%nat → hs_command s = Some (command exec_args))
  ∧ ((3 ≤ n)%nat → hs_chrooted s = Some (chrooted exec_args))
  ∧ ((4 ≤ n)%nat → hs_state s = Some (state_of exec_args)).

(** How far the worker has got with its arrays: it moves only when there
    is a thread, holds no copy of the command before its second array is
    made, and is behind an array only when the array has fitted. *)
Definition worker_progress (w : world) (exec_args : execution_args)
    (s : handshake) : Prop :=
  match hs_worker s with
  | not_started => hs_command s = None
  | copy_transaction => pthread_create w = 0 ∧ hs_command s = None
  | copy_command =>
      pthread_create w = 0 ∧ hs_command s = None
      ∧ array_fits w 0 (transaction exec_args) = true
  | _ => pthread_create w = 0 ∧ fits_stack w exec_args = true
  end.

(** The invariant of the handshake: the process is killed only by an array
    that does not fit; [exec_args] is alive as long as [execute] has not
    returned; as long as the worker has not written [running], the node is
    not [running] and [execute] has not passed its loop; and the worker
    has got as far as its arrays allow. *)
Definition handshake_inv (w : world) (exec_args : execution_args)
    (s : handshake) : Prop :=
  (hs_fault s = true → fits_stack w exec_args = false)
  ∧ (hs_execute s ≠ returned → hs_args_live s = true)
  ∧ match hs_worker s with
    | not_started =>
        not_yet_running exec_args s
        ∧ (hs_execute s = at_pthread_create ∨ hs_execute s = at_wait)
    | copy_transaction =>
        not_yet_running exec_args s ∧ hs_execute s = at_wait
        ∧ copied exec_args s 0
    | copy_command =>
        not_yet_running exec_args s ∧ hs_execute s = at_wait
        ∧ copied exec_args s 1
    | copy_chrooted =>
        not_yet_running exec_args s ∧ hs_execute s = at_wait
        ∧ copied exec_args s 2
    | copy_state =>
        not_yet_running exec_args s ∧ hs_execute s = at_wait
        ∧ copied exec_args s 3
    | write_running =>
        not_yet_running exec_args s ∧ hs_execute s = at_wait
        ∧ copied exec_args s 4
    | in_body =>
        hs_execute s ≠ at_pthread_create ∧ copied exec_args s 4
    end
  ∧ worker_progress w exec_args s.

(** ** Worlds and heaps to run the definitions on *)

(** Everything outside works; [wordexp] splits nothing. *)
Definition calm_world : world :=
  {| malloc_ok := true; strdup_ok := true;
     tukit_new_tx := true; tukit_get_errmsg := EmptyString;
     tukit_tx_init := λ _, 0; tukit_tx_get_snapshot := Some "7"%string;
     tukit_tx_keep := 0; tukit_tx_resume := λ _, 0; tukit_tx_finalize := 0;
     wordexp := λ c, (0, [c]);
     tukit_tx_execute := λ _, (0, EmptyString);
     tukit_tx_call_ext := λ _, (0, EmptyString);
     sd_bus_default_system := λ _, 0;
     sd_bus_emit_signal := λ _, 1;
     sd_bus_reply_method_return := 1;
     pthread_create := 0; thread_stack := 8388608;
     sd_event_exit := 0 |}.

(** The same, but the bus takes no signal ([-ENOTCONN]). *)
Definition deaf_bus_world : world :=
  {| malloc_ok := true; strdup_ok := true;
     tukit_new_tx := true; tukit_get_errmsg := EmptyString;
     tukit_tx_init := λ _, 0; tukit_tx_get_snapshot := Some "7"%string;
     tukit_tx_keep := 0; tukit_tx_resume := λ _, 0; tukit_tx_finalize := 0;
     wordexp := λ c, (0, [c]);
     tukit_tx_execute := λ _, (0, EmptyString);
     tukit_tx_call_ext := λ _, (0, EmptyString);
     sd_bus_default_system := λ _, 0;
     sd_bus_emit_signal := λ _, -107;
     sd_bus_reply_method_return := 1;
     pthread_create := 0; thread_stack := 8388608;
     sd_event_exit := 0 |}.

(** The same as [calm_world], but the command fails with status 3 and
    [tukit_tx_keep] fails. *)
Definition keep_fails_world : world :=
  {| malloc_ok := true; strdup_ok := true;
     tukit_new_tx := true; tukit_get_errmsg := "keep failed";
     tukit_tx_init := λ _, 0; tukit_tx_get_snapshot := Some "7"%string;
     tukit_tx_keep := -1; tukit_tx_resume := λ _, 0; tukit_tx_finalize := 0;
     wordexp := λ c, (0, [c]);
     tukit_tx_execute := λ _, (3, "out"%string);
     tukit_tx_call_ext := λ _, (3, "out"%string);
     sd_bus_default_system := λ _, 0;
     sd_bus_emit_signal := λ _, 1;
     sd_bus_reply_method_return := 1;
     pthread_create := 0; thread_stack := 8388608;
     sd_event_exit := 0 |}.

(** The same as [calm_world], but [wordexp] rejects every command
    ([WRDE_SYNTAX]). *)
Definition no_words_world : world :=
  {| malloc_ok := true; strdup_ok := true;
     tukit_new_tx := true; tukit_get_errmsg := EmptyString;
     tukit_tx_init := λ _, 0; tukit_tx_get_snapshot := Some "7"%string;
     tukit_tx_keep := 0; tukit_tx_resume := λ _, 0; tukit_tx_finalize := 0;
     wordexp := λ c, (5, []);
     tukit_tx_execute := λ _, (0, EmptyString);
     tukit_tx_call_ext := λ _, (0, EmptyString);
     sd_bus_default_system := λ _, 0;
     sd_bus_emit_signal := λ _, 1;
     sd_bus_reply_method_return := 1;
     pthread_create := 0; thread_stack := 8388608;
     sd_event_exit := 0 |}.

(** A registry that holds the one record of ["snap1"], [running]. *)
Definition one_locked : heap :=
  <[1%positive := {| id := Some "snap1"%string; next := Some 2%positive;
                     state := Some running |}]>
    {[ 2%positive := {| id := None; next := None; state := None |} ]}.

(** The registry right after [lockSnapshot] of ["snap1"]. *)
Definition one_queued : heap :=
  <[1%positive := {| id := Some "snap1"%string; next := Some 2%positive;
                     state := Some queued |}]>
    {[ 2%positive := {| id := None; next := None; state := None |} ]}.

(** The [exec_args] of [Call("snap1", "echo hi")] on the empty registry. *)
Definition echo_args : execution_args :=
  {| transaction := "snap1"; command := "echo hi"; chrooted := 1;
     state_of := 1%positive |}.

(** A task for ["snap1"]. *)
Definition echo_task : task :=
  {| task_transaction := "snap1"; task_command := "echo hi";
     task_chrooted := 1 |}.

(** A startup in which every step works and the loop ends with the code of
    [sd_event_exit(..., 0)]. *)
Definition good_startup : startup :=
  {| st_malloc_ok := true;
     st_sd_bus_open_system := 0; st_sd_bus_add_object_vtable := 0;
     st_sd_bus_request_name := 1; st_sd_bus_match_signal := 0;
     st_sd_event_default := 0; st_sigemptyset := 0; st_sigaddset := λ _, 0;
     st_sigprocmask := 0; st_sd_event_add_signal := λ _, 0;
     st_sd_bus_attach_event := 0; st_sd_event_loop := 0 |}.

(** The startup in which the first [malloc] returns [NULL]. *)
Definition no_memory_startup : startup :=
  {| st_malloc_ok := false;
     st_sd_bus_open_system := 0; st_sd_bus_add_object_vtable := 0;
     st_sd_bus_request_name := 1; st_sd_bus_match_signal := 0;
     st_sd_event_default := 0; st_sigemptyset := 0; st_sigaddset := λ _, 0;
     st_sigprocmask := 0; st_sd_event_add_signal := λ _, 0;
     st_sd_bus_attach_event := 0; st_sd_event_loop := 0 |}.

(** The startup in which [sigprocmask] fails. *)
Definition no_sigprocmask_startup : startup :=
  {| st_malloc_ok := true;
     st_sd_bus_open_system := 0; st_sd_bus_add_object_vtable := 0;
     st_sd_bus_request_name := 1; st_sd_bus_match_signal := 0;
     st_sd_event_default := 0; st_sigemptyset := 0; st_sigaddset := λ _, 0;
     st_sigprocmask := -1; st_sd_event_add_signal := λ _, 0;
     st_sd_bus_attach_event := 0; st_sd_event_loop := 0 |}.

(** A command of [n] characters. *)
Definition long_command (n : N) : string :=
  N.iter n (String "a"%char) EmptyString.

(** The [exec_args] of [Call("snap1", c)] on the empty registry, for a
    command [c] of 9000000 characters: more than the 8 MiB a thread gets
    for its stack, and a message the bus carries (its limit is 128 MiB). *)
Definition long_args : execution_args :=
  {| transaction := "snap1"; command := long_command 9000000; chrooted := 1;
     state_of := 1%positive |}.

(** The same as [calm_world], but the command fails with status 3 (and
    [tukit_tx_keep] works). *)
Definition failing_command_world : world :=
  {| malloc_ok := true; strdup_ok := true;
     tukit_new_tx := true; tukit_get_errmsg := EmptyString;
     tukit_tx_init := λ _, 0; tukit_tx_get_snapshot := Some "7"%string;
     tukit_tx_keep := 0; tukit_tx_resume := λ _, 0; tukit_tx_finalize := 0;
     wordexp := λ c, (0, [c]);
     tukit_tx_execute := λ _, (3, "out"%string);
     tukit_tx_call_ext := λ _, (3, "out"%string);
     sd_bus_default_system := λ _, 0;
     sd_bus_emit_signal := λ _, 1;
     sd_bus_reply_method_return := 1;
     pthread_create := 0; thread_stack := 8388608;
     sd_event_exit := 0 |}.

(** A registry that holds the one record of ["7"], [running]: what
    [Call("7", "echo hi")] makes of the empty registry. *)
Definition seven_locked : heap :=
  <[1%positive := {| id := Some "7"%string; next := Some 2%positive;
                     state := Some running |}]>
    {[ 2%positive := {| id := None; next := None; state := None |} ]}.

(** The task of that call. *)
Definition seven_task : task :=
  {| task_transaction := "7"; task_command := "echo hi";
     task_chrooted := 1 |}.

(** ** The end of [main]: freeing the registry *)

(** The loop at [finish:],
    [while (activeTransactions && activeTransactions->id != NULL)
       { next = activeTransactions->next; free(activeTransactions->id);
         free(activeTransactions); activeTransactions = next; }],
    followed by [free(activeTransactions)]. *)
Fixpoint free_walk (fuel : nat) (h : heap) (activeTransactions : addr)
    : option heap :=
  match fuel with
  | O => None
  | S fuel' =>
      e ← h !! activeTransactions;
      match id e with
      | None => Some (delete activeTransactions h)
      | Some _ =>
          nextTransaction ← next e;
          free_walk fuel' (delete activeTransactions h) nextTransaction
      end
  end.

(** [activeTransactions] is [NULL] when the first [malloc] has failed: the
    loop is skipped and [free(NULL)] does nothing. *)
Definition free_registry (h : heap) (activeTransactions : option addr)
    : option heap :=
  match activeTransactions with
  | None => Some h
  | Some p => free_walk (S (size h)) h p
  end.

(** ** Counting calls *)

(** The connections [sd_bus_flush_close_unref] was called with, [NULL]
    left out. *)
Fixpoint closed (tr : list call) : list get_bus_site :=
  match tr with
  | [] => []
  | c_sd_bus_flush_close_unref (Some site) :: tr' => site :: closed tr'
  | _ :: tr' => closed tr'
  end.

(** How many calls of a trace pass a test. *)
Definition count_calls (test : call → bool) (tr : list call) : nat :=
  length (filter (λ c, test c = true) tr).

Definition is_free_output (c : call) : bool :=
  match c with c_free_output => true | _ => false end.

Definition is_free_tx (c : call) : bool :=
  match c with c_tukit_free_tx => true | _ => false end.

Definition is_new_tx (c : call) : bool :=
  match c with c_tukit_new_tx => true | _ => false end.



Definition is_run (c : call) : bool :=
  match c with
  | c_tukit_tx_execute _ | c_tukit_tx_call_ext _ => true
  | _ => false
  end.

Definition is_execute (c : call) : bool :=
  match c with c_tukit_tx_execute _ => true | _ => false end.

Definition is_call_ext (c : call) : bool :=
  match c with c_tukit_tx_call_ext _ => true | _ => false end.

Definition is_keep (c : call) : bool :=
  match c with c_tukit_tx_keep => true | _ => false end.

Definition is_finalize (c : call) : bool :=
  match c with c_tukit_tx_finalize => true | _ => false end.

Definition is_reply (c : call) : bool :=
  match c with c_sd_bus_reply_method_return _ => true | _ => false end.

Definition is_leaving (c : call) : bool :=
  match c with c_sd_event_exit _ | c_exit _ => true | _ => false end.

(** ** More worlds to run the definitions on *)

(** A world given by the answers that matter most; the rest is as in
    [calm_world]. *)
Definition world_of (new_tx : bool) (resume wordexp_ret keep finalize
    connect emit thread : Z) : world :=
  {| malloc_ok := true; strdup_ok := true;
     tukit_new_tx := new_tx; tukit_get_errmsg := "engine error";
     tukit_tx_init := λ _, 0; tukit_tx_get_snapshot := Some "7"%string;
     tukit_tx_keep := keep; tukit_tx_resume := λ _, resume;
     tukit_tx_finalize := finalize;
     wordexp := λ c, (wordexp_ret, [c]);
     tukit_tx_execute := λ _, (0, "out"%string);
     tukit_tx_call_ext := λ _, (0, "out"%string);
     sd_bus_default_system := λ _, connect;
     sd_bus_emit_signal := λ _, emit;
     sd_bus_reply_method_return := 1;
     pthread_create := thread; thread_stack := 8388608;
     sd_event_exit := 0 |}.

(** A registry with two records: ["snap1"], [running], in front of
    ["snap2"], [queued]. *)
Definition two_locked : heap :=
  <[1%positive := {| id := Some "snap1"%string; next := Some 2%positive;
                     state := Some running |}]>
    (<[2%positive := {| id := Some "snap2"%string; next := Some 3%positive;
                        state := Some queued |}]>
       {[ 3%positive := {| id := None; next := None; state := None |} ]}).

(** What the handshake makes of the heap [h] it starts with: nothing until
    the worker has written [running], and then the one node
    [exec_args.state] points at has the state [running]. *)
Definition handshake_inv_heap (exec_args : execution_args) (h : heap)
    (s : handshake) : Prop :=
  match hs_worker s with
  | in_body =>
      ∃ e, h !! state_of exec_args = Some e
           ∧ hs_heap s =
               <[state_of exec_args :=
                   {| id := id e; next := next e; state := Some running |}]> h
  | _ => hs_heap s = h
  end.

(** ** The registry functions on a well-formed registry *)

(** Equality of two heaps built from inserts and deletes, by lookups. *)
Ltac heap_eq :=
  apply map_eq; intros ?;
  repeat (rewrite lookup_delete || rewrite lookup_insert
          || rewrite lookup_singleton || rewrite lookup_empty);
  repeat case_decide; simplify_eq; try done.

Section Registry.

Implicit Types (h : heap) (l : list record) (p q : addr) (t : string).

Lemma registry_size p l h :
  registry_at p l h → size h = S (length l).
Proof.
  revert p h. induction l as [|[t s] l IH]; intros p h; simpl.
  - intros (e & -> & _). by rewrite map_size_singleton.
  - intros (q & h' & Hp & -> & Hq).
    rewrite map_size_insert_None by done. by rewrite (IH _ _ Hq).
Qed.

(** The node a registry starts at is there; its id is the first locked id. *)
Lemma registry_head p l h :
  registry_at p l h → ∃ e, h !! p = Some e ∧ id e = head (ids l).
Proof.
  destruct l as [|[t s] l]; simpl.
  - intros (e & -> & He). exists e. by rewrite lookup_singleton_eq.
  - intros (q & h' & _ & -> & _). eexists. by rewrite lookup_insert_eq.
Qed.

Lemma lock_walk_weaken fuel h h' p t r :
  h ⊆ h' → lock_walk fuel h p t = Some r → lock_walk fuel h' p t = Some r.
Proof.
  intros Hsub. revert p. induction fuel as [|fuel IH]; intros p; simpl; [done|].
  destruct (h !! p) as [e|] eqn:He; simpl; [|done].
  rewrite (lookup_weaken _ _ _ _ He Hsub). simpl.
  destruct (id e) as [i|]; [|done].
  destruct (String.eqb i t); [done|].
  destruct (next e) as [q|]; simpl; [|done]. apply IH.
Qed.

Lemma eqb_elem_of_ids t i s l :
  String.eqb i t = false → t ∈ ids ((i, s) :: l) ↔ t ∈ ids l.
Proof.
  intros Hne. apply String.eqb_neq in Hne. unfold ids. simpl.
  rewrite elem_of_cons. split; [intros [->|H]|intros H]; [done|done|by right].
Qed.

(** A locked id stops the walk of [lockSnapshot]. *)
Lemma lock_walk_busy fuel p l h t :
  registry_at p l h → t ∈ ids l → (length l < fuel)%nat →
  lock_walk fuel h p t = Some scan_busy.
Proof.
  revert fuel p h. induction l as [|[i s] l IH]; intros fuel p h Hreg Hin Hfuel.
  - by apply elem_of_nil in Hin.
  - destruct fuel as [|fuel]; [simpl in Hfuel; lia|].
    destruct Hreg as (q & h' & Hp & -> & Hq). simpl.
    rewrite lookup_insert_eq. simpl.
    destruct (String.eqb i t) eqn:Heq; [done|].
    apply (lock_walk_weaken _ h'); [by apply insert_subseteq|].
    apply (IH _ _ _ Hq); [by apply (eqb_elem_of_ids t i s)|simpl in Hfuel; lia].
Qed.

(** An id that is not locked lets the walk reach the placeholder; writing
    the new record there, with a fresh placeholder behind it, appends the
    record. *)
Lemma lock_walk_free fuel p l h t :
  registry_at p l h → t ∉ ids l → (length l < fuel)%nat →
  ∃ a e, lock_walk fuel h p t = Some (scan_end a)
         ∧ h !! a = Some e ∧ id e = None
         ∧ ∀ b eb r, h !! b = None → id eb = None →
             registry_at p (l ++ [r])
               (<[a := {| id := Some r.1; next := Some b; state := Some r.2 |}]>
                  (<[b := eb]> h)).
Proof.
  revert fuel p h. induction l as [|[i s] l IH]; intros fuel p h Hreg Hin Hfuel;
    (destruct fuel as [|fuel]; [simpl in Hfuel; lia|]).
  - destruct Hreg as (e & -> & He). exists p, e. simpl.
    rewrite lookup_singleton_eq. simpl. rewrite He.
    split_and!; [done..|]. intros b eb [t' s'] Hb Heb. simpl.
    apply lookup_singleton_None in Hb.
    exists b, {[ b := eb ]}. split_and!.
    + by apply lookup_singleton_None.
    + heap_eq.
    + by exists eb.
  - destruct Hreg as (q & h' & Hp & -> & Hq).
    assert (String.eqb i t = false) as Heq.
    { apply String.eqb_neq. intros ->. apply Hin. unfold ids. simpl. left. }
    destruct (IH fuel q h' Hq) as (a & e & Hwalk & Ha & He & Happ).
    { by rewrite <- (eqb_elem_of_ids t i s). }
    { simpl in Hfuel. lia. }
    assert (a ≠ p) as Hap by (intros ->; congruence).
    exists a, e. simpl. rewrite lookup_insert_eq. simpl. rewrite Heq.
    split_and!.
    + apply (lock_walk_weaken _ h'); [by apply insert_subseteq|done].
    + by rewrite lookup_insert_ne.
    + done.
    + intros b eb r Hb Heb.
      apply lookup_insert_None in Hb as [Hb Hpb].
      exists q. eexists. split_and!; [| |by apply (Happ b eb r)].
      * by rewrite !lookup_insert_ne.
      * heap_eq.
Qed.

Lemma unlock_walk_frame fuel h h' p e q t :
  h !! p = None → unlock_walk fuel h q t = Some h' →
  unlock_walk fuel (<[p := e]> h) q t = Some (<[p := e]> h') ∧ h' !! p = None.
Proof.
  intros Hp. revert q. induction fuel as [|fuel IH]; intros q; simpl; [done|].
  destruct (h !! q) as [n|] eqn:Hq; simpl; [|done].
  assert (p ≠ q) as Hpq by (intros ->; congruence).
  rewrite lookup_insert_ne by done. rewrite Hq. simpl.
  destruct (id n) as [i|]; [|by intros [= <-]].
  destruct (String.eqb i t).
  - destruct (next n) as [x|]; simpl; [|done].
    destruct (h !! x) as [nx|] eqn:Hx; simpl; [|done].
    assert (p ≠ x) as Hpx by (intros ->; congruence).
    rewrite lookup_insert_ne by done. rewrite Hx. simpl.
    intros [= <-]. split.
    + f_equal. heap_eq.
    + rewrite lookup_delete_ne by done. by rewrite lookup_insert_ne.
  - destruct (next n) as [x|]; simpl; [|done]. apply IH.
Qed.

(** [unlockSnapshot] returns on every registry, and leaves the records
    [unlocked] describes; without a record of the id the heap is the same. *)
Lemma unlock_walk_spec fuel p l h t :
  registry_at p l h → (length l < fuel)%nat →
  ∃ h', unlock_walk fuel h p t = Some h'
        ∧ registry_at p (unlocked t l) h'
        ∧ (t ∉ ids l → h' = h).
Proof.
  revert fuel p h. induction l as [|[i s] l IH]; intros fuel p h Hreg Hfuel;
    (destruct fuel as [|fuel]; [simpl in Hfuel; lia|]).
  - destruct Hreg as (e & -> & He). exists {[ p := e ]}. simpl.
    rewrite lookup_singleton_eq. simpl. rewrite He.
    split_and!; [done| |done]. by exists e.
  - destruct Hreg as (q & h' & Hp & -> & Hq). simpl.
    rewrite lookup_insert_eq. simpl.
    destruct (String.eqb i t) eqn:Heq.
    + destruct (registry_head _ _ _ Hq) as (n & Hn & Hid).
      assert (p ≠ q) as Hpq by (intros ->; congruence).
      rewrite lookup_insert_ne by done. rewrite Hn. simpl.
      eexists. split; [done|]. split.
      * destruct l as [|[i' s'] l]; simpl in *.
        -- destruct Hq as (e & -> & He).
           rewrite lookup_singleton_eq in Hn. injection Hn as <-. rewrite He.
           exists {| id := None; next := Some q; state := Some s |}.
           split; [|done].
           heap_eq.
        -- destruct Hq as (q' & h'' & Hq' & -> & Hreg').
           rewrite lookup_insert_eq in Hn. injection Hn as <-. simpl.
           apply lookup_insert_None in Hp as [Hp _].
           exists q', h''. split_and!; [done| |done].
           heap_eq.
      * intros Hnot. exfalso. apply Hnot. apply String.eqb_eq in Heq as ->.
        unfold ids. simpl. left.
    + destruct (IH fuel q h' Hq) as (h2 & Hwalk & Hreg2 & Hsame);
        [simpl in Hfuel; lia|].
      destruct (unlock_walk_frame _ _ _ p
                  {| id := Some i; next := Some q; state := Some s |} _ _ Hp Hwalk)
        as [Hwalk' Hp2].
      eexists. split; [exact Hwalk'|]. split.
      * exists q, h2. by split_and!.
      * intros Hnot. rewrite Hsame; [done|].
        by rewrite <- (eqb_elem_of_ids t i s).
Qed.

End Registry.

Section RegistryCalls.

Implicit Types (h : heap) (l : list record) (p q : addr) (t : string).

Lemma ids_app l r : ids (l ++ [r]) = ids l ++ [r.1].
Proof. unfold ids. by rewrite fmap_app. Qed.

(** [lockSnapshot] on an id that is locked. *)
Lemma lockSnapshot_busy p l h t mo so :
  registry_at p l h → t ∈ ids l →
  lockSnapshot mo so h p t =
    Some {| lr_heap := h; lr_ret := - EBUSY;
            lr_error := tukit_error "The transaction is currently in use by another thread." |}.
Proof.
  intros Hreg Hin. unfold lockSnapshot.
  rewrite (lock_walk_busy _ p l) by
    (try done; rewrite (registry_size _ _ _ Hreg); lia).
  done.
Qed.

(** [lockSnapshot] on an id that is not locked, when memory is there. *)
Lemma lockSnapshot_free p l h t :
  registry_at p l h → t ∉ ids l →
  ∃ h', lockSnapshot true true h p t =
          Some {| lr_heap := h'; lr_ret := 0; lr_error := None |}
        ∧ registry_at p (l ++ [(t, queued)]) h'.
Proof.
  intros Hreg Hnot. unfold lockSnapshot.
  destruct (lock_walk_free (S (size h)) p l h t Hreg Hnot)
    as (a & e & -> & Ha & He & Happ);
    [rewrite (registry_size _ _ _ Hreg); lia|].
  simpl. set (b := fresh (dom h)).
  assert (h !! b = None) as Hb by (apply not_elem_of_dom, is_fresh).
  assert (a ≠ b) as Hab by (intros ->; congruence).
  rewrite lookup_insert_ne by done. rewrite Ha. simpl.
  eexists. split; [done|].
  by apply (Happ b _ (t, queued)).
Qed.

(** [lockSnapshot] on an id that is not locked, when [malloc] or [strdup]
    returns [NULL]: [-ENOMEM], and the heap is as before. *)
Lemma lockSnapshot_nomem p l h t mo so :
  registry_at p l h → t ∉ ids l → (mo && so) = false →
  ∃ err, lockSnapshot mo so h p t =
           Some {| lr_heap := h; lr_ret := - ENOMEM; lr_error := Some err |}.
Proof.
  intros Hreg Hnot Hoom. unfold lockSnapshot.
  destruct (lock_walk_free (S (size h)) p l h t Hreg Hnot)
    as (a & e & -> & Ha & He & _);
    [rewrite (registry_size _ _ _ Hreg); lia|].
  simpl. destruct mo; simpl in *; [subst so|by eexists].
  set (b := fresh (dom h)).
  assert (h !! b = None) as Hb by (apply not_elem_of_dom, is_fresh).
  assert (a ≠ b) as Hab by (intros ->; congruence).
  rewrite lookup_insert_ne by done. rewrite Ha. simpl.
  eexists. do 2 f_equal.
  apply map_eq. intros k. rewrite lookup_delete. case_decide; [by subst|].
  rewrite lookup_insert. case_decide; [subst k|by rewrite lookup_insert_ne].
  rewrite Ha. destruct e; simpl in *. by subst.
Qed.

(** [unlockSnapshot] on a registry. *)
Lemma unlockSnapshot_spec p l h t :
  registry_at p l h →
  ∃ h', unlockSnapshot h p t = Some h'
        ∧ registry_at p (unlocked t l) h'
        ∧ (t ∉ ids l → h' = h).
Proof.
  intros Hreg. apply unlock_walk_spec; [done|].
  rewrite (registry_size _ _ _ Hreg). lia.
Qed.

Lemma unlocked_absent t l : t ∉ ids l → unlocked t l = l.
Proof.
  induction l as [|[i s] l IH]; [done|]. simpl. intros Hnot.
  destruct (String.eqb i t) eqn:Heq.
  - apply String.eqb_eq in Heq as ->. exfalso. apply Hnot. left.
  - f_equal. apply IH. by rewrite <- (eqb_elem_of_ids t i s).
Qed.

Lemma ids_unlocked_sublist t l : ids (unlocked t l) `sublist_of` ids l.
Proof.
  induction l as [|[i s] l IH]; [done|]. simpl.
  destruct (String.eqb i t).
  - destruct l as [|[i' s'] l]; [apply sublist_nil_l|].
    by apply sublist_cons.
  - by apply sublist_skip.
Qed.

Lemma unlocked_unique t l : unique_ids l → unique_ids (unlocked t l).
Proof.
  intros Huniq. eapply sublist_NoDup; [exact Huniq|apply ids_unlocked_sublist].
Qed.

(** With one record per id, the id is free after [unlockSnapshot]. *)
Lemma unlocked_not_in t l : unique_ids l → t ∉ ids (unlocked t l).
Proof.
  unfold unique_ids. induction l as [|[i s] l IH]; simpl.
  - intros _. apply not_elem_of_nil.
  - intros [Hi Hl]%NoDup_cons. destruct (String.eqb i t) eqn:Heq.
    + apply String.eqb_eq in Heq as ->.
      destruct l as [|[i' s'] l]; [apply not_elem_of_nil|done].
    + rewrite (eqb_elem_of_ids t i s) by done. by apply IH.
Qed.

(** The other ids stay locked. *)
Lemma unlocked_other t t' l :
  t' ≠ t → t' ∈ ids (unlocked t l) ↔ t' ∈ ids l.
Proof.
  intros Hne. induction l as [|[i s] l IH]; [done|]. simpl.
  destruct (String.eqb i t) eqn:Heq.
  - apply String.eqb_eq in Heq as ->.
    assert (t' ∈ ids ((t, s) :: l) ↔ t' ∈ ids l) as ->.
    { unfold ids. simpl. rewrite elem_of_cons.
      split; [by intros [?|?]|by right]. }
    by destruct l as [|[i' s'] l].
  - unfold ids in *. simpl. rewrite !elem_of_cons. by rewrite IH.
Qed.

(** The registry [main] starts with. *)
Lemma initial_registry p : registry_at p [] (initial_heap p).
Proof. by eexists. Qed.

End RegistryCalls.

(** ** Mutual exclusion *)

(** C1.  On a registry with one record per id: [lockSnapshot] of an id that
    has a record returns [-EBUSY] and hands back the very same heap; and
    after [unlockSnapshot] of an id, [lockSnapshot] of that id is never
    answered [-EBUSY], and when [malloc] and [strdup] deliver it returns 0
    and the record of the id, in state [queued], is the new last record. *)
Theorem mutual_exclusion (p : addr) (l : list record) (h : heap) (t : string) :
  registry_at p l h → unique_ids l →
  (t ∈ ids l →
   ∀ mo so, lockSnapshot mo so h p t =
     Some {| lr_heap := h; lr_ret := - EBUSY;
             lr_error := tukit_error "The transaction is currently in use by another thread." |})
  ∧ ∃ h1, unlockSnapshot h p t = Some h1
      ∧ (∀ mo so, ∃ r, lockSnapshot mo so h1 p t = Some r
                       ∧ lr_ret r ≠ - EBUSY)
      ∧ ∃ h2, lockSnapshot true true h1 p t =
                Some {| lr_heap := h2; lr_ret := 0; lr_error := None |}
              ∧ registry_at p (unlocked t l ++ [(t, queued)]) h2.
Proof.
  intros Hreg Huniq. split.
  - intros Hin mo so. by apply (lockSnapshot_busy p l).
  - destruct (unlockSnapshot_spec p l h t Hreg) as (h1 & Hunlock & Hreg1 & _).
    pose proof (unlocked_not_in t l Huniq) as Hfree.
    exists h1. split_and!; [done| |by apply lockSnapshot_free].
    intros mo so. destruct (mo && so) eqn:Hmem.
    + apply andb_true_iff in Hmem as [-> ->].
      destruct (lockSnapshot_free p _ h1 t Hreg1 Hfree) as (h2 & -> & _).
      by eexists.
    + destruct (lockSnapshot_nomem p _ h1 t mo so Hreg1 Hfree Hmem) as (err & ->).
      by eexists.
Qed.

Lemma mutual_exclusion_witness :
  (∀ mo so, lockSnapshot mo so one_locked 1 "snap1" =
     Some {| lr_heap := one_locked; lr_ret := - EBUSY;
             lr_error := tukit_error "The transaction is currently in use by another thread." |})
  ∧ ∃ h1 h2, unlockSnapshot one_locked 1 "snap1" = Some h1
      ∧ lockSnapshot true true h1 1 "snap1" =
          Some {| lr_heap := h2; lr_ret := 0; lr_error := None |}
      ∧ registry_at 1 [("snap1"%string, queued)] h2.
Proof.
  assert (registry_at 1 [("snap1"%string, running)] one_locked) as Hreg.
  { exists 2%positive, {[ 2%positive := {| id := None; next := None; state := None |} ]}.
    split_and!; [done|done|]. by eexists. }
  assert (unique_ids [("snap1"%string, running)]) as Huniq.
  { apply NoDup_singleton. }
  destruct (mutual_exclusion 1 _ one_locked "snap1" Hreg Huniq)
    as (Hbusy & h1 & Hunlock & _ & h2 & Hlock & Hreg2).
  split.
  - apply Hbusy. left.
  - by exists h1, h2.
Defined.

(** ** One record per id *)

(** Every heap the two functions can make of the initial heap is a
    registry with one record per id. *)
Lemma reachable_registry_inv p h : reachable p h → registry_inv p h.
Proof.
  induction 1 as [|h mo so t r _ (l & Hreg & Huniq) Hlock
                  |h t h' _ (l & Hreg & Huniq) Hunlock].
  - exists []. split; [apply initial_registry|apply NoDup_nil_2].
  - destruct (decide (t ∈ ids l)) as [Hin|Hnot].
    + rewrite (lockSnapshot_busy p l) in Hlock by done.
      injection Hlock as <-. by exists l.
    + destruct (mo && so) eqn:Hmem.
      * apply andb_true_iff in Hmem as [-> ->].
        destruct (lockSnapshot_free p l h t Hreg Hnot) as (h2 & Hfree & Hreg2).
        rewrite Hfree in Hlock. injection Hlock as <-. simpl.
        exists (l ++ [(t, queued)]). split; [done|].
        unfold unique_ids. rewrite ids_app. apply NoDup_app.
        split_and!; [done| |apply NoDup_singleton].
        intros x Hx ->%list_elem_of_singleton. done.
      * destruct (lockSnapshot_nomem p l h t mo so Hreg Hnot Hmem) as (err & Hno).
        rewrite Hno in Hlock. injection Hlock as <-. by exists l.
  - destruct (unlockSnapshot_spec p l h t Hreg) as (h2 & Hun & Hreg2 & _).
    rewrite Hun in Hunlock. injection Hunlock as <-.
    exists (unlocked t l). split; [done|by apply unlocked_unique].
Qed.


(** C3.  [lockSnapshot] and [unlockSnapshot] return on every registry that
    has one record per id, and the heap they leave is again a registry with
    one record per id; a [lockSnapshot] that returns 0 was called with an id
    that had no record. *)
Theorem registry_uniqueness_preserved (p : addr) (h : heap) (t : string)
    (mo so : bool) :
  registry_inv p h →
  (∃ r, lockSnapshot mo so h p t = Some r
        ∧ registry_inv p (lr_heap r)
        ∧ (lr_ret r = 0 → ∀ l, registry_at p l h → t ∉ ids l))
  ∧ (∃ h', unlockSnapshot h p t = Some h' ∧ registry_inv p h').
Proof.
  intros (l & Hreg & Huniq). split.
  - destruct (decide (t ∈ ids l)) as [Hin|Hnot].
    + rewrite (lockSnapshot_busy p l) by done.
      eexists. split_and!; [done|by exists l|done].
    + destruct (mo && so) eqn:Hmem.
      * apply andb_true_iff in Hmem as [-> ->].
        destruct (lockSnapshot_free p l h t Hreg Hnot) as (h2 & -> & Hreg2).
        eexists. split_and!; [done| |].
        -- exists (l ++ [(t, queued)]). split; [done|].
           unfold unique_ids. rewrite ids_app. apply NoDup_app.
           split_and!; [done| |apply NoDup_singleton].
           intros x Hx ->%list_elem_of_singleton. done.
        -- intros _ l' Hreg'. simpl.
           destruct (decide (t ∈ ids l')) as [Hin'|]; [|done].
           pose proof (lockSnapshot_busy p l' h t true true Hreg' Hin') as Hb.
           destruct (lockSnapshot_free p l h t Hreg Hnot) as (h3 & Hf & _).
           rewrite Hf in Hb. discriminate.
      * destruct (lockSnapshot_nomem p l h t mo so Hreg Hnot Hmem) as (err & ->).
        eexists. split_and!; [done|by exists l|done].
  - destruct (unlockSnapshot_spec p l h t Hreg) as (h' & -> & Hreg' & _).
    exists h'. split; [done|]. exists (unlocked t l).
    split; [done|by apply unlocked_unique].
Qed.

Lemma registry_uniqueness_preserved_witness :
  (∃ r, lockSnapshot true true one_locked 1 "snap2" = Some r
        ∧ registry_inv 1 (lr_heap r))
  ∧ (∃ h', unlockSnapshot one_locked 1 "snap1" = Some h' ∧ registry_inv 1 h').
Proof.
  assert (registry_inv 1 one_locked) as Hinv.
  { exists [("snap1"%string, running)]. split; [|apply NoDup_singleton].
    exists 2%positive, {[ 2%positive := {| id := None; next := None; state := None |} ]}.
    split_and!; [done|done|]. by eexists. }
  split.
  - destruct (registry_uniqueness_preserved 1 one_locked "snap2" true true Hinv)
      as ((r & Hlock & Hinv' & _) & _).
    by exists r.
  - destruct (registry_uniqueness_preserved 1 one_locked "snap1" true true Hinv)
      as (_ & Hunlock).
    exact Hunlock.
Defined.

(** ** Unlocking an id that is not locked *)

(** C4.  On every registry, [unlockSnapshot] of an id without a record
    returns, and the heap it leaves is the heap it was given. *)
Theorem unlock_absent_noop (p : addr) (l : list record) (h : heap) (t : string) :
  registry_at p l h → t ∉ ids l → unlockSnapshot h p t = Some h.
Proof.
  intros Hreg Hnot.
  destruct (unlockSnapshot_spec p l h t Hreg) as (h' & -> & _ & Hsame).
  by rewrite Hsame.
Qed.

Lemma unlock_absent_noop_witness :
  unlockSnapshot one_locked 1 "snap2" = Some one_locked
  ∧ unlockSnapshot (initial_heap 1) 1 "snap1" = Some (initial_heap 1).
Proof.
  split.
  - apply (unlock_absent_noop 1 [("snap1"%string, running)]).
    + exists 2%positive, {[ 2%positive := {| id := None; next := None; state := None |} ]}.
      split_and!; [done|done|]. by eexists.
    + intros Hin. apply list_elem_of_singleton in Hin. discriminate.
  - apply (unlock_absent_noop 1 []); [by eexists|apply not_elem_of_nil].
Defined.

(** ** Signals and the callback *)

Lemma rule_matches_main s :
  rule_matches main_match_rule s = String.eqb "/org/opensuse/tukit" (sig_path s).
Proof. unfold rule_matches. simpl. by rewrite !andb_true_r. Qed.

(** A signal on the path of the daemon with a string in front unlocks that
    string, whatever interface and member it has. *)
Lemma deliver_signal_unlocks h p s t :
  sig_path s = "/org/opensuse/tukit"%string →
  sd_bus_message_read_s (sig_body s) = Some t →
  deliver_signal h p s = unlockSnapshot h p t.
Proof.
  intros Hpath Hread. unfold deliver_signal, signalCallback.
  rewrite rule_matches_main, Hpath, String.eqb_refl, Hread.
  by destruct (unlockSnapshot h p t).
Qed.

Lemma released_deliver h p s t :
  released s = Some t → deliver_signal h p s = unlockSnapshot h p t.
Proof.
  unfold released. rewrite rule_matches_main.
  destruct (String.eqb _ _) eqn:Heq; [|done].
  apply String.eqb_eq in Heq. intros Hread.
  by apply deliver_signal_unlocks.
Qed.

(** No call of the listed ones is a given call. *)
Ltac not_in_calls :=
  let Hin := fresh "Hin" in
  intros Hin; simpl in Hin;
  repeat (apply elem_of_cons in Hin as [?|Hin]; [done|]);
  by apply elem_of_nil in Hin.

Ltac open_done :=
  let H := fresh "H" in
  intros H; simplify_eq; simpl; split; [done|intros ??; not_in_calls].

(** [transaction_open] hands the heap back as it got it and never calls
    [lockSnapshot]. *)
Lemma transaction_open_heap w h p m r :
  transaction_open w h p m = Some r →
  hd_heap r = h ∧ ∀ t ret, c_lockSnapshot t ret ∉ hd_calls r.
Proof.
  unfold transaction_open. cbv zeta.
  destruct (sd_bus_message_read_s m) as [base|]; [|open_done].
  destruct (tukit_new_tx w); simpl; [|open_done].
  destruct (tukit_tx_init w base =? 0) eqn:Hinit; simpl; rewrite ?Hinit; simpl;
    [|open_done].
  destruct (tukit_tx_get_snapshot w) as [snapid|]; simpl; rewrite ?Hinit; simpl;
    [|open_done].
  destruct (tukit_tx_keep w =? 0) eqn:Hkeep; simpl; rewrite ?Hkeep; simpl;
    [|open_done].
  destruct (sd_bus_emit_signal w (TransactionOpened snapid) <? 0); open_done.
Qed.

(** [transaction_open] does not call [unlockSnapshot] either. *)
Lemma transaction_open_unlocks w h p m r :
  transaction_open w h p m = Some r → unlocks (hd_calls r) = [].
Proof.
  unfold transaction_open. cbv zeta.
  destruct (sd_bus_message_read_s m) as [base|]; [|by intros [= <-]].
  destruct (tukit_new_tx w); simpl; [|by intros [= <-]].
  destruct (tukit_tx_init w base =? 0) eqn:Hinit; simpl; rewrite ?Hinit; simpl;
    [|by intros [= <-]].
  destruct (tukit_tx_get_snapshot w) as [snapid|]; simpl; rewrite ?Hinit; simpl;
    [|by intros [= <-]].
  destruct (tukit_tx_keep w =? 0) eqn:Hkeep; simpl; rewrite ?Hkeep; simpl;
    [|by intros [= <-]].
  by destruct (sd_bus_emit_signal w (TransactionOpened snapid) <? 0);
    intros [= <-].
Qed.

(** One record goes when a locked id is unlocked. *)
Lemma unlocked_length t l :
  t ∈ ids l → S (length (unlocked t l)) = length l.
Proof.
  induction l as [|[i s] l IH]; simpl.
  - intros Hin. by apply elem_of_nil in Hin.
  - intros Hin. destruct (String.eqb i t) eqn:Heq.
    + by destruct l as [|[i' s'] l].
    + apply String.eqb_neq in Heq.
      apply elem_of_cons in Hin as [Hin|Hin]; [done|].
      simpl. by rewrite IH.
Qed.

(** ** The signal of [Open] *)

(** C10, as the claim has it, fails: the id of the new snapshot can be
    locked when the signal of [Open] arrives, because [Call] locks the
    string it is given before the engine is asked whether such a snapshot
    exists.  [Call("7", "echo hi")] on the empty registry locks ["7"] and
    starts a worker.  [Open] then creates the snapshot ["7"], emits
    [TransactionOpened("7")] and replies; the arrival of that signal
    removes the record of ["7"], and a second [Call] for ["7"] is
    accepted and starts a second worker. *)
Lemma opened_signal_releases_a_held_id :
  ∃ r0 r h' r2,
    transaction_call calm_world (initial_heap 1) 1
      [arg_s "7"; arg_s "echo hi"] = Some r0
    ∧ hd_heap r0 = seven_locked
    ∧ hd_worker r0 = Some seven_task
    ∧ registry_at 1 [("7"%string, running)] seven_locked
    ∧ transaction_open calm_world seven_locked 1 [arg_s "base"] = Some r
    ∧ hd_heap r = seven_locked
    ∧ emitted (hd_calls r) = [TransactionOpened "7"]
    ∧ c_sd_bus_reply_method_return [arg_s "7"] ∈ hd_calls r
    ∧ deliver_signal (hd_heap r) 1 (TransactionOpened "7") = Some h'
    ∧ h' ≠ hd_heap r
    ∧ registry_at 1 [] h'
    ∧ transaction_call calm_world h' 1 [arg_s "7"; arg_s "echo hi"] = Some r2
    ∧ hd_ret r2 = 1
    ∧ hd_worker r2 = Some seven_task.
Proof.
  eexists _, _, _, _.
  split; [vm_compute; reflexivity|]. split; [reflexivity|].
  split; [reflexivity|]. split.
  { exists 2%positive,
      {[ 2%positive := {| id := None; next := None; state := None |} ]}.
    split_and!; [done|done|]. by eexists. }
  split; [vm_compute; reflexivity|]. split; [reflexivity|].
  split; [reflexivity|]. split; [cbn; do 7 right; left|].
  split; [vm_compute; reflexivity|]. split.
  { intros Heq. apply (f_equal (λ h : heap, h !! 2%positive)) in Heq.
    vm_compute in Heq. discriminate. }
  split; [by eexists|].
  split; [vm_compute; reflexivity|]. split; reflexivity.
Qed.

(** C10, amended.  Every signal on the object path [/org/opensuse/tukit],
    of any interface and member, makes the callback call [unlockSnapshot]
    with the string in front of its body; [TransactionOpened],
    [CommandExecuted] and [Error] are such signals.  [transaction_open]
    leaves the heap as it is.  The arrival of its [TransactionOpened]
    signal returns and leaves the heap as it is when the id of the new
    snapshot has no record in the registry at that moment; when it has
    one, the first record of that id is removed and the others stay. *)
Theorem opened_signal_releases_only_a_held_id (w : world) (p : addr)
    (l : list record) (h : heap) (m : list arg) (r : handled)
    (snapid : string) :
  registry_at p l h →
  transaction_open w h p m = Some r →
  TransactionOpened snapid ∈ emitted (hd_calls r) →
  (∀ (s : signal) (t : string) (h0 : heap),
      sig_path s = "/org/opensuse/tukit"%string →
      sd_bus_message_read_s (sig_body s) = Some t →
      deliver_signal h0 p s = unlockSnapshot h0 p t)
  ∧ released (TransactionOpened snapid) = Some snapid
  ∧ (∀ t c o, released (CommandExecuted t c o) = Some t)
  ∧ (∀ t msg c, released (Error t msg c) = Some t)
  ∧ hd_heap r = h
  ∧ (∀ t ret, c_lockSnapshot t ret ∉ hd_calls r)
  ∧ unlocks (hd_calls r) = []
  ∧ ∃ h', deliver_signal (hd_heap r) p (TransactionOpened snapid) = Some h'
          ∧ registry_at p (unlocked snapid l) h'
          ∧ (snapid ∉ ids l → h' = h)
          ∧ (snapid ∈ ids l →
             S (length (unlocked snapid l)) = length l
             ∧ S (size h') = size h
             ∧ (unique_ids l → snapid ∉ ids (unlocked snapid l))
             ∧ ∀ t, t ≠ snapid → t ∈ ids l → t ∈ ids (unlocked snapid l)).
Proof.
  intros Hreg Hopen Hsig.
  destruct (transaction_open_heap w h p m r Hopen) as [Hheap Hlock].
  rewrite Hheap.
  split_and!; [|done..| |].
  - intros s t h0. apply deliver_signal_unlocks.
  - apply transaction_open_unlocks in Hopen. done.
  - rewrite (deliver_signal_unlocks _ _ _ snapid) by done.
    destruct (unlockSnapshot_spec p l h snapid Hreg) as (h' & -> & Hreg' & Hsame).
    exists h'. split_and!; [done|done|done|].
    intros Hin. pose proof (unlocked_length snapid l Hin) as Hlen.
    split_and!; [done| |by apply unlocked_not_in|].
    + rewrite (registry_size _ _ _ Hreg), (registry_size _ _ _ Hreg'). lia.
    + intros t Hne Ht. by apply unlocked_other.
Qed.

Lemma opened_signal_releases_only_a_held_id_witness :
  ∃ r, transaction_open calm_world one_locked 1 [arg_s "base"] = Some r
       ∧ TransactionOpened "7" ∈ emitted (hd_calls r)
       ∧ deliver_signal (hd_heap r) 1 (TransactionOpened "7") = Some one_locked.
Proof.
  assert (registry_at 1 [("snap1"%string, running)] one_locked) as Hreg.
  { exists 2%positive, {[ 2%positive := {| id := None; next := None; state := None |} ]}.
    split_and!; [done|done|]. by eexists. }
  eexists. split; [reflexivity|]. split; [left|].
  destruct (opened_signal_releases_only_a_held_id calm_world 1 _ one_locked
              [arg_s "base"] _ "7" Hreg eq_refl)
    as (_ & _ & _ & _ & _ & _ & _ & h' & Hdeliver & _ & Hsame & _).
  - left.
  - rewrite Hdeliver. f_equal. apply Hsame.
    intros Hin. apply list_elem_of_singleton in Hin. discriminate.
Defined.

(** ** The worker *)

(** Case analysis on the conditions that are left in the goal. *)
Ltac split_conditions :=
  repeat match goal with
  | |- context [if negb ?b then _ else _] =>
      let E := fresh "E" in destruct b eqn:E; simpl; rewrite ?E; simpl
  | |- context [if ?b then _ else _] =>
      let E := fresh "E" in destruct b eqn:E; simpl; rewrite ?E; simpl
  end.

(** Case analysis on the answers the worker gets, in the order it asks. *)
Ltac worker_cases w t :=
  unfold execution_func_body, send_error_signal, finish_execute, get_bus,
    emit_signal;
  cbv zeta;
  let argv := fresh "argv" in
  let wr := fresh "wr" in
  let Hnew := fresh "Hnew" in
  let Hresume := fresh "Hresume" in
  let Hwordexp := fresh "Hwordexp" in
  let Hwr := fresh "Hwr" in
  destruct (tukit_new_tx w) eqn:Hnew; simpl;
  [destruct (tukit_tx_resume w (task_transaction t) =? 0) eqn:Hresume; simpl;
   [destruct (wordexp w (task_command t)) as [wr argv] eqn:Hwordexp; simpl;
    destruct (wr =? 0) eqn:Hwr; simpl;
    [destruct (tukit_tx_execute w argv) as [? ?] eqn:?;
     destruct (tukit_tx_call_ext w argv) as [? ?] eqn:?;
     destruct (task_chrooted t =? 0) eqn:?; simpl|]|]|];
  split_conditions.

(** Whatever the worker has emitted unlocks the transaction of its task. *)
Lemma worker_emitted_releases w t s :
  s ∈ emitted (execution_func_body w t).1 →
  released s = Some (task_transaction t).
Proof.
  worker_cases w t; intros Hin;
    repeat (apply elem_of_cons in Hin as [->|Hin]; [done|]);
    by apply elem_of_nil in Hin.
Qed.

(** The worker emits at most one signal. *)
Lemma worker_emitted_at_most_once w t :
  (length (emitted (execution_func_body w t).1) ≤ 1)%nat.
Proof. worker_cases w t; lia. Qed.

(** On a bus that takes what it is given the worker emits one signal. *)
Lemma worker_emitted_once w t :
  bus_accepts w → length (emitted (execution_func_body w t).1) = 1%nat.
Proof.
  intros [Hopen Hemit]. worker_cases w t; try done;
    repeat match goal with
    | E : (sd_bus_default_system w ?s <? 0) = true |- _ =>
        apply Z.ltb_lt in E; specialize (Hopen s); lia
    | E : (sd_bus_emit_signal w ?s <? 0) = true |- _ =>
        apply Z.ltb_lt in E; specialize (Hemit s); lia
    end.
Qed.

(** ** The handlers that lock *)

Lemma unlocked_snoc t s l : t ∉ ids l → unlocked t (l ++ [(t, s)]) = l.
Proof.
  induction l as [|[i s'] l IH]; simpl.
  - intros _. by rewrite String.eqb_refl.
  - intros Hnot. destruct (String.eqb i t) eqn:Heq.
    + apply String.eqb_eq in Heq as ->. exfalso. apply Hnot. left.
    + f_equal. apply IH. by rewrite <- (eqb_elem_of_ids t i s').
Qed.

(** The three ways [lockSnapshot] ends on a registry. *)
Lemma lockSnapshot_cases p l h t mo so :
  registry_at p l h →
  ∃ r, lockSnapshot mo so h p t = Some r
       ∧ ((lr_ret r = - EBUSY ∧ lr_heap r = h ∧ t ∈ ids l)
          ∨ (lr_ret r = - ENOMEM ∧ lr_heap r = h ∧ (t ∉ ids l) ∧ (mo && so) = false)
          ∨ (lr_ret r = 0 ∧ lr_error r = None ∧ (t ∉ ids l) ∧ (mo && so) = true
             ∧ registry_at p (l ++ [(t, queued)]) (lr_heap r))).
Proof.
  intros Hreg. destruct (decide (t ∈ ids l)) as [Hin|Hnot].
  - rewrite (lockSnapshot_busy p l) by done. eexists. split; [done|]. by left.
  - destruct (mo && so) eqn:Hmem.
    + apply andb_true_iff in Hmem as [-> ->].
      destruct (lockSnapshot_free p l h t Hreg Hnot) as (h2 & -> & Hreg2).
      eexists. split; [done|]. right. right. by split_and!.
    + destruct (lockSnapshot_nomem p l h t mo so Hreg Hnot Hmem) as (err & ->).
      eexists. split; [done|]. right. left. by split_and!.
Qed.

(** [finish_close:] after a lock that was taken: one [unlockSnapshot], and
    the registry has its old records. *)
Lemma finish_unlock_spec p l h t ret err tr :
  registry_at p (l ++ [(t, queued)]) h → t ∉ ids l →
  ∃ h', finish_unlock h p t ret err tr =
          Some {| hd_heap := h'; hd_ret := ret; hd_error := err;
                  hd_calls := tr ++ [c_tukit_free_tx; c_unlockSnapshot t];
                  hd_worker := None |}
        ∧ registry_at p l h'.
Proof.
  intros Hreg Hnot. unfold finish_unlock.
  destruct (unlockSnapshot_spec p _ h t Hreg) as (h' & -> & Hreg' & _).
  rewrite unlocked_snoc in Hreg' by done. by exists h'.
Qed.

Lemma unlocks_app tr tr' : unlocks (tr ++ tr') = unlocks tr ++ unlocks tr'.
Proof.
  induction tr as [|c tr IH]; [done|]. destruct c; simpl; by rewrite ?IH.
Qed.

(** [transaction_close] returns on every registry; the records are the same
    afterwards; and it calls [unlockSnapshot] once, with the id it was given,
    exactly when its [lockSnapshot] returned 0. *)
Lemma transaction_close_spec w p l h m t :
  registry_at p l h → sd_bus_message_read_s m = Some t →
  ∃ r, transaction_close w h p m = Some r
       ∧ registry_at p l (hd_heap r)
       ∧ ((c_lockSnapshot t 0 ∈ hd_calls r ∧ unlocks (hd_calls r) = [t])
          ∨ ((c_lockSnapshot t 0 ∉ hd_calls r) ∧ unlocks (hd_calls r) = []
             ∧ hd_ret r ≠ 0)).
Proof.
  intros Hreg Hread. unfold transaction_close. rewrite Hread.
  destruct (lockSnapshot_cases p l h t (malloc_ok w) (strdup_ok w) Hreg)
    as ([h1 ret err] & -> & [(Hret & Hh & _)|[(Hret & Hh & _)|(Hret & _ & Hnot & _ & Hreg1)]]);
    simpl in *; subst.
  - eexists. split; [done|]. split; [done|]. right.
    split_and!; [not_in_calls|done|done].
  - eexists. split; [done|]. split; [done|]. right.
    split_and!; [not_in_calls|done|done].
  - simpl.
    repeat match goal with
    | |- context [if negb ?b then _ else _] => destruct b; simpl
    end;
    match goal with
    | |- context [finish_unlock h1 p t ?ret ?err ?tr] =>
        destruct (finish_unlock_spec p l h1 t ret err tr Hreg1 Hnot)
          as (h' & -> & Hreg')
    end;
    (eexists; split; [done|]; split; [done|]; left; simpl;
     split; [by left|done]).
Qed.

(** The same for [transaction_abort]. *)
Lemma transaction_abort_spec w p l h m t :
  registry_at p l h → sd_bus_message_read_s m = Some t →
  ∃ r, transaction_abort w h p m = Some r
       ∧ registry_at p l (hd_heap r)
       ∧ ((c_lockSnapshot t 0 ∈ hd_calls r ∧ unlocks (hd_calls r) = [t])
          ∨ ((c_lockSnapshot t 0 ∉ hd_calls r) ∧ unlocks (hd_calls r) = []
             ∧ hd_ret r ≠ 0)).
Proof.
  intros Hreg Hread. unfold transaction_abort. rewrite Hread.
  destruct (lockSnapshot_cases p l h t (malloc_ok w) (strdup_ok w) Hreg)
    as ([h1 ret err] & -> & [(Hret & Hh & _)|[(Hret & Hh & _)|(Hret & _ & Hnot & _ & Hreg1)]]);
    simpl in *; subst.
  - eexists. split; [done|]. split; [done|]. right.
    split_and!; [not_in_calls|done|done].
  - eexists. split; [done|]. split; [done|]. right.
    split_and!; [not_in_calls|done|done].
  - simpl.
    repeat match goal with
    | |- context [if negb ?b then _ else _] => destruct b; simpl
    end;
    match goal with
    | |- context [finish_unlock h1 p t ?ret ?err ?tr] =>
        destruct (finish_unlock_spec p l h1 t ret err tr Hreg1 Hnot)
          as (h' & -> & Hreg')
    end;
    (eexists; split; [done|]; split; [done|]; left; simpl;
     split; [by left|done]).
Qed.

(** ** [execute] up to the start of the thread *)

Lemma last_entry_weaken fuel (h h' : heap) p a :
  h ⊆ h' → last_entry fuel h p = Some a → last_entry fuel h' p = Some a.
Proof.
  intros Hsub. revert p. induction fuel as [|fuel IH]; intros p; simpl; [done|].
  destruct (h !! p) as [e|] eqn:He; simpl; [|done].
  rewrite (lookup_weaken _ _ _ _ He Hsub). simpl.
  destruct (next e) as [q|]; simpl; [|done].
  destruct (h !! q) as [n|] eqn:Hn; simpl; [|done].
  rewrite (lookup_weaken _ _ _ _ Hn Hsub). simpl.
  destruct (id n); [apply IH|done].
Qed.

(** The walk of [execute] ends at the node of the last record; writing
    another state there changes the state of that record alone. *)
Lemma last_entry_spec fuel p (l : list record) (r : record) (h : heap) :
  registry_at p (l ++ [r]) h → (length l < fuel)%nat →
  ∃ a q, last_entry fuel h p = Some a
         ∧ h !! a = Some {| id := Some r.1; next := Some q; state := Some r.2 |}
         ∧ ∀ s, registry_at p (l ++ [(r.1, s)])
                  (<[a := {| id := Some r.1; next := Some q; state := Some s |}]> h).
Proof.
  revert fuel p h. induction l as [|[i s] l IH]; intros fuel p h Hreg Hfuel;
    (destruct fuel as [|fuel]; [simpl in Hfuel; lia|]).
  - destruct r as [t st]. destruct Hreg as (q & h' & Hp & -> & (e & -> & He)).
    apply lookup_singleton_None in Hp.
    exists p, q. simpl. rewrite lookup_insert_eq. simpl.
    rewrite lookup_insert_ne by done. rewrite lookup_singleton_eq. simpl.
    rewrite He. split_and!; [done..|].
    intros s. exists q, {[ q := e ]}. split_and!.
    + by apply lookup_singleton_None.
    + by rewrite insert_insert_eq.
    + by exists e.
  - destruct Hreg as (q & h' & Hp & -> & Hq).
    destruct (IH fuel q h' Hq) as (a & q' & Hwalk & Ha & Hset);
      [simpl in Hfuel; lia|].
    destruct (registry_head _ _ _ Hq) as (n & Hn & Hid).
    assert (p ≠ q) as Hpq by (intros ->; congruence).
    assert (p ≠ a) as Hpa by (intros ->; congruence).
    exists a, q'. simpl. rewrite lookup_insert_eq. simpl.
    rewrite lookup_insert_ne by done. rewrite Hn. simpl. rewrite Hid.
    rewrite ids_app. destruct (ids l) as [|i' il] eqn:Hids; simpl.
    + destruct l; [|done]. simpl in *.
      destruct r as [t st]. destruct Hq as (q0 & h0 & Hq0 & -> & (e & -> & He)).
      destruct fuel as [|fuel]; [lia|]. simpl in Hwalk.
      rewrite lookup_insert_eq in Hwalk. simpl in Hwalk.
      apply lookup_singleton_None in Hq0.
      rewrite lookup_insert_ne in Hwalk by done.
      rewrite lookup_singleton_eq in Hwalk. simpl in Hwalk. rewrite He in Hwalk.
      injection Hwalk as <-.
      split_and!.
      * apply (last_entry_weaken _ (<[q:={| id := Some t; next := Some q0; state := Some st |}]> {[q0 := e]}));
          [by apply insert_subseteq|].
        simpl. rewrite lookup_insert_eq. simpl.
        rewrite lookup_insert_ne by done. rewrite lookup_singleton_eq. simpl.
        by rewrite He.
      * by rewrite lookup_insert_ne.
      * intros s'. exists q. eexists. split_and!; [| |by apply (Hset s')].
        -- by rewrite lookup_insert_ne.
        -- heap_eq.
    + split_and!.
      * apply (last_entry_weaken _ h'); [by apply insert_subseteq|done].
      * by rewrite lookup_insert_ne.
      * intros s'. exists q. eexists. split_and!; [| |by apply (Hset s')].
        -- by rewrite lookup_insert_ne.
        -- heap_eq.
Qed.

(** When [execute] gets as far as [pthread_create], the id was free, its
    record is the new last record in state [queued], and [exec_args.state]
    points at the node of that record. *)
Lemma execute_prepare_ready w p l h m c h1 ea :
  registry_at p l h →
  execute_prepare w h p m c = Some (ready h1 ea) →
  ∃ q, sd_bus_message_read_ss m = Some (transaction ea, command ea)
       ∧ chrooted ea = c
       ∧ (transaction ea ∉ ids l)
       ∧ registry_at p (l ++ [(transaction ea, queued)]) h1
       ∧ h1 !! state_of ea =
           Some {| id := Some (transaction ea); next := Some q;
                   state := Some queued |}
       ∧ ∀ s, registry_at p (l ++ [(transaction ea, s)])
                (<[state_of ea := {| id := Some (transaction ea);
                                     next := Some q; state := Some s |}]> h1).
Proof.
  intros Hreg. unfold execute_prepare.
  destruct (sd_bus_message_read_ss m) as [[t cmd]|]; [|done].
  destruct (lockSnapshot_cases p l h t (malloc_ok w) (strdup_ok w) Hreg)
    as ([h2 ret err] & -> & [(Hret & _)|[(Hret & _)|(Hret & _ & Hnot & _ & Hreg1)]]);
    cbn -[last_entry] in *; subst; [done..|]. cbn -[last_entry].
  destruct (last_entry_spec (S (size h2)) p l (t, queued) h2 Hreg1)
    as (a & q & -> & Ha & Hset).
  { rewrite (registry_size _ _ _ Hreg1), length_app. simpl. lia. }
  simpl. intros [= <- <-]. simpl. exists q. by split_and!.
Qed.

(** [execute] on a request that can be read, for an id that is free, with
    memory and a thread to be had whose stack takes the two strings: it
    returns 0 once the record is [running], and has started the worker
    with copies of the request. *)
Lemma execute_started w p l h m t cmd c :
  registry_at p l h →
  sd_bus_message_read_ss m = Some (t, cmd) →
  t ∉ ids l → malloc_ok w = true → strdup_ok w = true →
  pthread_create w = 0 → strings_fit w t cmd = true →
  ∃ h', execute w h p m c =
          Some {| hd_heap := h'; hd_ret := 0; hd_error := None;
                  hd_calls := [c_lockSnapshot t 0; c_pthread_create;
                               c_pthread_detach];
                  hd_worker := Some {| task_transaction := t;
                                       task_command := cmd;
                                       task_chrooted := c |} |}
        ∧ registry_at p (l ++ [(t, running)]) h'.
Proof.
  intros Hreg Hread Hnot Hmo Hso Hthread Hfits. unfold execute.
  destruct (execute_prepare w h p m c) as [[r|h1 ea]|] eqn:Hprep.
  - exfalso. revert Hprep. unfold execute_prepare. rewrite Hread, Hmo, Hso.
    destruct (lockSnapshot_free p l h t Hreg Hnot) as (h2 & -> & Hreg2).
    cbn -[last_entry]. by destruct (last_entry _ _ _).
  - destruct (execute_prepare_ready w p l h m c h1 ea Hreg Hprep)
      as (q & Hread' & Hc & _ & Hreg1 & Ha & Hset).
    rewrite Hread in Hread'. injection Hread' as Ht Hcmd.
    simpl. rewrite Hthread. simpl.
    rewrite Ht, Hcmd in Hfits. apply andb_true_iff in Hfits as [Hfit1 Hfit2].
    unfold execution_func_start, set_running. rewrite Hfit1, Hfit2, Ha. simpl.
    rewrite lookup_insert_eq. simpl.
    eexists. split; [by rewrite <- Ht, <- Hcmd, <- Hc|].
    rewrite Ht. apply Hset.
  - exfalso. revert Hprep. unfold execute_prepare. rewrite Hread, Hmo, Hso.
    destruct (lockSnapshot_free p l h t Hreg Hnot) as (h2 & -> & Hreg2).
    cbn -[last_entry].
    destruct (last_entry_spec (S (size h2)) p l (t, queued) h2 Hreg2)
      as (a & q & -> & _); [|done].
    rewrite (registry_size _ _ _ Hreg2), length_app. simpl. lia.
Qed.

(** [execute] on a request that cannot be read, or for an id that is
    locked: an error comes back at once and no thread is started. *)
Lemma execute_unreadable w h p m c :
  sd_bus_message_read_ss m = None →
  execute w h p m c =
    Some {| hd_heap := h; hd_ret := -1;
            hd_error := tukit_error "Could not read D-Bus parameters.";
            hd_calls := []; hd_worker := None |}.
Proof. intros Hread. unfold execute, execute_prepare. by rewrite Hread. Qed.

Lemma execute_busy w p l h m t cmd c :
  registry_at p l h →
  sd_bus_message_read_ss m = Some (t, cmd) → t ∈ ids l →
  execute w h p m c =
    Some {| hd_heap := h; hd_ret := - EBUSY;
            hd_error := tukit_error "The transaction is currently in use by another thread.";
            hd_calls := [c_lockSnapshot t (- EBUSY)]; hd_worker := None |}.
Proof.
  intros Hreg Hread Hin. unfold execute, execute_prepare. rewrite Hread.
  by rewrite (lockSnapshot_busy p l).
Qed.

(** The thread that does not get its arrays on its stack: [execute] does
    not return. *)
Lemma execute_overflow w p l h m c h1 ea :
  registry_at p l h →
  execute_prepare w h p m c = Some (ready h1 ea) →
  pthread_create w = 0 → fits_stack w ea = false →
  execution_func_start w h1 ea = None ∧ execute w h p m c = None.
Proof.
  intros Hreg Hprep Hthread Hfits.
  assert (execution_func_start w h1 ea = None) as Hstart.
  { unfold execution_func_start. revert Hfits. unfold fits_stack, strings_fit.
    destruct (array_fits w 0 (transaction ea)); [|done]. simpl. by intros ->. }
  split; [done|]. unfold execute. rewrite Hprep. simpl.
  by rewrite Hthread, Hstart.
Qed.

Lemma one_locked_registry : registry_at 1 [("snap1"%string, running)] one_locked.
Proof.
  exists 2%positive, {[ 2%positive := {| id := None; next := None; state := None |} ]}.
  split_and!; [done|done|]. by eexists.
Qed.

(** ** No orphan locks *)

(** C2, as the claim has it, fails: with a bus that takes no signal the
    call [Call("snap1", "echo hi")] returns 0 and leaves the record of
    ["snap1"] in the registry, the worker runs to its end and no signal
    has gone out, so nothing ever calls [unlockSnapshot] for ["snap1"]. *)
Lemma orphan_lock_when_bus_refuses :
  ∃ r, transaction_call deaf_bus_world (initial_heap 1) 1
         [arg_s "snap1"; arg_s "echo hi"] = Some r
       ∧ hd_worker r = Some echo_task
       ∧ hd_heap r = one_locked
       ∧ emitted (execution_func_body deaf_bus_world echo_task).1 = []
       ∧ ¬ (∃ s, emitted (execution_func_body deaf_bus_world echo_task).1 = [s]).
Proof.
  eexists. split_and!; [vm_compute; reflexivity|reflexivity|reflexivity|reflexivity|].
  intros [s Hs]. vm_compute in Hs. discriminate.
Qed.

(** C2, amended.  The worker emits at most one signal, whatever the world
    answers, and each signal it emits makes the callback unlock the id of
    its task; on a bus that opens and takes the signals it emits exactly
    one.  [transaction_close] returns on every registry and leaves the
    records as they were; it calls [unlockSnapshot] exactly once, with its
    id, when its [lockSnapshot] returned 0, and not at all otherwise. *)
Theorem no_orphan_locks (w : world) (t : task) (p : addr) (l : list record)
    (h : heap) (m : list arg) (tn : string) :
  bus_accepts w →
  registry_at p l h →
  sd_bus_message_read_s m = Some tn →
  (∃ s, emitted (execution_func_body w t).1 = [s]
        ∧ released s = Some (task_transaction t))
  ∧ (∀ w', (length (emitted (execution_func_body w' t).1) ≤ 1)%nat
           ∧ ∀ s, s ∈ emitted (execution_func_body w' t).1 →
                  released s = Some (task_transaction t))
  ∧ ∃ r, transaction_close w h p m = Some r
         ∧ registry_at p l (hd_heap r)
         ∧ (c_lockSnapshot tn 0 ∈ hd_calls r → unlocks (hd_calls r) = [tn])
         ∧ (c_lockSnapshot tn 0 ∉ hd_calls r → unlocks (hd_calls r) = []).
Proof.
  intros Hbus Hreg Hread. split_and!.
  - pose proof (worker_emitted_once w t Hbus) as Hlen.
    pose proof (worker_emitted_releases w t) as Hrel.
    destruct (emitted (execution_func_body w t).1) as [|s [|s' tr]]; [done| |done].
    exists s. split; [done|]. apply Hrel. left.
  - intros w'. split;
      [apply worker_emitted_at_most_once|apply worker_emitted_releases].
  - destruct (transaction_close_spec w p l h m tn Hreg Hread)
      as (r & Hclose & Hreg' & Hcalls).
    exists r. split_and!; [done|done| |];
      destruct Hcalls as [[Hin Hun]|(Hnot & Hun & _)]; done.
Qed.

Lemma no_orphan_locks_witness :
  (∃ s, emitted (execution_func_body calm_world echo_task).1 = [s]
        ∧ released s = Some "snap1"%string)
  ∧ ∃ r, transaction_close calm_world (initial_heap 1) 1 [arg_s "snap1"] = Some r
         ∧ registry_at 1 [] (hd_heap r).
Proof.
  assert (bus_accepts calm_world) as Hbus by (split; intros ?; simpl; lia).
  assert (registry_at 1 [] (initial_heap 1)) as Hreg0 by (by eexists).
  destruct (no_orphan_locks calm_world echo_task 1 [] (initial_heap 1)
              [arg_s "snap1"] "snap1" Hbus Hreg0 eq_refl)
    as (Hworker & _ & r & Hclose & Hreg & _).
  split; [exact Hworker|]. by exists r.
Defined.
(** ** The retain step *)

(** The answers of a bus that takes what it is given. *)
Ltac bus_answers Hopen Hemit :=
  repeat match goal with
  | E : (sd_bus_default_system _ ?s <? 0) = true |- _ =>
      apply Z.ltb_lt in E; specialize (Hopen s); lia
  | E : (sd_bus_emit_signal _ ?s <? 0) = true |- _ =>
      apply Z.ltb_lt in E; specialize (Hemit s); lia
  end.

(** C5.  When the transaction is resumed and the command is expanded, the
    worker runs the command ([tukit_tx_execute] when [chrooted], otherwise
    [tukit_tx_call_ext]) and then calls [tukit_tx_keep], whatever the
    command returned.  When [tukit_tx_keep] returns 0 the first signal the
    worker tries to emit is [CommandExecuted] with the return code and the
    output of the command, and an [Error] follows only when that emission
    itself failed.  When [tukit_tx_keep] fails the output is freed and the
    only signal the worker tries to emit is [Error] with the message of the
    engine and code -1.  On a bus that opens and takes the signals, what
    goes out is exactly that: the one [CommandExecuted] with the return
    code of the command, zero or not, when [tukit_tx_keep] returned 0, and
    the one [Error] and no [CommandExecuted] when it failed. *)
Theorem keep_always_attempted (w : world) (t : task) (argv : list string) :
  tukit_new_tx w = true →
  tukit_tx_resume w (task_transaction t) = 0 →
  wordexp w (task_command t) = (0, argv) →
  let tr := (execution_func_body w t).1 in
  let chrooted := negb (task_chrooted t =? 0) in
  let ran := if chrooted then tukit_tx_execute w argv
             else tukit_tx_call_ext w argv in
  let sent := emit_signal w (get_bus w in_execution_func).1
                (CommandExecuted (task_transaction t) ran.1 ran.2) in
  (∃ rest,
      tr = [c_stdout "Executing command"; c_tukit_new_tx;
            c_tukit_tx_resume (task_transaction t);
            c_wordexp (task_command t);
            if chrooted then c_tukit_tx_execute argv
            else c_tukit_tx_call_ext argv;
            c_wordfree; c_tukit_tx_keep] ++ rest)
  ∧ (tukit_tx_keep w = 0 →
     attempts tr =
       CommandExecuted (task_transaction t) ran.1 ran.2
       :: (if sent <? 0
           then [Error (task_transaction t)
                   "Cannot send signal 'CommandExecuted'." sent]
           else []))
  ∧ (tukit_tx_keep w ≠ 0 →
     attempts tr = [Error (task_transaction t) (tukit_get_errmsg w) (-1)]
     ∧ c_free_output ∈ tr)
  ∧ (bus_accepts w →
     (tukit_tx_keep w = 0 →
      emitted tr = [CommandExecuted (task_transaction t) ran.1 ran.2])
     ∧ (tukit_tx_keep w ≠ 0 →
        emitted tr = [Error (task_transaction t) (tukit_get_errmsg w) (-1)])).
Proof.
  intros Hnew Hresume Hwordexp. cbv zeta.
  unfold execution_func_body, send_error_signal, finish_execute, get_bus,
    emit_signal.
  rewrite Hnew, Hresume, Hwordexp. simpl.
  destruct (tukit_tx_execute w argv) as [er out] eqn:Hex.
  destruct (tukit_tx_call_ext w argv) as [er' out'] eqn:Hext.
  destruct (task_chrooted t =? 0) eqn:Hch; simpl;
    (destruct (tukit_tx_keep w =? 0) eqn:Hkeep; simpl;
     [apply Z.eqb_eq in Hkeep|apply Z.eqb_neq in Hkeep]);
    split_conditions.
  all: split; [by eexists|].
  all: split; [intros ?; try done; try lia|].
  all: split; [intros ?; first [lia|split; [done|]; set_solver]|].
  all: intros [Hopen Hemit]; bus_answers Hopen Hemit.
  all: split; intros ?; try done; lia.
Qed.

Lemma keep_always_attempted_witness :
  emitted (execution_func_body keep_fails_world echo_task).1
    = [Error "snap1" "keep failed" (-1)]
  ∧ c_tukit_tx_keep ∈ (execution_func_body keep_fails_world echo_task).1
  ∧ emitted (execution_func_body failing_command_world echo_task).1
    = [CommandExecuted "snap1" 3 "out"]
  ∧ c_tukit_tx_keep ∈ (execution_func_body failing_command_world echo_task).1.
Proof.
  destruct (keep_always_attempted keep_fails_world echo_task ["echo hi"%string]
              eq_refl eq_refl eq_refl) as ((rest & Hrest) & _ & _ & Hfail).
  destruct (keep_always_attempted failing_command_world echo_task
              ["echo hi"%string] eq_refl eq_refl eq_refl)
    as ((rest' & Hrest') & _ & _ & Hkept).
  split_and!.
  - apply Hfail; [split; intros ?; simpl; lia|simpl; lia].
  - rewrite Hrest. simpl. do 6 right. left.
  - apply Hkept; [split; intros ?; simpl; lia|reflexivity].
  - rewrite Hrest'. simpl. do 6 right. left.
Defined.

(** ** Requests that cannot be read, commands that cannot be expanded *)

(** An [execute] that returns with a worker started has read the request,
    found the id free, and returns 0 without an error; the worker holds
    the id, the command and the mode of the request. *)
Lemma execute_worker_inv w p l h m c r tk :
  registry_at p l h →
  execute w h p m c = Some r → hd_worker r = Some tk →
  sd_bus_message_read_ss m = Some (task_transaction tk, task_command tk)
  ∧ task_chrooted tk = c
  ∧ hd_ret r = 0 ∧ hd_error r = None
  ∧ (task_transaction tk ∉ ids l)
  ∧ registry_at p (l ++ [(task_transaction tk, running)]) (hd_heap r).
Proof.
  intros Hreg. unfold execute.
  destruct (execute_prepare w h p m c) as [[r0|h1 ea]|] eqn:Hprep; simpl; [| |done].
  - intros [= <-]. revert Hprep. unfold execute_prepare.
    destruct (sd_bus_message_read_ss m) as [[t cmd]|]; [|by intros [= <-]].
    destruct (lockSnapshot _ _ _ _ _) as [lr|]; [|done]. cbn -[last_entry].
    destruct (negb (lr_ret lr =? 0)); [by intros [= <-]|].
    by destruct (last_entry _ _ _).
  - destruct (execute_prepare_ready w p l h m c h1 ea Hreg Hprep)
      as (q & Hread & Hc & Hnot & Hreg1 & Ha & Hset).
    destruct (pthread_create w =? 0) eqn:Hthread; simpl.
    + apply Z.eqb_eq in Hthread.
      unfold execution_func_start, set_running.
      destruct (array_fits w 0 (transaction ea)); [|done].
      destruct (array_fits w _ (command ea)); [|done].
      rewrite Ha. simpl.
      rewrite lookup_insert_eq. simpl.
      intros [= <-]. simpl. intros [= <-]. simpl.
      split_and!; done.
    + rewrite Ha. simpl. done.
Qed.

(** From [Call] to the release: when [Call] or [CallExt] has started a
    worker and the bus takes the signal of that worker, the arrival of the
    signal gives the registry its old records back. *)
Lemma call_then_signal_unlocks w w' p l h m r tk :
  registry_at p l h →
  transaction_call w h p m = Some r ∨ transaction_callext w h p m = Some r →
  hd_worker r = Some tk →
  bus_accepts w' →
  ∃ s h', emitted (execution_func_body w' tk).1 = [s]
          ∧ deliver_signal (hd_heap r) p s = Some h'
          ∧ registry_at p l h'.
Proof.
  intros Hreg Hcall Hworker Hbus.
  assert (∃ c r0, execute w h p m c = Some r0 ∧ r = reply_empty w r0)
    as (c & r0 & Hexec & ->).
  { destruct Hcall as [Hcall|Hcall];
      apply fmap_Some in Hcall as (r0 & Hexec & ->); by eexists _, _. }
  assert (hd_worker r0 = Some tk ∧ hd_heap (reply_empty w r0) = hd_heap r0)
    as [Hworker0 ->].
  { revert Hworker. unfold reply_empty. by destruct (negb _). }
  destruct (execute_worker_inv w p l h m c r0 tk Hreg Hexec Hworker0)
    as (_ & _ & _ & _ & Hnot & Hreg1).
  pose proof (worker_emitted_once w' tk Hbus) as Hlen.
  pose proof (worker_emitted_releases w' tk) as Hrel.
  destruct (emitted (execution_func_body w' tk).1) as [|s [|s' tr]]; [done| |done].
  destruct (unlockSnapshot_spec p _ (hd_heap r0) (task_transaction tk) Hreg1)
    as (h' & Hunlock & Hreg' & _).
  rewrite unlocked_snoc in Hreg' by done.
  exists s, h'. split_and!; [done| |done].
  rewrite (released_deliver _ _ _ (task_transaction tk)); [done|].
  apply Hrel. left.
Qed.

(** An [execute] that returns with a worker started had its thread, and
    the stack of the thread took the two strings. *)
Lemma execute_worker_prepared w p l h m c r tk :
  registry_at p l h →
  execute w h p m c = Some r → hd_worker r = Some tk →
  ∃ h1 ea, execute_prepare w h p m c = Some (ready h1 ea)
           ∧ pthread_create w = 0 ∧ fits_stack w ea = true
           ∧ execution_func_start w h1 ea = Some (hd_heap r, tk).
Proof.
  intros Hreg. unfold execute.
  destruct (execute_prepare w h p m c) as [[r0|h1 ea]|] eqn:Hprep; simpl; [| |done].
  - intros [= <-]. revert Hprep. unfold execute_prepare.
    destruct (sd_bus_message_read_ss m) as [[t cmd]|]; [|by intros [= <-]].
    destruct (lockSnapshot _ _ _ _ _) as [lr|]; [|done]. cbn -[last_entry].
    destruct (negb (lr_ret lr =? 0)); [by intros [= <-]|].
    by destruct (last_entry _ _ _).
  - destruct (execute_prepare_ready w p l h m c h1 ea Hreg Hprep)
      as (q & Hread & Hc & Hnot & Hreg1 & Ha & Hset).
    destruct (pthread_create w =? 0) eqn:Hthread; simpl.
    + apply Z.eqb_eq in Hthread.
      destruct (execution_func_start w h1 ea) as [[h2 t]|] eqn:Hstart; [|done].
      simpl. destruct (h2 !! state_of ea) as [e|]; [|done]. simpl.
      destruct (state e) as [[]|]; try done.
      intros [= <-]. simpl. intros [= <-].
      exists h1, ea. split_and!; [done|done| |done].
      revert Hstart. unfold execution_func_start, fits_stack, strings_fit.
      destruct (array_fits w 0 (transaction ea)); [|done].
      by destruct (array_fits w _ (command ea)).
    + rewrite Ha. simpl. done.
Qed.

(** ** Shutdown *)

(** With a record in the registry the handler does not leave the loop: it
    writes its line, sleeps one second and sends the signal it was called
    for to the process named by [ssi_pid]. *)
Lemma event_handler_waits w p (l : list record) (r : record) h si :
  registry_at p (r :: l) h →
  event_handler w h p si =
    Some ([c_stdout "Waiting for remaining transactions to finish...";
           c_sleep 1;
           c_kill (ssi_pid si) (ssi_signo si)], Some 0).
Proof.
  intros Hreg. unfold event_handler.
  destruct (registry_head _ _ _ Hreg) as (e & -> & He). simpl.
  destruct r. simpl in He. by rewrite He.
Qed.

(** With an empty registry the handler asks the loop to end with code 0;
    the answer does not depend on which signal came, nor from whom. *)
Lemma event_handler_terminates w p h si :
  registry_at p [] h → 0 ≤ sd_event_exit w →
  event_handler w h p si =
    Some ([c_stdout "Terminating."; c_sd_event_exit 0], Some 0).
Proof.
  intros Hreg Hexit. unfold event_handler.
  destruct (registry_head _ _ _ Hreg) as (e & -> & He). simpl in *.
  rewrite He. by destruct (Z.ltb_spec (sd_event_exit w) 0); [lia|].
Qed.

(** C6: the code does not do what the claim says.  The daemon, process
    4242, has ["snap1"] locked and receives [SIGTERM] from process 1.  The
    handler logs and sleeps one second, and then sends [SIGTERM] to process
    1, the sender: no signal goes to process 4242, so the request is not
    issued to the daemon again.  (With an empty registry the handler ends
    the loop with code 0, whatever the signal and its sender.) *)
Theorem event_handler_signals_the_sender :
  event_handler calm_world one_locked 1
    {| ssi_signo := SIGTERM; ssi_pid := 1 |} =
    Some ([c_stdout "Waiting for remaining transactions to finish...";
           c_sleep 1; c_kill 1 SIGTERM], Some 0)
  ∧ (signalled 4242 ∘ fst) <$>
      event_handler calm_world one_locked 1
        {| ssi_signo := SIGTERM; ssi_pid := 1 |} = Some false
  ∧ (signalled 1 ∘ fst) <$>
      event_handler calm_world one_locked 1
        {| ssi_signo := SIGTERM; ssi_pid := 1 |} = Some true
  ∧ (∀ signo pid,
       event_handler calm_world (initial_heap 1) 1
         {| ssi_signo := signo; ssi_pid := pid |} =
         Some ([c_stdout "Terminating."; c_sd_event_exit 0], Some 0)).
Proof. split_and!; reflexivity. Qed.

(** ** The exit status *)

(** A failure of a step whose return value [main] keeps in [ret] gives
    [EXIT_FAILURE]. *)
Lemma main_bus_failure s :
  st_malloc_ok s = true → st_sd_bus_open_system s < 0 →
  (main s).2 = EXIT_FAILURE.
Proof.
  intros Hm Hbus. unfold main. rewrite Hm. simpl.
  apply Z.ltb_lt in Hbus. rewrite Hbus. unfold finish. simpl. by rewrite Hbus.
Qed.

Lemma main_name_failure s :
  st_malloc_ok s = true → 0 ≤ st_sd_bus_open_system s →
  0 ≤ st_sd_bus_add_object_vtable s → st_sd_bus_request_name s < 0 →
  (main s).2 = EXIT_FAILURE.
Proof.
  intros Hm H1 H2 H3. unfold main. rewrite Hm. simpl.
  apply Z.ltb_ge in H1, H2. apply Z.ltb_lt in H3.
  rewrite H1, H2, H3. unfold finish. simpl. by rewrite H3.
Qed.

(** When the first [malloc] fails, [ret] still is 1, which is not
    negative: the status is [EXIT_SUCCESS]. *)
Lemma main_malloc_failure s :
  st_malloc_ok s = false →
  main s = (["malloc failed for TransactionEntry."%string], EXIT_SUCCESS).
Proof. intros Hm. unfold main. by rewrite Hm. Qed.

(** When building or blocking the signal set fails, [ret] still holds the
    value of [sd_event_default], which is not negative: the status is
    [EXIT_SUCCESS]. *)
Lemma main_sigprocmask_failure s :
  st_malloc_ok s = true → 0 ≤ st_sd_bus_open_system s →
  0 ≤ st_sd_bus_add_object_vtable s → 0 ≤ st_sd_bus_request_name s →
  0 ≤ st_sd_bus_match_signal s → 0 ≤ st_sd_event_default s →
  st_sigemptyset s < 0 ∨ st_sigaddset s SIGTERM < 0
  ∨ st_sigaddset s SIGINT < 0 ∨ st_sigprocmask s < 0 →
  (main s).2 = EXIT_SUCCESS.
Proof.
  intros Hm H1 H2 H3 H4 H5 Hsig. unfold main. rewrite Hm. simpl.
  apply Z.ltb_ge in H1, H2, H3, H4. rewrite H1, H2, H3, H4.
  destruct (Z.ltb_spec (st_sd_event_default s) 0); [lia|].
  unfold finish.
  destruct (Z.ltb_spec (st_sigemptyset s) 0),
    (Z.ltb_spec (st_sigaddset s SIGTERM) 0),
    (Z.ltb_spec (st_sigaddset s SIGINT) 0),
    (Z.ltb_spec (st_sigprocmask s) 0); simpl;
    try (destruct (Z.ltb_spec (st_sd_event_default s) 0); [lia|done]).
  lia.
Qed.

(** C7: the code does not do what the claim says.  When every step works
    and the loop ends with code 0 the status is 0; but when the first
    [malloc] returns [NULL], or when [sigprocmask] fails, [main] writes its
    complaint to [stderr] and the status is 0 as well. *)
Theorem main_exit_status_of_failures :
  main good_startup = ([], 0)
  ∧ main no_memory_startup = (["malloc failed for TransactionEntry."%string], 0)
  ∧ main no_sigprocmask_startup = (["Failed to block the signals"%string], 0).
Proof. split_and!; reflexivity. Qed.

(** ** The handshake *)

Section Handshake.

Variable w : world.
Variable exec_args : execution_args.

Lemma handshake_start_inv (h : heap) e :
  h !! state_of exec_args = Some e → state e ≠ Some running →
  handshake_inv w exec_args (handshake_start h).
Proof.
  intros He Hstate. split_and!; [done|done| |done]. simpl. split; [|by left].
  by exists e.
Qed.

Lemma step_caller_inv s :
  handshake_inv w exec_args s →
  handshake_inv w exec_args (step_caller w exec_args s).
Proof.
  intros (Hfault & Hlive & Hpc & Hprog).
  unfold step_caller, handshake_inv, worker_progress in *.
  destruct (hs_execute s) eqn:Hex.
  - (* pthread_create *)
    simpl. split_and!; [done|by intros _; apply Hlive|..].
    + destruct (hs_worker s) eqn:Hwk;
        try (by destruct Hpc as (_ & ? & _)); try (by destruct Hpc as (? & _)).
      destruct Hpc as [Hnot _].
      destruct (pthread_create w =? 0); simpl.
      * split_and!; [done|done|]. unfold copied. simpl. split_and!; lia.
      * split; [done|by right].
    + destruct (hs_worker s) eqn:Hwk;
        try (by destruct Hpc as (_ & ? & _)); try (by destruct Hpc as (? & _)).
      destruct (Z.eqb_spec (pthread_create w) 0); simpl; done.
  - (* the loop *)
    destruct (hs_heap s !! state_of exec_args ≫= state) as [[]|] eqn:Hread;
      try (rewrite Hex; by repeat (split; [done|])).
    assert (hs_worker s = in_body) as Hwk.
    { destruct (hs_worker s); try done;
        destruct Hpc as ((e & He & Hstate) & _);
        rewrite He in Hread; simpl in Hread; by apply Hstate in Hread. }
    rewrite Hwk in Hpc, Hprog. simpl. rewrite Hwk.
    split; [done|]. split; [by intros _; apply Hlive|].
    split; [|done]. split; [done|apply Hpc].
  - (* pthread_detach and return *)
    simpl. split_and!; [done|done| |done].
    destruct (hs_worker s); try (by destruct Hpc as (_ & ? & _)).
    + by destruct Hpc as (_ & [?|?]).
    + by split; [|apply Hpc].
  - rewrite Hex. by repeat (split; [done|]).
Qed.

(** The process that has been killed stays as it is. *)
Lemma fault_inv s :
  handshake_inv w exec_args s → fits_stack w exec_args = false →
  handshake_inv w exec_args (fault s).
Proof. intros (Hfault & Hlive & Hpc & Hprog) Hfits. by split_and!. Qed.

Lemma step_worker_inv s :
  handshake_inv w exec_args s →
  handshake_inv w exec_args (step_worker w exec_args s).
Proof.
  intros Hinv. pose proof Hinv as (Hfault & Hlive & Hpc & Hprog).
  unfold step_worker, read_args.
  unfold worker_progress in Hprog.
  destruct (hs_worker s) eqn:Hwk; try done.
  - (* the array of the id *)
    destruct Hpc as (Hnot & Hex & Hc). rewrite Hlive by (by rewrite Hex).
    destruct (array_fits w 0 (transaction exec_args)) eqn:Hfit;
      [|apply fault_inv; [done|]; unfold fits_stack, strings_fit;
        by rewrite Hfit].
    unfold handshake_inv, worker_progress. simpl.
    split_and!; try done; [|apply Hprog..].
    unfold copied in *. simpl. split_and!; try done; lia.
  - (* the array of the command *)
    destruct Hpc as (Hnot & Hex & Hc). rewrite Hlive by (by rewrite Hex).
    destruct Hprog as (Hthread & Hnone & Hfit1).
    destruct (array_fits w _ (command exec_args)) eqn:Hfit;
      [|apply fault_inv; [done|]; unfold fits_stack, strings_fit;
        by rewrite Hfit, andb_false_r].
    unfold handshake_inv, worker_progress. simpl.
    split_and!; try done.
    + unfold copied in *. simpl.
      split_and!; try done; try lia. intros _. apply Hc. lia.
    + unfold fits_stack, strings_fit. by rewrite Hfit1, Hfit.
  - destruct Hpc as (Hnot & Hex & Hc). rewrite Hlive by (by rewrite Hex).
    unfold handshake_inv, worker_progress. simpl.
    split_and!; try done; try apply Hprog.
    unfold copied in *. simpl.
    split_and!; try done; try lia; intros _; apply Hc; lia.
  - destruct Hpc as (Hnot & Hex & Hc). rewrite Hlive by (by rewrite Hex).
    unfold handshake_inv, worker_progress. simpl.
    split_and!; try done; try apply Hprog.
    unfold copied in *. simpl.
    split_and!; try done; try lia; intros _; apply Hc; lia.
  - destruct Hpc as ((e & He & Hstate) & Hex & Hc).
    assert (hs_state s = Some (state_of exec_args)) as -> by (apply Hc; lia).
    simpl. unfold set_running. rewrite He. simpl.
    unfold handshake_inv, worker_progress. simpl.
    split_and!; try done; try apply Hprog; [by rewrite Hex|].
    unfold copied in *. simpl. by destruct Hc as (? & ? & ? & ?).
Qed.

Lemma step_inv who s :
  handshake_inv w exec_args s →
  handshake_inv w exec_args (step w exec_args who s).
Proof.
  intros Hinv. unfold step. destruct (hs_fault s); [done|].
  destruct who; [by apply step_caller_inv|by apply step_worker_inv].
Qed.

Lemma run_inv schedule s :
  handshake_inv w exec_args s →
  handshake_inv w exec_args (run w exec_args schedule s).
Proof.
  revert s. induction schedule as [|who schedule IH]; intros s Hinv; [done|].
  simpl. apply IH. by apply step_inv.
Qed.

Lemma run_cons who schedule s :
  run w exec_args (who :: schedule) s =
  run w exec_args schedule (step w exec_args who s).
Proof. done. Qed.

(** Nothing moves once the process is killed. *)
Lemma run_killed schedule s :
  hs_fault s = true → run w exec_args schedule s = s.
Proof.
  intros Hfault. induction schedule as [|who schedule IH]; [done|].
  rewrite run_cons. unfold step. by rewrite Hfault.
Qed.

(** The heap during the handshake. *)
Lemma step_inv_heap h who s :
  handshake_inv w exec_args s → handshake_inv_heap exec_args h s →
  handshake_inv_heap exec_args h (step w exec_args who s).
Proof.
  intros (Hfault & Hlive & Hpc & Hprog) Hheap. unfold handshake_inv_heap in *.
  unfold step. destruct (hs_fault s); [done|].
  destruct who; simpl.
  - unfold step_caller. destruct (hs_execute s) eqn:Hex; simpl; try done.
    + destruct (hs_worker s) eqn:Hwk;
        try (by destruct Hpc as (_ & ? & _)); try (by destruct Hpc as (? & _)).
      by destruct (pthread_create w =? 0).
    + by destruct (hs_heap s !! state_of exec_args ≫= state) as [[]|].
  - unfold step_worker, read_args.
    destruct (hs_worker s) eqn:Hwk; simpl; try done; try (by rewrite Hwk);
      try (destruct (hs_args_live s); simpl; rewrite ?Hwk; try done;
           by destruct (array_fits _ _ _); simpl; rewrite ?Hwk).
    destruct Hpc as ((e & He & Hstate) & Hex & Hc).
    assert (hs_state s = Some (state_of exec_args)) as -> by (apply Hc; lia).
    simpl. unfold set_running. rewrite He. simpl. rewrite Hheap in He |- *.
    by exists e.
Qed.

Lemma run_inv_heap h schedule s :
  handshake_inv w exec_args s → handshake_inv_heap exec_args h s →
  handshake_inv_heap exec_args h (run w exec_args schedule s).
Proof.
  revert s. induction schedule as [|who schedule IH]; intros s Hinv Hheap; [done|].
  simpl. apply IH; [by apply step_inv|by apply step_inv_heap].
Qed.

(** When the thread starts and its stack takes the two strings, this
    schedule takes [execute] to its [return]: the handshake can end. *)
Lemma handshake_completes (h : heap) e :
  h !! state_of exec_args = Some e → pthread_create w = 0 →
  fits_stack w exec_args = true →
  hs_execute
    (run w exec_args
       [caller; worker; worker; worker; worker; worker; caller; caller]
       (handshake_start h)) = returned.
Proof.
  intros He Hthread Hfits.
  apply andb_true_iff in Hfits as [Hfit1 Hfit2].
  rewrite run_cons. cbn -[run]. rewrite Hthread. cbn -[run].
  rewrite run_cons. cbn -[run]. rewrite Hfit1. cbn -[run].
  rewrite run_cons. cbn -[run]. rewrite Hfit2. cbn -[run].
  do 2 (rewrite run_cons; cbn -[run]).
  rewrite run_cons. cbn -[run]. unfold set_running. rewrite He. cbn -[run].
  rewrite run_cons. cbn -[run]. rewrite lookup_insert_eq. cbn -[run].
  by rewrite run_cons.
Qed.

(** The worker can be in its body while [execute] is still in its
    loop. *)
Lemma handshake_worker_first (h : heap) e :
  h !! state_of exec_args = Some e → pthread_create w = 0 →
  fits_stack w exec_args = true →
  let s := run w exec_args [caller; worker; worker; worker; worker; worker]
             (handshake_start h) in
  hs_worker s = in_body ∧ hs_execute s = at_wait ∧ hs_args_live s = true.
Proof.
  intros He Hthread Hfits.
  apply andb_true_iff in Hfits as [Hfit1 Hfit2]. cbv zeta.
  rewrite run_cons. cbn -[run]. rewrite Hthread. cbn -[run].
  rewrite run_cons. cbn -[run]. rewrite Hfit1. cbn -[run].
  rewrite run_cons. cbn -[run]. rewrite Hfit2. cbn -[run].
  do 2 (rewrite run_cons; cbn -[run]).
  rewrite run_cons. cbn -[run]. unfold set_running. rewrite He. by cbn.
Qed.

(** When the stack of the thread does not take the two strings, the
    worker does not get behind its arrays and [execute] does not get out
    of its loop, whatever the schedule. *)
Lemma run_overflow (h : heap) e schedule :
  h !! state_of exec_args = Some e → state e ≠ Some running →
  fits_stack w exec_args = false →
  let s := run w exec_args schedule (handshake_start h) in
  (hs_execute s = at_pthread_create ∨ hs_execute s = at_wait)
  ∧ (hs_worker s = not_started ∨ hs_worker s = copy_transaction
     ∨ hs_worker s = copy_command)
  ∧ hs_command s = None
  ∧ hs_args_live s = true
  ∧ hs_heap s = h.
Proof.
  intros He Hstate Hfits.
  assert (handshake_inv w exec_args (handshake_start h)) as Hinv0
    by (by eapply handshake_start_inv).
  pose proof (run_inv schedule _ Hinv0) as Hinv.
  pose proof (run_inv_heap h schedule _ Hinv0 eq_refl) as Hheap.
  cbv zeta. revert Hinv Hheap.
  generalize (run w exec_args schedule (handshake_start h)). intros s.
  intros (Hfault & Hlive & Hpc & Hprog) Hheap.
  unfold handshake_inv_heap in Hheap. unfold worker_progress in Hprog.
  destruct (hs_worker s) eqn:Hwk;
    try (by rewrite (proj2 Hprog) in Hfits).
  - destruct Hpc as [_ Hex].
    split_and!; [done|by left|done| |done].
    apply Hlive. by destruct Hex as [-> | ->].
  - destruct Hpc as (_ & Hex & _). destruct Hprog as [_ Hnone].
    split_and!; [by right|by right; left|done| |done].
    apply Hlive. by rewrite Hex.
  - destruct Hpc as (_ & Hex & _). destruct Hprog as (_ & Hnone & _).
    split_and!; [by right|by right; right|done| |done].
    apply Hlive. by rewrite Hex.
Qed.

End Handshake.

(** ** The copies of the worker *)

Lemma strlen_long_command n : strlen (long_command n) = Z.of_N n.
Proof.
  unfold long_command. induction n as [|n IH] using N.peano_ind; [done|].
  rewrite N.iter_succ. cbn [strlen]. rewrite IH. lia.
Qed.

Lemma run_app w exec_args schedule schedule' s :
  run w exec_args (schedule ++ schedule') s =
  run w exec_args schedule' (run w exec_args schedule s).
Proof. apply foldl_app. Qed.

(** C8, as the claim has it, fails in the code: the worker copies the id
    and the command into arrays on its own stack that are as long as the
    strings of the request, and the request sets no bound.  For
    [Call("snap1", c)] with a command [c] of 9000000 characters and a
    thread stack of 8 MiB, [execute] takes the lock and starts the thread;
    the array for the id fits, the array for the command does not, and
    the copy kills the process.  In every schedule [execute] is still at
    [pthread_create] or in its loop, the worker is not behind its arrays
    and holds no copy of the command; after the steps [caller; worker;
    worker] the process is dead, and stays so.  [Call] does not return.
    The same call returns, with a worker that holds the command, exactly
    for the commands of up to 8388601 characters. *)
Theorem worker_dies_in_its_copy :
  let m := [arg_s "snap1"; arg_s (long_command 9000000)] in
  strlen (long_command 9000000) = 9000000
  ∧ thread_stack calm_world = 8388608
  ∧ execute_prepare calm_world (initial_heap 1) 1 m 1 =
      Some (ready one_queued long_args)
  ∧ pthread_create calm_world = 0
  ∧ array_fits calm_world 0 (transaction long_args) = true
  ∧ array_fits calm_world (strlen (transaction long_args) + 1)
      (command long_args) = false
  ∧ execution_func calm_world one_queued long_args = None
  ∧ execute calm_world (initial_heap 1) 1 m 1 = None
  ∧ transaction_call calm_world (initial_heap 1) 1 m = None
  ∧ (∀ schedule,
       let s := run calm_world long_args schedule (handshake_start one_queued) in
       (hs_execute s = at_pthread_create ∨ hs_execute s = at_wait)
       ∧ (hs_worker s = not_started ∨ hs_worker s = copy_transaction
          ∨ hs_worker s = copy_command)
       ∧ hs_command s = None
       ∧ hs_heap s = one_queued)
  ∧ (∀ schedule,
       let s := run calm_world long_args ([caller; worker; worker] ++ schedule)
                  (handshake_start one_queued) in
       hs_fault s = true
       ∧ hs_execute s = at_wait
       ∧ hs_worker s = copy_command
       ∧ hs_transaction s = Some "snap1"%string
       ∧ hs_command s = None)
  ∧ (∀ n,
       transaction_call calm_world (initial_heap 1) 1
         [arg_s "snap1"; arg_s (long_command n)] =
       if Z.of_N n <=? 8388601
       then Some {| hd_heap := one_locked; hd_ret := 1; hd_error := None;
                    hd_calls := [c_lockSnapshot "snap1" 0; c_pthread_create;
                                 c_pthread_detach;
                                 c_sd_bus_reply_method_return []];
                    hd_worker := Some {| task_transaction := "snap1";
                                         task_command := long_command n;
                                         task_chrooted := 1 |} |}
       else None).
Proof.
  assert (registry_at 1 [] (initial_heap 1)) as Hreg by (by eexists).
  assert (∀ cmd, execute_prepare calm_world (initial_heap 1) 1
                   [arg_s "snap1"; arg_s cmd] 1 =
                 Some (ready one_queued
                         {| transaction := "snap1"; command := cmd;
                            chrooted := 1; state_of := 1%positive |}))
    as Hprep by reflexivity.
  assert (∀ n,
            transaction_call calm_world (initial_heap 1) 1
              [arg_s "snap1"; arg_s (long_command n)] =
            if Z.of_N n <=? 8388601
            then Some {| hd_heap := one_locked; hd_ret := 1; hd_error := None;
                         hd_calls := [c_lockSnapshot "snap1" 0; c_pthread_create;
                                      c_pthread_detach;
                                      c_sd_bus_reply_method_return []];
                         hd_worker := Some {| task_transaction := "snap1";
                                              task_command := long_command n;
                                              task_chrooted := 1 |} |}
            else None) as Hbound.
  { intros n. pose proof (strlen_long_command n) as Hlen. revert Hlen.
    generalize (long_command n). intros cmd Hlen.
    set (ea := {| transaction := "snap1"; command := cmd; chrooted := 1;
                  state_of := 1%positive |}).
    assert (array_fits calm_world (strlen (transaction ea) + 1) (command ea)
            = (Z.of_N n <=? 8388601)) as Hfit2.
    { unfold array_fits. simpl. rewrite Hlen.
      destruct (Z.leb_spec (Z.of_N n) 8388601);
        [apply Z.leb_le|apply Z.leb_gt]; lia. }
    destruct (Z.of_N n <=? 8388601).
    - unfold transaction_call, execute. rewrite Hprep. fold ea.
      cbn [mbind option_bind pthread_create calm_world Z.eqb].
      unfold execution_func_start. rewrite Hfit2.
      change (array_fits calm_world 0 (transaction ea)) with true.
      reflexivity.
    - unfold transaction_call.
      assert (fits_stack calm_world ea = false) as Hfits.
      { unfold fits_stack, strings_fit. by rewrite Hfit2, andb_false_r. }
      destruct (execute_overflow calm_world 1 [] (initial_heap 1)
                  [arg_s "snap1"; arg_s cmd] 1 one_queued ea Hreg (Hprep cmd)
                  eq_refl Hfits) as [_ ->].
      done. }
  pose proof (strlen_long_command 9000000) as Hlen.
  unfold long_args. revert Hlen. generalize (long_command 9000000).
  intros cmd Hlen. change (Z.of_N 9000000) with 9000000 in Hlen.
  set (ea := {| transaction := "snap1"; command := cmd; chrooted := 1;
                state_of := 1%positive |}).
  assert (array_fits calm_world (strlen (transaction ea) + 1) (command ea)
          = false) as Hfit2.
  { unfold array_fits. simpl. rewrite Hlen. reflexivity. }
  assert (fits_stack calm_world ea = false) as Hfits.
  { unfold fits_stack, strings_fit. by rewrite Hfit2, andb_false_r. }
  destruct (execute_overflow calm_world 1 [] (initial_heap 1)
              [arg_s "snap1"; arg_s cmd] 1 one_queued ea Hreg (Hprep cmd)
              eq_refl Hfits)
    as [Hstart Hexec].
  cbv zeta.
  split_and!; [done|done|apply Hprep|done|done|done| |done| | | |done].
  - unfold execution_func. by rewrite Hstart.
  - unfold transaction_call. by rewrite Hexec.
  - intros schedule.
    destruct (run_overflow calm_world ea one_queued
                {| id := Some "snap1"%string; next := Some 2%positive;
                   state := Some queued |} schedule)
      as (Hex & Hwk & Hnone & _ & Hheap); done.
  - intros schedule. rewrite run_app.
    assert (run calm_world ea [caller; worker; worker]
              (handshake_start one_queued) =
            {| hs_execute := at_wait; hs_worker := copy_command;
               hs_args_live := true; hs_heap := one_queued;
               hs_transaction := Some "snap1"%string; hs_command := None;
               hs_chrooted := None; hs_state := None; hs_fault := true |})
      as ->.
    { do 2 (rewrite run_cons; cbn -[run array_fits]).
      change (array_fits calm_world 0 "snap1") with true. cbn -[run array_fits].
      rewrite run_cons. cbn -[run array_fits].
      change (array_fits calm_world _ cmd)
        with (array_fits calm_world (strlen (transaction ea) + 1) (command ea)).
      by rewrite Hfit2. }
    by rewrite run_killed.
Qed.

(** ** Requests that cannot be read, commands that cannot be expanded *)

(** C9, as the claim has it, fails for [Call]: a request whose parameters
    cannot be read is turned down by the method itself.  The message has
    the signature ["ss"] of the vtable, so sd-bus hands it to
    [transaction_call]; its second string cannot be read, and [execute]
    returns -1 with an error for the caller.  The registry is untouched
    and no thread is started, so no [Error] signal follows. *)
Lemma call_unreadable_is_synchronous :
  let m := [arg_s "snap1"; arg_s_invalid] in
  signature m = method_signature Call
  ∧ sd_bus_message_read_ss m = None
  ∧ method_call calm_world (initial_heap 1) 1 Call m =
      Some (to_handler
              {| hd_heap := initial_heap 1; hd_ret := -1;
                 hd_error := tukit_error "Could not read D-Bus parameters.";
                 hd_calls := []; hd_worker := None |})
  ∧ method_call calm_world (initial_heap 1) 1 CallExt m =
      Some (to_handler
              {| hd_heap := initial_heap 1; hd_ret := -1;
                 hd_error := tukit_error "Could not read D-Bus parameters.";
                 hd_calls := []; hd_worker := None |})
  ∧ ¬ (∃ r, transaction_call calm_world (initial_heap 1) 1 m = Some r
            ∧ 0 ≤ hd_ret r ∧ is_Some (hd_worker r)).
Proof.
  cbv zeta. split_and!; [reflexivity..|].
  intros (r & Hr & Hret & _). vm_compute in Hr. injection Hr as <-.
  simpl in Hret. lia.
Qed.

(** C9, amended.  Parameters that cannot be read are reported at once for
    all five methods, [Call] and [CallExt] included: either sd-bus answers
    the message itself because its signature is not the one of the vtable,
    or the handler returns -1 with an error set, the heap untouched, no
    call made and no thread started.  A command that cannot be expanded
    is reported by the worker.  When [Call] or [CallExt] has started a
    worker, the method has not looked at the command: it returns what its
    empty reply returned, without an error.  If the engine gives the
    worker a handle and resumes the transaction and [wordexp] fails, the
    worker runs no command, the one signal it tries to emit is [Error]
    with the text "Command could not be processed." and the value of
    [wordexp], and on a bus that opens and takes the signals this [Error]
    is the one signal that goes out.  The signal and the return of the
    method are not ordered: the worker can be in its body while [execute]
    is still in its loop. *)
Theorem malformed_input_propagation (w w' : world) (p : addr)
    (l : list record) (h : heap) (m : list arg) :
  registry_at p l h →
  (sd_bus_message_read_s m = None →
   (∃ e, transaction_open w h p m =
           Some {| hd_heap := h; hd_ret := -1; hd_error := Some e;
                   hd_calls := []; hd_worker := None |})
   ∧ (∃ e, transaction_close w h p m =
             Some {| hd_heap := h; hd_ret := -1; hd_error := Some e;
                     hd_calls := []; hd_worker := None |})
   ∧ (∃ e, transaction_abort w h p m =
             Some {| hd_heap := h; hd_ret := -1; hd_error := Some e;
                     hd_calls := []; hd_worker := None |}))
  ∧ (sd_bus_message_read_ss m = None →
     (∃ e, transaction_call w h p m =
             Some {| hd_heap := h; hd_ret := -1; hd_error := Some e;
                     hd_calls := []; hd_worker := None |})
     ∧ (∃ e, transaction_callext w h p m =
               Some {| hd_heap := h; hd_ret := -1; hd_error := Some e;
                       hd_calls := []; hd_worker := None |}))
  ∧ (∀ me, readable me m = false →
       method_call w h p me m = Some invalid_args
       ∨ ∃ e, method_call w h p me m =
                Some (to_handler
                        {| hd_heap := h; hd_ret := -1; hd_error := Some e;
                           hd_calls := []; hd_worker := None |}))
  ∧ (∀ r tk,
       (transaction_call w h p m = Some r
        ∨ transaction_callext w h p m = Some r) →
       hd_worker r = Some tk →
       sd_bus_message_read_ss m = Some (task_transaction tk, task_command tk)
       ∧ hd_ret r = sd_bus_reply_method_return w
       ∧ hd_error r = None
       ∧ c_sd_bus_reply_method_return [] ∈ hd_calls r
       ∧ (∀ cmd, c_wordexp cmd ∉ hd_calls r)
       ∧ emitted (hd_calls r) = []
       ∧ (tukit_new_tx w' = true →
          tukit_tx_resume w' (task_transaction tk) = 0 →
          (wordexp w' (task_command tk)).1 ≠ 0 →
          attempts (execution_func_body w' tk).1 =
            [Error (task_transaction tk) "Command could not be processed."
               (wordexp w' (task_command tk)).1]
          ∧ count_calls is_run (execution_func_body w' tk).1 = 0%nat
          ∧ (bus_accepts w' →
             emitted (execution_func_body w' tk).1 =
               [Error (task_transaction tk) "Command could not be processed."
                  (wordexp w' (task_command tk)).1]))
       ∧ ∃ c h1 exec_args,
           execute_prepare w h p m c = Some (ready h1 exec_args)
           ∧ let s := run w exec_args
                        [caller; worker; worker; worker; worker; worker]
                        (handshake_start h1) in
             hs_worker s = in_body ∧ hs_execute s = at_wait).
Proof.
  intros Hreg. split_and!.
  - intros Hread. unfold transaction_open, transaction_close, transaction_abort.
    rewrite Hread. split_and!; by eexists.
  - intros Hread. unfold transaction_call, transaction_callext.
    rewrite !execute_unreadable by done. simpl. split; by eexists.
  - intros me Hread. unfold method_call.
    destruct (String.eqb (signature m) (method_signature me)); [|by left].
    right. unfold readable in Hread.
    destruct me; simpl;
      unfold transaction_open, transaction_close, transaction_abort,
        transaction_call, transaction_callext;
      try (destruct (sd_bus_message_read_s m); [done|]; by eexists);
      (destruct (sd_bus_message_read_ss m) eqn:Hss; [done|];
       rewrite execute_unreadable by done; by eexists).
  - intros r tk Hcall Hworker.
    assert (∃ c r0, execute w h p m c = Some r0 ∧ r = reply_empty w r0)
      as (c & r0 & Hexec & ->).
    { destruct Hcall as [Hcall|Hcall];
        apply fmap_Some in Hcall as (r0 & Hexec & ->); by eexists _, _. }
    assert (hd_worker r0 = Some tk) as Hworker0.
    { revert Hworker. unfold reply_empty. by destruct (negb _). }
    destruct (execute_worker_inv w p l h m c r0 tk Hreg Hexec Hworker0)
      as (Hread & _ & Hret & Herr & _).
    destruct (execute_worker_prepared w p l h m c r0 tk Hreg Hexec Hworker0)
      as (h1 & ea & Hprep & Hthread & Hfits & _).
    destruct (execute_prepare_ready w p l h m c h1 ea Hreg Hprep)
      as (q & _ & _ & _ & _ & Ha & _).
    assert (hd_calls r0 = [c_lockSnapshot (transaction ea) 0; c_pthread_create;
                           c_pthread_detach]) as Hcalls.
    { revert Hexec. unfold execute. rewrite Hprep. simpl.
      destruct (if pthread_create w =? 0 then _ else _) as [started|]; [|done].
      simpl. destruct (started.1 !! state_of ea) as [e|]; [|done]. simpl.
      destruct (state e) as [[]|]; try done. by intros [= <-]. }
    unfold reply_empty. rewrite Hret. simpl. rewrite Hcalls.
    split_and!; [done..|apply elem_of_app; right; left| |done| |].
    + intros cmd. not_in_calls.
    + intros Hnew Hresume Hwordexp.
      unfold execution_func_body, send_error_signal, finish_execute, get_bus,
        emit_signal.
      rewrite Hnew, Hresume. simpl.
      destruct (wordexp w' (task_command tk)) as [wr argv]. simpl in *.
      apply Z.eqb_neq in Hwordexp. rewrite Hwordexp. simpl.
      split_conditions; (split; [done|]); (split; [done|]);
        intros [Hopen Hemit]; bus_answers Hopen Hemit; done.
    + exists c, h1, ea. split; [done|].
      destruct (handshake_worker_first w ea h1 _ Ha Hthread Hfits)
        as (Hwk & Hex & _).
      by split.
Qed.

Lemma malformed_input_propagation_witness :
  (∃ e, transaction_close calm_world (initial_heap 1) 1 [] =
          Some {| hd_heap := initial_heap 1; hd_ret := -1; hd_error := Some e;
                  hd_calls := []; hd_worker := None |})
  ∧ (∃ e, transaction_call calm_world (initial_heap 1) 1
            [arg_s "snap1"; arg_s_invalid] =
            Some {| hd_heap := initial_heap 1; hd_ret := -1;
                    hd_error := Some e; hd_calls := []; hd_worker := None |})
  ∧ emitted (execution_func_body no_words_world echo_task).1 =
      [Error "snap1" "Command could not be processed." 5].
Proof.
  assert (registry_at 1 [] (initial_heap 1)) as Hreg0 by (by eexists).
  split_and!.
  - destruct (malformed_input_propagation calm_world no_words_world 1 []
                (initial_heap 1) [] Hreg0) as (Hsync & _).
    apply Hsync. reflexivity.
  - destruct (malformed_input_propagation calm_world no_words_world 1 []
                (initial_heap 1) [arg_s "snap1"; arg_s_invalid] Hreg0)
      as (_ & Hsync & _).
    apply Hsync. reflexivity.
  - destruct (malformed_input_propagation calm_world no_words_world 1 []
                (initial_heap 1) [arg_s "snap1"; arg_s "echo hi"] Hreg0)
      as (_ & _ & _ & Hasync).
    destruct (Hasync
                {| hd_heap := one_locked; hd_ret := 1; hd_error := None;
                   hd_calls := [c_lockSnapshot "snap1" 0; c_pthread_create;
                                c_pthread_detach; c_sd_bus_reply_method_return []];
                   hd_worker := Some echo_task |}
                echo_task) as (_ & _ & _ & _ & _ & _ & Hsignal & _).
    + left. vm_compute. reflexivity.
    + reflexivity.
    + apply Hsignal; [reflexivity|reflexivity|simpl; lia|].
      split; intros ?; simpl; lia.
Defined.

(** * Further properties of the code *)

(** ** The registry *)

Lemma two_locked_registry :
  registry_at 1 [("snap1"%string, running); ("snap2"%string, queued)] two_locked.
Proof.
  exists 2%positive. eexists. split_and!; [|reflexivity|]; [done|].
  exists 3%positive. eexists. split_and!; [|reflexivity|]; [done|].
  by eexists.
Qed.

(** X1.  When [malloc] or [strdup] returns [NULL], [lockSnapshot] of an id
    that is not locked returns [-ENOMEM] with an error set, and the heap
    is the heap it was given: the node it had allocated is freed again and
    the placeholder still has no id. *)
Theorem lock_out_of_memory_keeps_heap (p : addr) (l : list record) (h : heap)
    (t : string) (mo so : bool) :
  registry_at p l h → t ∉ ids l → (mo && so) = false →
  ∃ r, lockSnapshot mo so h p t = Some r
       ∧ lr_ret r = - ENOMEM
       ∧ lr_heap r = h
       ∧ is_Some (lr_error r).
Proof.
  intros Hreg Hnot Hmem.
  destruct (lockSnapshot_nomem p l h t mo so Hreg Hnot Hmem) as (err & ->).
  eexists. split_and!; [done..|]. by eexists.
Qed.

Lemma lock_out_of_memory_keeps_heap_witness :
  ∃ r, lockSnapshot true false one_locked 1 "snap2" = Some r
       ∧ lr_ret r = -12 ∧ lr_heap r = one_locked.
Proof.
  destruct (lock_out_of_memory_keeps_heap 1 [("snap1"%string, running)]
              one_locked "snap2" true false)
    as (r & Hr & Hret & Hheap & _).
  - exists 2%positive, {[ 2%positive := {| id := None; next := None; state := None |} ]}.
    split_and!; [done|done|]. by eexists.
  - intros Hin. apply list_elem_of_singleton in Hin. discriminate.
  - reflexivity.
  - by exists r.
Defined.

(** X2.  Locking an id that is free and unlocking it again gives the
    registry its records back, in the same order and with the same
    states, and the heap has as many nodes as before. *)
Theorem lock_unlock_round_trip (p : addr) (l : list record) (h : heap)
    (t : string) :
  registry_at p l h → t ∉ ids l →
  ∃ h1 h2,
    lockSnapshot true true h p t =
      Some {| lr_heap := h1; lr_ret := 0; lr_error := None |}
    ∧ unlockSnapshot h1 p t = Some h2
    ∧ registry_at p l h2
    ∧ size h1 = S (size h) ∧ size h2 = size h.
Proof.
  intros Hreg Hnot.
  destruct (lockSnapshot_free p l h t Hreg Hnot) as (h1 & Hlock & Hreg1).
  destruct (unlockSnapshot_spec p _ h1 t Hreg1) as (h2 & Hunlock & Hreg2 & _).
  rewrite unlocked_snoc in Hreg2 by done.
  exists h1, h2. split_and!; [done..| |].
  - rewrite (registry_size _ _ _ Hreg1), (registry_size _ _ _ Hreg), length_app.
    simpl. lia.
  - by rewrite (registry_size _ _ _ Hreg2), (registry_size _ _ _ Hreg).
Qed.

Lemma lock_unlock_round_trip_witness :
  ∃ h1 h2,
    lockSnapshot true true one_locked 1 "snap2" =
      Some {| lr_heap := h1; lr_ret := 0; lr_error := None |}
    ∧ unlockSnapshot h1 1 "snap2" = Some h2
    ∧ registry_at 1 [("snap1"%string, running)] h2.
Proof.
  destruct (lock_unlock_round_trip 1 [("snap1"%string, running)]
              one_locked "snap2")
    as (h1 & h2 & Hlock & Hunlock & Hreg & _).
  - exists 2%positive, {[ 2%positive := {| id := None; next := None; state := None |} ]}.
    split_and!; [done|done|]. by eexists.
  - intros Hin. apply list_elem_of_singleton in Hin. discriminate.
  - by exists h1, h2.
Defined.

Lemma filter_absent (t : string) (js : list string) :
  t ∉ js → filter (λ i, i ≠ t) js = js.
Proof.
  induction js as [|j js IH]; [done|].
  intros [Hne Hnot]%not_elem_of_cons.
  rewrite filter_cons_True by done. by rewrite IH.
Qed.

Lemma ids_unlocked_filter t l :
  unique_ids l → ids (unlocked t l) = filter (λ i, i ≠ t) (ids l).
Proof.
  unfold unique_ids. induction l as [|[i s] l IH]; [done|].
  change (ids ((i, s) :: l)) with (i :: ids l).
  intros [Hi Hl]%NoDup_cons. simpl. destruct (String.eqb i t) eqn:Heq.
  - apply String.eqb_eq in Heq as ->.
    rewrite filter_cons_False by (by intros ?).
    rewrite filter_absent by done.
    by destruct l as [|[i' s'] l].
  - apply String.eqb_neq in Heq. rewrite filter_cons_True by done.
    change (ids ((i, s) :: unlocked t l)) with (i :: ids (unlocked t l)).
    by rewrite IH.
Qed.

(** X3.  On a registry with one record per id, [unlockSnapshot] takes the
    id it is given out of the list of locked ids and nothing else: the
    other ids stay, in their order, and [lockSnapshot] of any of them is
    still answered [-EBUSY]. *)
Theorem unlock_keeps_other_ids (p : addr) (l : list record) (h : heap)
    (t : string) :
  registry_at p l h → unique_ids l →
  ∃ h' l', unlockSnapshot h p t = Some h'
           ∧ registry_at p l' h'
           ∧ ids l' = filter (λ i, i ≠ t) (ids l)
           ∧ ∀ t' mo so, t' ∈ ids l → t' ≠ t →
               ∃ r, lockSnapshot mo so h' p t' = Some r
                    ∧ lr_ret r = - EBUSY ∧ lr_heap r = h'.
Proof.
  intros Hreg Huniq.
  destruct (unlockSnapshot_spec p l h t Hreg) as (h' & Hunlock & Hreg' & _).
  exists h', (unlocked t l). split_and!; [done|done|by apply ids_unlocked_filter|].
  intros t' mo so Hin Hne.
  rewrite (lockSnapshot_busy p (unlocked t l)); [by eexists|done|].
  by apply unlocked_other.
Qed.

Lemma unlock_keeps_other_ids_witness :
  ∃ h' r, unlockSnapshot two_locked 1 "snap1" = Some h'
          ∧ lockSnapshot true true h' 1 "snap2" = Some r
          ∧ lr_ret r = -16.
Proof.
  destruct (unlock_keeps_other_ids 1 _ two_locked "snap1" two_locked_registry)
    as (h' & l' & Hunlock & _ & _ & Hbusy).
  - apply NoDup_cons. split; [|apply NoDup_singleton].
    intros Hin. apply list_elem_of_singleton in Hin. discriminate.
  - destruct (Hbusy "snap2"%string true true) as (r & Hr & Hret & _).
    + right. left.
    + discriminate.
    + by exists h', r.
Defined.

Lemma unlocked_middle t s t' s' l1 l2 :
  t ∉ ids l1 →
  unlocked t (l1 ++ (t, s) :: (t', s') :: l2) = l1 ++ (t', s) :: l2.
Proof.
  induction l1 as [|[i si] l1 IH]; simpl.
  - intros _. by rewrite String.eqb_refl.
  - intros Hnot. destruct (String.eqb i t) eqn:Heq.
    + apply String.eqb_eq in Heq as ->. exfalso. apply Hnot. left.
    + f_equal. apply IH. by rewrite <- (eqb_elem_of_ids t i si).
Qed.

(** X4.  [unlockSnapshot] copies the id of the next node into the node of
    the record it removes, but not the state: the record behind the removed
    one moves up and takes over the state of the removed record; the
    records in front and further behind keep theirs. *)
Theorem unlock_hands_state_to_successor (p : addr) (l1 l2 : list record)
    (h : heap) (t t' : string) (s s' : transactionstates) :
  registry_at p (l1 ++ (t, s) :: (t', s') :: l2) h → t ∉ ids l1 →
  ∃ h', unlockSnapshot h p t = Some h'
        ∧ registry_at p (l1 ++ (t', s) :: l2) h'.
Proof.
  intros Hreg Hnot.
  destruct (unlockSnapshot_spec p _ h t Hreg) as (h' & Hunlock & Hreg' & _).
  rewrite unlocked_middle in Hreg' by done. by exists h'.
Qed.

Lemma unlock_hands_state_to_successor_witness :
  ∃ h', unlockSnapshot two_locked 1 "snap1" = Some h'
        ∧ registry_at 1 [("snap2"%string, running)] h'.
Proof.
  apply (unlock_hands_state_to_successor 1 [] [] two_locked
           "snap1" "snap2" running queued).
  - exact two_locked_registry.
  - apply not_elem_of_nil.
Defined.

(** X5.  On a registry with one record per id, a second [unlockSnapshot]
    of the same id changes nothing: it returns the heap the first one
    left. *)
Theorem unlock_twice (p : addr) (l : list record) (h h1 : heap) (t : string) :
  registry_at p l h → unique_ids l →
  unlockSnapshot h p t = Some h1 →
  unlockSnapshot h1 p t = Some h1.
Proof.
  intros Hreg Huniq Hunlock.
  destruct (unlockSnapshot_spec p l h t Hreg) as (h' & Hunlock' & Hreg' & _).
  rewrite Hunlock in Hunlock'. injection Hunlock' as <-.
  destruct (unlockSnapshot_spec p _ h1 t Hreg') as (h2 & -> & _ & Hsame).
  rewrite Hsame; [done|]. by apply unlocked_not_in.
Qed.

Lemma unlock_twice_witness :
  ∃ h1, unlockSnapshot one_locked 1 "snap1" = Some h1
        ∧ unlockSnapshot h1 1 "snap1" = Some h1.
Proof.
  eexists. split; [reflexivity|].
  apply (unlock_twice 1 [("snap1"%string, running)] one_locked).
  - exists 2%positive, {[ 2%positive := {| id := None; next := None; state := None |} ]}.
    split_and!; [done|done|]. by eexists.
  - apply NoDup_singleton.
  - reflexivity.
Defined.

(** X6.  In every heap that calls of [lockSnapshot] and [unlockSnapshot]
    make of the initial heap, with any ids and any answers of the
    allocator, there is one node per locked id and the placeholder, no id
    is locked twice, and both functions return on it for every id. *)
Theorem reachable_heap_has_no_leak (p : addr) (h : heap) :
  reachable p h →
  ∃ l, registry_at p l h ∧ unique_ids l ∧ size h = S (length l)
       ∧ ∀ t mo so, is_Some (lockSnapshot mo so h p t)
                    ∧ is_Some (unlockSnapshot h p t).
Proof.
  intros Hreach.
  destruct (reachable_registry_inv p h Hreach) as (l & Hreg & Huniq).
  exists l. split_and!; [done|done|by apply (registry_size p)|].
  intros t mo so. split.
  - destruct (lockSnapshot_cases p l h t mo so Hreg) as (r & -> & _). by eexists.
  - destruct (unlockSnapshot_spec p l h t Hreg) as (h' & -> & _). by eexists.
Qed.

Lemma reachable_heap_has_no_leak_witness :
  ∃ l, registry_at 1 l one_queued ∧ size one_queued = S (length l).
Proof.
  destruct (reachable_heap_has_no_leak 1 one_queued)
    as (l & Hreg & _ & Hsize & _).
  - apply (reach_lock 1 (initial_heap 1) true true "snap1"
             {| lr_heap := one_queued; lr_ret := 0; lr_error := None |}).
    + apply reach_initial.
    + reflexivity.
  - by exists l.
Defined.

Lemma free_walk_spec fuel p (l : list record) (h : heap) :
  registry_at p l h → (length l < fuel)%nat → free_walk fuel h p = Some ∅.
Proof.
  revert fuel p h. induction l as [|[i s] l IH]; intros fuel p h Hreg Hfuel;
    (destruct fuel as [|fuel]; [simpl in Hfuel; lia|]).
  - destruct Hreg as (e & -> & He). simpl.
    rewrite lookup_singleton_eq. simpl. rewrite He.
    by rewrite delete_singleton_eq.
  - destruct Hreg as (q & h' & Hp & -> & Hq). simpl.
    rewrite lookup_insert_eq. simpl.
    rewrite delete_insert_eq, delete_id by done.
    apply (IH _ _ _ Hq). simpl in Hfuel. lia.
Qed.

(** X7.  The loop at the end of [main] ends on every registry and frees
    every node: no node is left in the heap, and none is freed or read
    after it was freed. *)
Theorem free_registry_frees_all (p : addr) (l : list record) (h : heap) :
  registry_at p l h → free_registry h (Some p) = Some ∅.
Proof.
  intros Hreg. apply (free_walk_spec _ p l); [done|].
  rewrite (registry_size _ _ _ Hreg). lia.
Qed.

Lemma free_registry_frees_all_witness :
  free_registry two_locked (Some 1%positive) = Some ∅.
Proof.
  apply (free_registry_frees_all 1 _ two_locked two_locked_registry).
Defined.

(** ** The methods *)

(** X8.  [Close], [Abort], [Call] and [CallExt] for an id that is locked
    all end in the same way: they return [-EBUSY] with the error of
    [lockSnapshot], the heap is the heap they were given, their only call
    is the refused [lockSnapshot] (no engine call, no [unlockSnapshot], no
    reply), and no thread is started. *)
Theorem locked_id_is_refused_by_every_method (w : world) (p : addr)
    (l : list record) (h : heap) (t : string) :
  registry_at p l h → t ∈ ids l →
  let refusal :=
    Some {| hd_heap := h; hd_ret := - EBUSY;
            hd_error := tukit_error "The transaction is currently in use by another thread.";
            hd_calls := [c_lockSnapshot t (- EBUSY)]; hd_worker := None |} in
  (∀ m, sd_bus_message_read_s m = Some t →
        transaction_close w h p m = refusal
        ∧ transaction_abort w h p m = refusal)
  ∧ (∀ m cmd, sd_bus_message_read_ss m = Some (t, cmd) →
        transaction_call w h p m = refusal
        ∧ transaction_callext w h p m = refusal).
Proof.
  intros Hreg Hin. cbv zeta. split.
  - intros m Hread. unfold transaction_close, transaction_abort.
    rewrite Hread, (lockSnapshot_busy p l) by done. done.
  - intros m cmd Hread. unfold transaction_call, transaction_callext.
    by rewrite !(execute_busy w p l h m t cmd) by done.
Qed.

Lemma locked_id_is_refused_by_every_method_witness :
  hd_ret <$> transaction_close calm_world one_locked 1 [arg_s "snap1"] = Some (-16)
  ∧ hd_heap <$> transaction_call calm_world one_locked 1
                  [arg_s "snap1"; arg_s "echo hi"] = Some one_locked.
Proof.
  destruct (locked_id_is_refused_by_every_method calm_world 1
              [("snap1"%string, running)] one_locked "snap1")
    as (Hclose & Hcall).
  - exists 2%positive, {[ 2%positive := {| id := None; next := None; state := None |} ]}.
    split_and!; [done|done|]. by eexists.
  - left.
  - split.
    + destruct (Hclose [arg_s "snap1"] eq_refl) as [-> _]. reflexivity.
    + destruct (Hcall [arg_s "snap1"; arg_s "echo hi"] "echo hi"%string eq_refl)
        as [-> _]. reflexivity.
Defined.

Lemma count_calls_app test tr tr' :
  count_calls test (tr ++ tr') = (count_calls test tr + count_calls test tr')%nat.
Proof. unfold count_calls. by rewrite filter_app, length_app. Qed.

(** Evaluate the counts over the calls that are listed in the goal. *)
Ltac eval_counts :=
  repeat match goal with
  | |- context [count_calls ?f ?tr] =>
      let n := eval vm_compute in (count_calls f tr) in
      change (count_calls f tr) with n
  end.

(** Goals made of conjunctions and equivalences about listed calls. *)
Ltac iff_calls :=
  repeat match goal with
  | |- _ ∧ _ => split
  | |- _ ↔ _ => split
  | |- _ → _ => intros ?
  end;
  repeat match goal with
  | H : _ ∧ _ |- _ => destruct H
  | H : is_Some None |- _ => by destruct H
  | H : _ ∈ [] |- _ => by apply elem_of_nil in H
  | H : _ ∈ _ :: _ |- _ => apply elem_of_cons in H as [H|H]; [simplify_eq|]
  end;
  try done; try lia; try (by eexists);
  try (by repeat first [apply list_elem_of_here | apply list_elem_of_further]).

(** Case analysis on the engine's answers to [Close] and [Abort] once the
    lock is taken. *)
Ltac close_cases p l h1 t Hreg1 Hnot :=
  repeat match goal with
  | |- context [if negb ?b then _ else _] =>
      let E := fresh "E" in destruct b eqn:E; simpl
  end;
  match goal with
  | |- context [finish_unlock h1 p t ?ret ?err ?tr] =>
      let h' := fresh "h'" in
      let Hreg' := fresh "Hreg'" in
      destruct (finish_unlock_spec p l h1 t ret err tr Hreg1 Hnot)
        as (h' & -> & Hreg')
  end.

(** X9.  [Close] of an id that is free, with memory for the lock: it
    returns with the records of the registry as they were.  It calls
    [tukit_tx_finalize] exactly when the transaction was resumed, and
    replies, with the value 0, exactly when the engine gave a handle,
    resumed and finalized.  It returns 0 with an error set and without a
    reply exactly when [tukit_new_tx] returned [NULL]. *)
Theorem close_replies_iff_engine_succeeds (w : world) (p : addr)
    (l : list record) (h : heap) (m : list arg) (t : string) :
  registry_at p l h → sd_bus_message_read_s m = Some t → t ∉ ids l →
  malloc_ok w = true → strdup_ok w = true →
  ∃ r, transaction_close w h p m = Some r
       ∧ registry_at p l (hd_heap r)
       ∧ (count_calls is_finalize (hd_calls r) = 1%nat
          ↔ tukit_new_tx w = true ∧ tukit_tx_resume w t = 0)
       ∧ (c_sd_bus_reply_method_return [arg_i 0] ∈ hd_calls r
          ↔ tukit_new_tx w = true ∧ tukit_tx_resume w t = 0
            ∧ tukit_tx_finalize w = 0)
       ∧ (count_calls is_reply (hd_calls r) ≤ 1)%nat
       ∧ (count_calls is_reply (hd_calls r) = 1%nat
          → c_sd_bus_reply_method_return [arg_i 0] ∈ hd_calls r)
       ∧ (hd_ret r = 0 ∧ is_Some (hd_error r) ∧ count_calls is_reply (hd_calls r) = 0%nat
          ↔ tukit_new_tx w = false).
Proof.
  intros Hreg Hread Hnot Hmo Hso. unfold transaction_close.
  rewrite Hread, Hmo, Hso.
  destruct (lockSnapshot_free p l h t Hreg Hnot) as (h1 & -> & Hreg1). simpl.
  close_cases p l h1 t Hreg1 Hnot;
    (eexists; split; [done|]; split; [done|]; simpl);
    repeat match goal with
    | E : (_ =? 0) = true |- _ => apply Z.eqb_eq in E
    | E : (_ =? 0) = false |- _ => apply Z.eqb_neq in E
    end;
    rewrite ?E0, ?E1; eval_counts; iff_calls.
Qed.

Lemma close_replies_iff_engine_succeeds_witness :
  ∃ r, transaction_close (world_of false 0 0 0 0 0 1 0) (initial_heap 1) 1
         [arg_s "snap1"] = Some r
       ∧ hd_ret r = 0 ∧ is_Some (hd_error r)
       ∧ count_calls is_reply (hd_calls r) = 0%nat.
Proof.
  destruct (close_replies_iff_engine_succeeds (world_of false 0 0 0 0 0 1 0)
              1 [] (initial_heap 1) [arg_s "snap1"] "snap1")
    as (r & Hr & _ & _ & _ & _ & _ & Hnull).
  - by eexists.
  - reflexivity.
  - apply not_elem_of_nil.
  - reflexivity.
  - reflexivity.
  - exists r. split; [exact Hr|]. apply Hnull. reflexivity.
Defined.

(** X10.  [Abort] never finalizes and never keeps: whatever the request,
    the registry and the answers of the world, the calls of
    [transaction_abort] contain no [tukit_tx_finalize], no [tukit_tx_keep]
    and no execution of a command.  A transaction is given up only by
    resuming it and freeing the handle. *)
Theorem abort_never_finalizes (w : world) (h : heap) (p : addr)
    (m : list arg) (r : handled) :
  transaction_abort w h p m = Some r →
  count_calls is_finalize (hd_calls r) = 0%nat
  ∧ count_calls is_keep (hd_calls r) = 0%nat
  ∧ count_calls is_run (hd_calls r) = 0%nat
  ∧ hd_worker r = None.
Proof.
  unfold transaction_abort.
  destruct (sd_bus_message_read_s m) as [t|]; [|by intros [= <-]].
  destruct (lockSnapshot _ _ _ _ _) as [r0|]; [|done]. simpl.
  unfold finish_unlock.
  repeat match goal with
  | |- context [if negb ?b then _ else _] => destruct b; simpl
  end;
  try (destruct (unlockSnapshot _ _ _) as [h'|]; [|done]; simpl);
  intros [= <-]; simpl; eval_counts; done.
Qed.

Lemma abort_never_finalizes_witness :
  ∃ r, transaction_abort calm_world one_locked 1 [arg_s "snap2"] = Some r
       ∧ count_calls is_finalize (hd_calls r) = 0%nat.
Proof.
  eexists. split; [reflexivity|].
  apply (abort_never_finalizes calm_world one_locked 1 [arg_s "snap2"]).
  reflexivity.
Defined.

(** X11.  [Open] leaves the heap alone and ends in one of two ways.
    Either it fails: it returns a non-zero value with an error set, no
    signal has gone out and no reply is sent.  Or the engine has given a
    snapshot id and has kept the transaction, exactly the signal
    [TransactionOpened] with that id has gone out, the last call is the
    reply with the same id, and [Open] returns what the reply returned.
    The handle of the engine is freed once when there was one. *)
Theorem open_fails_silently_or_announces (w : world) (h : heap) (p : addr)
    (m : list arg) :
  ∃ r, transaction_open w h p m = Some r
       ∧ hd_heap r = h
       ∧ hd_worker r = None
       ∧ count_calls is_free_tx (hd_calls r) =
           (if tukit_new_tx w then count_calls is_new_tx (hd_calls r) else 0%nat)
       ∧ ((hd_ret r ≠ 0 ∧ is_Some (hd_error r)
           ∧ emitted (hd_calls r) = []
           ∧ count_calls is_reply (hd_calls r) = 0%nat)
          ∨ (∃ snapid,
               tukit_tx_get_snapshot w = Some snapid
               ∧ tukit_tx_keep w = 0
               ∧ emitted (hd_calls r) = [TransactionOpened snapid]
               ∧ last (hd_calls r) = Some (c_sd_bus_reply_method_return [arg_s snapid])
               ∧ count_calls is_reply (hd_calls r) = 1%nat
               ∧ hd_ret r = sd_bus_reply_method_return w
               ∧ hd_error r = None)).
Proof.
  unfold transaction_open. cbv zeta.
  destruct (sd_bus_message_read_s m) as [base|];
    [|eexists; split_and!; [done..| |left; split_and!; [done|by eexists|done..]];
      by destruct (tukit_new_tx w)].
  destruct (tukit_new_tx w); simpl;
    [|eexists; split_and!; [done..|left; split_and!; [done|by eexists|done..]]].
  destruct (tukit_tx_init w base =? 0) eqn:Hinit; simpl; rewrite ?Hinit; simpl.
  2:{ apply Z.eqb_neq in Hinit.
      eexists; split_and!; [done..|left; split_and!; [done|by eexists|done..]]. }
  destruct (tukit_tx_get_snapshot w) as [snapid|]; simpl; rewrite ?Hinit; simpl;
    [|eexists; split_and!; [done..|left; split_and!; [done|by eexists|done..]]].
  destruct (tukit_tx_keep w =? 0) eqn:Hkeep; simpl; rewrite ?Hkeep; simpl.
  2:{ apply Z.eqb_neq in Hkeep.
      eexists; split_and!; [done..|left; split_and!; [done|by eexists|done..]]. }
  apply Z.eqb_eq in Hkeep.
  destruct (sd_bus_emit_signal w (TransactionOpened snapid) <? 0) eqn:Hsent; simpl.
  - eexists; split_and!; [done..|left]. simpl. rewrite Hsent.
    split_and!; [done|by eexists|done..].
  - eexists; split_and!; [done..|right]. exists snapid. simpl. rewrite Hsent.
    by split_and!.
Qed.

(** ** The worker, once more *)

(** X12.  When the engine gives no handle, or the transaction cannot be
    resumed, or the command cannot be expanded, the worker runs no
    command and does not call [tukit_tx_keep]; the one signal it tries to
    emit is an [Error] for its transaction. *)
Theorem worker_stops_before_the_command (w : world) (t : task) :
  tukit_new_tx w = false
  ∨ tukit_tx_resume w (task_transaction t) ≠ 0
  ∨ (wordexp w (task_command t)).1 ≠ 0 →
  let tr := (execution_func_body w t).1 in
  count_calls is_run tr = 0%nat
  ∧ count_calls is_keep tr = 0%nat
  ∧ count_calls is_free_output tr = 0%nat
  ∧ ∃ message code, attempts tr = [Error (task_transaction t) message code].
Proof.
  intros Hfail. cbv zeta. worker_cases w t;
    try (exfalso; destruct Hfail as [?|[Hfail|Hfail]]; [done| |];
         apply Hfail; simpl; by apply Z.eqb_eq);
    eval_counts; (split_and!; [done..|by eexists _, _]).
Qed.

Lemma worker_stops_before_the_command_witness :
  count_calls is_run (execution_func_body no_words_world echo_task).1 = 0%nat
  ∧ count_calls is_keep (execution_func_body no_words_world echo_task).1 = 0%nat.
Proof.
  destruct (worker_stops_before_the_command no_words_world echo_task)
    as (Hrun & Hkeep & _).
  - right. right. simpl. lia.
  - by split.
Defined.

(** X13.  The mode of a worker is the method that started it: a worker
    started by [Call] never calls [tukit_tx_call_ext], and a worker
    started by [CallExt] never calls [tukit_tx_execute], whatever the
    world answers. *)
Theorem worker_mode_follows_method (w w' : world) (p : addr)
    (l : list record) (h : heap) (m : list arg) (r : handled) (tk : task) :
  registry_at p l h → hd_worker r = Some tk →
  (transaction_call w h p m = Some r →
   count_calls is_call_ext (execution_func_body w' tk).1 = 0%nat)
  ∧ (transaction_callext w h p m = Some r →
     count_calls is_execute (execution_func_body w' tk).1 = 0%nat).
Proof.
  intros Hreg Hworker.
  assert (∀ c, reply_empty w <$> execute w h p m c = Some r →
               task_chrooted tk = c) as Hmode.
  { intros c (r0 & Hexec & ->)%fmap_Some.
    assert (hd_worker r0 = Some tk) as Hworker0.
    { revert Hworker. unfold reply_empty. by destruct (negb _). }
    by destruct (execute_worker_inv w p l h m c r0 tk Hreg Hexec Hworker0)
      as (_ & ? & _). }
  split; intros Hcall; apply Hmode in Hcall;
    worker_cases w' tk; try (by eval_counts); simpl in *; lia.
Qed.

Lemma worker_mode_follows_method_witness :
  count_calls is_call_ext (execution_func_body calm_world echo_task).1 = 0%nat.
Proof.
  assert (registry_at 1 [] (initial_heap 1)) as Hreg by (by eexists).
  destruct (worker_mode_follows_method calm_world calm_world 1 []
              (initial_heap 1) [arg_s "snap1"; arg_s "echo hi"]
              {| hd_heap := one_locked; hd_ret := 1; hd_error := None;
                 hd_calls := [c_lockSnapshot "snap1" 0; c_pthread_create;
                              c_pthread_detach; c_sd_bus_reply_method_return []];
                 hd_worker := Some echo_task |}
              echo_task Hreg eq_refl) as (Hcall & _).
  apply Hcall. vm_compute. reflexivity.
Defined.


(** X15.  The worker closes its own bus connection twice when the
    emission of [CommandExecuted] fails on it: [send_error_signal] closes
    the connection it was handed, and [finish_execute] closes it again.
    In a world in which no emission fails, no connection is closed
    twice. *)
Theorem worker_closes_connection_twice (w : world) (t : task)
    (argv : list string) :
  tukit_new_tx w = true →
  tukit_tx_resume w (task_transaction t) = 0 →
  wordexp w (task_command t) = (0, argv) →
  tukit_tx_keep w = 0 →
  0 ≤ sd_bus_default_system w in_execution_func →
  (∀ r o, sd_bus_emit_signal w (CommandExecuted (task_transaction t) r o) < 0) →
  closed (execution_func_body w t).1 = [in_execution_func; in_execution_func]
  ∧ ∀ w', (∀ s, 0 ≤ sd_bus_emit_signal w' s) →
          NoDup (closed (execution_func_body w' t).1).
Proof.
  intros Hnew Hresume Hwordexp Hkeep Hopen Hemit. split.
  - unfold execution_func_body, send_error_signal, finish_execute, get_bus,
      emit_signal.
    rewrite Hnew, Hresume, Hwordexp, Hkeep. simpl.
    destruct (Z.ltb_spec (sd_bus_default_system w in_execution_func) 0); [lia|].
    destruct (tukit_tx_execute w argv) as [er out].
    destruct (tukit_tx_call_ext w argv) as [er' out'].
    destruct (task_chrooted t =? 0); simpl.
    + destruct (Z.ltb_spec (sd_bus_emit_signal w
                  (CommandExecuted (task_transaction t) er' out')) 0) as [_|Hge];
        [|specialize (Hemit er' out'); lia].
      simpl. by destruct (_ <? 0).
    + destruct (Z.ltb_spec (sd_bus_emit_signal w
                  (CommandExecuted (task_transaction t) er out)) 0) as [_|Hge];
        [|specialize (Hemit er out); lia].
      simpl. by destruct (_ <? 0).
  - intros w' Hok. clear -Hok. worker_cases w' t;
      repeat match goal with
      | E : (sd_bus_emit_signal w' ?s <? 0) = true |- _ =>
          apply Z.ltb_lt in E; specialize (Hok s); lia
      end;
      repeat constructor; set_solver.
Qed.

Lemma worker_closes_connection_twice_witness :
  closed (execution_func_body (world_of true 0 0 0 0 0 (-1) 0) echo_task).1
    = [in_execution_func; in_execution_func].
Proof.
  apply (worker_closes_connection_twice (world_of true 0 0 0 0 0 (-1) 0)
           echo_task ["echo hi"%string]);
    try reflexivity; simpl; intros; lia.
Defined.

(** ** The handshake without a thread *)

Section NoThread.

Variable w : world.
Variable exec_args : execution_args.

(** Without a thread nothing moves but [execute], and it does not get
    past its loop. *)
Lemma run_without_thread schedule s :
  pthread_create w ≠ 0 →
  hs_worker s = not_started → not_yet_running exec_args s →
  hs_execute s = at_pthread_create ∨ hs_execute s = at_wait →
  let s' := run w exec_args schedule s in
  hs_worker s' = not_started ∧ hs_heap s' = hs_heap s
  ∧ (hs_execute s' = at_pthread_create ∨ hs_execute s' = at_wait).
Proof.
  intros Hthread. revert s.
  induction schedule as [|who schedule IH]; intros s Hwk Hnot Hex; [done|].
  cbv zeta. rewrite run_cons.
  assert (hs_worker (step w exec_args who s) = not_started
          ∧ hs_heap (step w exec_args who s) = hs_heap s
          ∧ (hs_execute (step w exec_args who s) = at_pthread_create
             ∨ hs_execute (step w exec_args who s) = at_wait))
    as (Hwk' & Hheap' & Hex').
  { unfold step. destruct (hs_fault s); [done|]. destruct who; simpl.
    - unfold step_caller. destruct Hex as [Hex|Hex]; rewrite Hex; simpl.
      + apply Z.eqb_neq in Hthread. rewrite Hthread. split_and!; [done..|by right].
      + destruct Hnot as (e & He & Hstate). rewrite He. simpl.
        destruct (state e) as [[]|] eqn:Hs; try done;
          split_and!; try done; by right.
    - unfold step_worker. rewrite Hwk. by split_and!. }
  destruct (IH (step w exec_args who s)) as (? & Hheap'' & ?); [done| |done|].
  - destruct Hnot as (e & He & Hstate). exists e. by rewrite Hheap'.
  - split_and!; [done| |done]. by rewrite Hheap'', Hheap'.
Qed.

End NoThread.

(** X16.  When [pthread_create] fails, [execute] does not return: no
    thread writes [running], so in every schedule [execute] is still at
    [pthread_create] or in its loop, with the record of the request in
    the registry, [queued].  The lock it has taken is never released and
    the caller never gets an answer. *)
Theorem execute_hangs_without_thread (w : world) (p : addr)
    (l : list record) (h0 h : heap) (m : list arg) (c : Z)
    (exec_args : execution_args) (schedule : list thread) :
  registry_at p l h0 →
  execute_prepare w h0 p m c = Some (ready h exec_args) →
  pthread_create w ≠ 0 →
  let s := run w exec_args schedule (handshake_start h) in
  (hs_execute s = at_pthread_create ∨ hs_execute s = at_wait)
  ∧ hs_worker s = not_started
  ∧ registry_at p (l ++ [(transaction exec_args, queued)]) (hs_heap s)
  ∧ execute w h0 p m c = None.
Proof.
  intros Hreg Hprep Hthread.
  destruct (execute_prepare_ready w p l h0 m c h exec_args Hreg Hprep)
    as (q & _ & _ & _ & Hreg1 & Ha & _).
  destruct (run_without_thread w exec_args schedule (handshake_start h) Hthread)
    as (Hwk & Hheap & Hex); [done| |by left|].
  { eexists. by split. }
  cbv zeta. split_and!; [done|done|by rewrite Hheap|].
  unfold execute. rewrite Hprep. simpl.
  apply Z.eqb_neq in Hthread. rewrite Hthread. simpl. by rewrite Ha.
Qed.

Lemma execute_hangs_without_thread_witness :
  execute (world_of true 0 0 0 0 0 1 11) (initial_heap 1) 1
    [arg_s "snap1"; arg_s "echo hi"] 1 = None
  ∧ hs_worker (run (world_of true 0 0 0 0 0 1 11) echo_args
                 [caller; worker; caller; caller]
                 (handshake_start one_queued)) = not_started.
Proof.
  assert (registry_at 1 [] (initial_heap 1)) as Hreg by (by eexists).
  destruct (execute_hangs_without_thread (world_of true 0 0 0 0 0 1 11) 1 []
              (initial_heap 1) one_queued [arg_s "snap1"; arg_s "echo hi"] 1
              echo_args [caller; worker; caller; caller] Hreg eq_refl)
    as (_ & Hwk & _ & Hhang).
  - simpl. lia.
  - by split.
Defined.

(** X17.  In every interleaving of [execute] and the thread it has
    started, the heap is the one [lockSnapshot] left, with the record of
    the request [queued], until the worker has written [running]; from
    then on, and so whenever [execute] has returned, the registry holds
    the same records with that one record [running].  The worker writes
    to no other node. *)
Theorem handshake_marks_only_its_record (w : world) (p : addr)
    (l : list record) (h0 h : heap) (m : list arg) (c : Z)
    (exec_args : execution_args) (schedule : list thread) :
  registry_at p l h0 →
  execute_prepare w h0 p m c = Some (ready h exec_args) →
  let s := run w exec_args schedule (handshake_start h) in
  (hs_worker s ≠ in_body → hs_heap s = h)
  ∧ (hs_worker s = in_body →
     registry_at p (l ++ [(transaction exec_args, running)]) (hs_heap s))
  ∧ (hs_execute s = returned →
     registry_at p (l ++ [(transaction exec_args, running)]) (hs_heap s)).
Proof.
  intros Hreg Hprep.
  destruct (execute_prepare_ready w p l h0 m c h exec_args Hreg Hprep)
    as (q & _ & _ & _ & _ & Ha & Hset).
  assert (handshake_inv w exec_args (handshake_start h)) as Hinv0.
  { by eapply handshake_start_inv. }
  pose proof (run_inv w exec_args schedule _ Hinv0) as Hinv.
  pose proof (run_inv_heap w exec_args h schedule _ Hinv0 eq_refl) as Hheap.
  cbv zeta. revert Hinv Hheap.
  generalize (run w exec_args schedule (handshake_start h)). intros s.
  intros (Hfault & Hlive & Hpc & _) Hheap. unfold handshake_inv_heap in Hheap.
  assert (hs_worker s = in_body →
          registry_at p (l ++ [(transaction exec_args, running)]) (hs_heap s))
    as Hrunning.
  { intros Hwk. rewrite Hwk in Hheap. destruct Hheap as (e & He & ->).
    rewrite Ha in He. injection He as <-. apply Hset. }
  split_and!; [|done|].
  - intros Hwk. by destruct (hs_worker s).
  - intros Hex. apply Hrunning. rewrite Hex in Hpc.
    destruct (hs_worker s); try done; try (by destruct Hpc as (_ & ? & _)).
    by destruct Hpc as (_ & [?|?]).
Qed.

Lemma handshake_marks_only_its_record_witness :
  registry_at 1 [("snap1"%string, running)]
    (hs_heap (run calm_world echo_args
                [caller; worker; worker; worker; worker; worker; caller; caller]
                (handshake_start one_queued))).
Proof.
  assert (registry_at 1 [] (initial_heap 1)) as Hreg by (by eexists).
  destruct (handshake_marks_only_its_record calm_world 1 [] (initial_heap 1)
              one_queued [arg_s "snap1"; arg_s "echo hi"] 1 echo_args
              [caller; worker; worker; worker; worker; worker; caller; caller]
              Hreg eq_refl) as (_ & _ & Hreturned).
  apply Hreturned. reflexivity.
Defined.

(** ** Signals, shutdown and exit *)

(** X18.  Whatever signal arrives on the bus, on a registry with one
    record per id the callback returns, no id becomes locked, and the
    only id that can become unlocked is the string in front of a signal
    on the path of the daemon: the locked ids afterwards are the old
    ones without that string.  A signal on another path, or with
    something else than a string in front, leaves the heap as it is. *)
Theorem signal_unlocks_at_most_its_id (p : addr) (l : list record) (h : heap)
    (s : signal) :
  registry_at p l h → unique_ids l →
  ∃ h' l', deliver_signal h p s = Some h'
           ∧ registry_at p l' h' ∧ unique_ids l'
           ∧ ids l' = match released s with
                      | Some t => filter (λ i, i ≠ t) (ids l)
                      | None => ids l
                      end
           ∧ (released s = None → h' = h).
Proof.
  intros Hreg Huniq. unfold deliver_signal, released, signalCallback.
  destruct (rule_matches main_match_rule s);
    [|exists h, l; by split_and!].
  destruct (sd_bus_message_read_s (sig_body s)) as [t|]; simpl;
    [|exists h, l; by split_and!].
  destruct (unlockSnapshot_spec p l h t Hreg) as (h' & -> & Hreg' & _). simpl.
  exists h', (unlocked t l).
  split_and!; [done|done|by apply unlocked_unique
              |by apply ids_unlocked_filter|done].
Qed.

Lemma signal_unlocks_at_most_its_id_witness :
  ∃ h' l', deliver_signal two_locked 1 (Error "snap1" "failed" (-1)) = Some h'
           ∧ registry_at 1 l' h' ∧ ids l' = ["snap2"%string].
Proof.
  destruct (signal_unlocks_at_most_its_id 1 _ two_locked
              (Error "snap1" "failed" (-1)) two_locked_registry)
    as (h' & l' & Hdeliver & Hreg & _ & Hids & _).
  - apply NoDup_cons. split; [|apply NoDup_singleton].
    intros Hin. apply list_elem_of_singleton in Hin. discriminate.
  - by exists h', l'.
Defined.

(** X19.  Drain, end to end.  On an empty registry, after [Call] or
    [CallExt] has started a worker, a termination signal only makes the
    handler wait: it neither ends the loop nor exits.  Once the signal of
    the worker has arrived (on a bus that takes it), the registry is empty
    again and the next termination signal ends the loop with code 0. *)
Theorem drain_waits_for_the_worker (w w' w'' : world) (p : addr) (h : heap)
    (m : list arg) (r : handled) (tk : task) (si : signalfd_siginfo) :
  registry_at p [] h →
  transaction_call w h p m = Some r ∨ transaction_callext w h p m = Some r →
  hd_worker r = Some tk →
  bus_accepts w' →
  0 ≤ sd_event_exit w'' →
  (∃ tr, event_handler w'' (hd_heap r) p si = Some (tr, Some 0)
         ∧ count_calls is_leaving tr = 0%nat
         ∧ last tr = Some (c_kill (ssi_pid si) (ssi_signo si)))
  ∧ ∃ s h', emitted (execution_func_body w' tk).1 = [s]
            ∧ deliver_signal (hd_heap r) p s = Some h'
            ∧ registry_at p [] h'
            ∧ event_handler w'' h' p si =
                Some ([c_stdout "Terminating."; c_sd_event_exit 0], Some 0).
Proof.
  intros Hreg Hcall Hworker Hbus Hexit. split.
  - assert (∃ c r0, execute w h p m c = Some r0 ∧ r = reply_empty w r0)
      as (c & r0 & Hexec & ->).
    { destruct Hcall as [Hcall|Hcall];
        apply fmap_Some in Hcall as (r0 & Hexec & ->); by eexists _, _. }
    assert (hd_worker r0 = Some tk ∧ hd_heap (reply_empty w r0) = hd_heap r0)
      as [Hworker0 ->].
    { revert Hworker. unfold reply_empty. by destruct (negb _). }
    destruct (execute_worker_inv w p [] h m c r0 tk Hreg Hexec Hworker0)
      as (_ & _ & _ & _ & _ & Hreg1).
    rewrite (event_handler_waits w'' p [] _ _ si Hreg1).
    eexists. by split_and!.
  - destruct (call_then_signal_unlocks w w' p [] h m r tk Hreg Hcall Hworker Hbus)
      as (s & h' & Hemitted & Hdeliver & Hreg').
    exists s, h'. split_and!; [done..|].
    by apply event_handler_terminates.
Qed.

Lemma drain_waits_for_the_worker_witness :
  ∃ s h', emitted (execution_func_body calm_world echo_task).1 = [s]
          ∧ deliver_signal one_locked 1 s = Some h'
          ∧ event_handler calm_world h' 1 {| ssi_signo := SIGINT; ssi_pid := 0 |} =
              Some ([c_stdout "Terminating."; c_sd_event_exit 0], Some 0).
Proof.
  assert (registry_at 1 [] (initial_heap 1)) as Hreg by (by eexists).
  assert (bus_accepts calm_world) as Hbus by (split; intros ?; simpl; lia).
  destruct (drain_waits_for_the_worker calm_world calm_world calm_world 1
              (initial_heap 1) [arg_s "snap1"; arg_s "echo hi"]
              {| hd_heap := one_locked; hd_ret := 1; hd_error := None;
                 hd_calls := [c_lockSnapshot "snap1" 0; c_pthread_create;
                              c_pthread_detach; c_sd_bus_reply_method_return []];
                 hd_worker := Some echo_task |}
              echo_task {| ssi_signo := SIGINT; ssi_pid := 0 |} Hreg)
    as (_ & s & h' & Hs & Hdeliver & _ & Hexit).
  - left. vm_compute. reflexivity.
  - reflexivity.
  - exact Hbus.
  - simpl. lia.
  - by exists s, h'.
Defined.

(** A branch of [main] that has written its line. *)
Ltac main_fails :=
  split_and!;
  [split; [done|intros ?; lia]
  |intros ?; lia
  |simpl; lia
  |done].

(** X20.  [main] never fails in silence and never complains without a
    cause: it writes nothing to [stderr] exactly when the first [malloc],
    every startup step and the event loop have done their work, and then
    the exit status is [EXIT_SUCCESS]; otherwise it writes one line.  A
    status of [EXIT_FAILURE] always comes with such a line. *)
Theorem main_reports_every_failure (s : startup) :
  let succeeds :=
    st_malloc_ok s = true
    ∧ 0 ≤ st_sd_bus_open_system s ∧ 0 ≤ st_sd_bus_add_object_vtable s
    ∧ 0 ≤ st_sd_bus_request_name s ∧ 0 ≤ st_sd_bus_match_signal s
    ∧ 0 ≤ st_sd_event_default s
    ∧ 0 ≤ st_sigemptyset s ∧ 0 ≤ st_sigaddset s SIGTERM
    ∧ 0 ≤ st_sigaddset s SIGINT ∧ 0 ≤ st_sigprocmask s
    ∧ 0 ≤ st_sd_event_add_signal s SIGTERM
    ∧ 0 ≤ st_sd_event_add_signal s SIGINT
    ∧ 0 ≤ st_sd_bus_attach_event s ∧ 0 ≤ st_sd_event_loop s in
  ((main s).1 = [] ↔ succeeds)
  ∧ (succeeds → (main s).2 = EXIT_SUCCESS)
  ∧ (length (main s).1 ≤ 1)%nat
  ∧ ((main s).2 = EXIT_FAILURE → length (main s).1 = 1%nat).
Proof.
  cbv zeta. unfold main, finish.
  destruct (st_malloc_ok s); simpl;
    [|split_and!; [split; [done|by intros [? _]]|by intros [? _]|done|done]].
  destruct (Z.ltb_spec (st_sd_bus_open_system s) 0); simpl; [main_fails|].
  destruct (Z.ltb_spec (st_sd_bus_add_object_vtable s) 0); simpl; [main_fails|].
  destruct (Z.ltb_spec (st_sd_bus_request_name s) 0); simpl; [main_fails|].
  destruct (Z.ltb_spec (st_sd_bus_match_signal s) 0); simpl; [main_fails|].
  destruct (Z.ltb_spec (st_sd_event_default s) 0); simpl; [main_fails|].
  destruct (Z.ltb_spec (st_sigemptyset s) 0); simpl; [main_fails|].
  destruct (Z.ltb_spec (st_sigaddset s SIGTERM) 0); simpl; [main_fails|].
  destruct (Z.ltb_spec (st_sigaddset s SIGINT) 0); simpl; [main_fails|].
  destruct (Z.ltb_spec (st_sigprocmask s) 0); simpl; [main_fails|].
  destruct (Z.ltb_spec (st_sd_event_add_signal s SIGTERM) 0); simpl; [main_fails|].
  destruct (Z.ltb_spec (st_sd_event_add_signal s SIGINT) 0); simpl; [main_fails|].
  destruct (Z.ltb_spec (st_sd_bus_attach_event s) 0); simpl; [main_fails|].
  destruct (Z.ltb_spec (st_sd_event_loop s) 0); simpl; [main_fails|].
  split_and!; [split; [intros _; by split_and!|done]|done|lia|done].
Qed.
(** Signals that do not carry a locked id in front leave it locked,
    however many arrive. *)
Lemma deliver_signals_keep_lock p t sigs l h :
  registry_at p l h → unique_ids l → t ∈ ids l →
  (∀ s, s ∈ sigs → released s ≠ Some t) →
  ∃ h1 l1, deliver_signals h p sigs = Some h1
           ∧ registry_at p l1 h1 ∧ unique_ids l1 ∧ t ∈ ids l1.
Proof.
  revert l h. induction sigs as [|s sigs IH]; intros l h Hreg Huniq Hin Hother.
  - by exists h, l.
  - assert (released s ≠ Some t) as Hs by (apply Hother; left).
    assert (∃ h0 l0, deliver_signal h p s = Some h0
                     ∧ registry_at p l0 h0 ∧ unique_ids l0 ∧ t ∈ ids l0)
      as (h0 & l0 & Hdeliver & Hreg0 & Huniq0 & Hin0).
    { revert Hs. unfold deliver_signal, released, signalCallback.
      destruct (rule_matches main_match_rule s); [|by exists h, l].
      destruct (sd_bus_message_read_s (sig_body s)) as [t0|];
        [|by exists h, l].
      intros Hne.
      destruct (unlockSnapshot_spec p l h t0 Hreg) as (h0 & -> & Hreg0 & _).
      exists h0, (unlocked t0 l).
      split_and!; [done|done|by apply unlocked_unique|].
      apply unlocked_other; [|done]. by intros ->. }
    destruct (IH l0 h0 Hreg0 Huniq0 Hin0)
      as (h1 & l1 & Hrest & Hreg1 & Huniq1 & Hin1).
    { intros s' Hs'. apply Hother. by right. }
    exists h1, l1. simpl. rewrite Hdeliver. by split_and!.
Qed.

(** X21.  [Call] from request to release, on a registry with one record
    per id.  For an id that is free, with memory and a thread to be had
    whose stack takes the id and the command, [Call] returns what its
    reply returned, with the record of the id appended to the registry,
    [running], and a worker that holds the id and the command in isolated
    mode.  The id stays locked as long as no signal with the id in front
    arrives: after any signals that do not unlock the id, another [Call]
    for it is refused with [-EBUSY] and changes nothing.  The next signal
    on the path of the daemon with the id in front unlocks the id,
    whoever has sent it; arriving first, it gives the registry its old
    records back.  The worker sends one such signal (on a bus that takes
    it). *)
Theorem call_locks_until_the_signal (w w' w2 : world) (p : addr)
    (l : list record) (h : heap) (m : list arg) (t cmd : string) :
  registry_at p l h → unique_ids l →
  sd_bus_message_read_ss m = Some (t, cmd) →
  t ∉ ids l →
  malloc_ok w = true → strdup_ok w = true → pthread_create w = 0 →
  strings_fit w t cmd = true →
  bus_accepts w' →
  ∃ r s h',
    transaction_call w h p m = Some r
    ∧ hd_ret r = sd_bus_reply_method_return w
    ∧ hd_worker r = Some {| task_transaction := t; task_command := cmd;
                            task_chrooted := 1 |}
    ∧ registry_at p (l ++ [(t, running)]) (hd_heap r)
    ∧ (∀ sigs, (∀ s0, s0 ∈ sigs → released s0 ≠ Some t) →
         ∃ h1, deliver_signals (hd_heap r) p sigs = Some h1
               ∧ (∀ m2 cmd2, sd_bus_message_read_ss m2 = Some (t, cmd2) →
                    ∃ r2, transaction_call w2 h1 p m2 = Some r2
                          ∧ hd_ret r2 = - EBUSY ∧ hd_heap r2 = h1
                          ∧ hd_worker r2 = None)
               ∧ (∀ s0, released s0 = Some t →
                    ∃ h2 l2, deliver_signal h1 p s0 = Some h2
                             ∧ registry_at p l2 h2 ∧ unique_ids l2
                             ∧ t ∉ ids l2))
    ∧ (∀ s0, released s0 = Some t →
         deliver_signal (hd_heap r) p s0 = Some h')
    ∧ registry_at p l h'
    ∧ emitted (execution_func_body w'
                 {| task_transaction := t; task_command := cmd;
                    task_chrooted := 1 |}).1 = [s]
    ∧ released s = Some t.
Proof.
  intros Hreg Huniq Hread Hnot Hmo Hso Hthread Hfits Hbus.
  destruct (execute_started w p l h m t cmd 1 Hreg Hread Hnot Hmo Hso Hthread
              Hfits) as (h1 & Hexec & Hreg1).
  assert (transaction_call w h p m =
          Some (reply_empty w
                  {| hd_heap := h1; hd_ret := 0; hd_error := None;
                     hd_calls := [c_lockSnapshot t 0; c_pthread_create;
                                  c_pthread_detach];
                     hd_worker := Some {| task_transaction := t;
                                          task_command := cmd;
                                          task_chrooted := 1 |} |})) as Hcall.
  { unfold transaction_call. by rewrite Hexec. }
  set (tk := {| task_transaction := t; task_command := cmd;
                task_chrooted := 1 |}).
  pose proof (worker_emitted_once w' tk Hbus) as Hlen.
  pose proof (worker_emitted_releases w' tk) as Hrel.
  destruct (emitted (execution_func_body w' tk).1) as [|s [|s' tr]] eqn:Hs;
    [done| |done].
  destruct (unlockSnapshot_spec p _ h1 t Hreg1) as (h' & Hunlock & Hreg' & _).
  rewrite unlocked_snoc in Hreg' by done.
  assert (unique_ids (l ++ [(t, running)])) as Huniq1.
  { unfold unique_ids. rewrite ids_app. apply NoDup_app. split_and!; [done| |].
    - intros i Hi Hi'. apply list_elem_of_singleton in Hi'. by subst.
    - apply NoDup_singleton. }
  eexists _, s, h'. split; [exact Hcall|]. simpl.
  split_and!; [done|done|done| | |done|done|].
  - intros sigs Hother.
    destruct (deliver_signals_keep_lock p t sigs _ h1 Hreg1 Huniq1) as
      (h2 & l2 & Hdeliver & Hreg2 & Huniq2 & Hin2); [|done|].
    { rewrite ids_app. apply elem_of_app. right. left. }
    exists h2. split_and!; [done| |].
    + intros m2 cmd2 Hread2. unfold transaction_call.
      rewrite (execute_busy w2 p l2 h2 m2 t cmd2) by done.
      by eexists.
    + intros s0 Hs0. rewrite (released_deliver _ _ _ t) by done.
      destruct (unlockSnapshot_spec p l2 h2 t Hreg2) as (h3 & -> & Hreg3 & _).
      exists h3, (unlocked t l2).
      split_and!; [done|done|by apply unlocked_unique|by apply unlocked_not_in].
  - intros s0 Hs0. by rewrite (released_deliver _ _ _ t).
  - apply Hrel. left.
Qed.

Lemma call_locks_until_the_signal_witness :
  ∃ r s h',
    transaction_call calm_world (initial_heap 1) 1
      [arg_s "snap1"; arg_s "echo hi"] = Some r
    ∧ hd_heap r = one_locked
    ∧ emitted (execution_func_body calm_world echo_task).1 = [s]
    ∧ deliver_signal (hd_heap r) 1 s = Some h'
    ∧ registry_at 1 [] h'.
Proof.
  assert (registry_at 1 [] (initial_heap 1)) as Hreg by (by eexists).
  assert (bus_accepts calm_world) as Hbus by (split; intros ?; simpl; lia).
  destruct (call_locks_until_the_signal calm_world calm_world calm_world 1 []
              (initial_heap 1) [arg_s "snap1"; arg_s "echo hi"]
              "snap1" "echo hi" Hreg (NoDup_nil_2 (A:=string)) eq_refl)
    as (r & s & h' & Hcall & _ & _ & _ & _ & Hany & Hreg' & Hs & Hreleased).
  - apply not_elem_of_nil.
  - reflexivity.
  - reflexivity.
  - reflexivity.
  - reflexivity.
  - exact Hbus.
  - exists r, s, h'.
    split_and!; [exact Hcall| |exact Hs|by apply Hany|exact Hreg'].
    vm_compute in Hcall. by injection Hcall as <-.
Defined.

(** ** The copies of the worker, when its stack takes them *)

(** X22.  Take a [Call] or [CallExt] request for which [execute] gets as
    far as [pthread_create], and a thread whose stack takes the id and the
    command.  In every interleaving of the statements of [execute] and of
    the thread, with sequentially consistent memory: the process is not
    killed, so no statement reads [exec_args] or the strings of the
    message after [execute] has returned; once the worker is past its
    first five statements it holds its own copies of the id, the command
    and the mode of the request; and [execute] does not return before
    that.  Whenever [execute] has returned in a schedule, what the
    schedule has made is what [execute] returns: the same heap, 0, and the
    worker with these copies.  There is a schedule in which it
    returns. *)
Theorem copies_held_when_execute_returns (w : world) (p : addr)
    (l : list record) (h0 h : heap) (m : list arg) (c : Z)
    (exec_args : execution_args) (schedule : list thread) :
  registry_at p l h0 →
  execute_prepare w h0 p m c = Some (ready h exec_args) →
  fits_stack w exec_args = true →
  let s := run w exec_args schedule (handshake_start h) in
  let t := {| task_transaction := transaction exec_args;
              task_command := command exec_args;
              task_chrooted := chrooted exec_args |} in
  sd_bus_message_read_ss m = Some (transaction exec_args, command exec_args)
  ∧ chrooted exec_args = c
  ∧ hs_fault s = false
  ∧ (hs_worker s = in_body →
     hs_transaction s = Some (transaction exec_args)
     ∧ hs_command s = Some (command exec_args)
     ∧ hs_chrooted s = Some (chrooted exec_args))
  ∧ (hs_execute s = returned → hs_worker s = in_body)
  ∧ (hs_args_live s = false → hs_worker s = in_body)
  ∧ (hs_execute s = returned →
     execution_func_start w h exec_args = Some (hs_heap s, t)
     ∧ execute w h0 p m c =
         Some {| hd_heap := hs_heap s; hd_ret := 0; hd_error := None;
                 hd_calls := [c_lockSnapshot (transaction exec_args) 0;
                              c_pthread_create; c_pthread_detach];
                 hd_worker := Some t |})
  ∧ (pthread_create w = 0 →
     hs_execute
       (run w exec_args
          [caller; worker; worker; worker; worker; worker; caller; caller]
          (handshake_start h)) = returned).
Proof.
  intros Hreg Hprep Hfits.
  destruct (execute_prepare_ready w p l h0 m c h exec_args Hreg Hprep)
    as (q & Hread & Hc & _ & _ & Ha & _).
  assert (handshake_inv w exec_args (handshake_start h)) as Hinv0
    by (by eapply handshake_start_inv).
  pose proof (run_inv w exec_args schedule _ Hinv0) as Hinv.
  pose proof (run_inv_heap w exec_args h schedule _ Hinv0 eq_refl) as Hheap.
  cbv zeta. split_and!; [done|done|..];
    [| | | | |intros Hthread; by eapply handshake_completes].
  all: revert Hinv Hheap;
    generalize (run w exec_args schedule (handshake_start h)); intros s;
    intros (Hfault & Hlive & Hpc & Hprog) Hheap.
  all: assert (hs_execute s = returned → hs_worker s = in_body) as Hreturned
    by (intros Hex; rewrite Hex in Hpc;
        destruct (hs_worker s); try done;
          try (by destruct Hpc as (_ & ? & _));
          by destruct Hpc as (_ & [?|?])).
  - destruct (hs_fault s); [|done]. rewrite Hfits in Hfault. by apply Hfault.
  - intros Hwk. rewrite Hwk in Hpc. destruct Hpc as (_ & H1 & H2 & H3 & _).
    split_and!; [apply H1|apply H2|apply H3]; lia.
  - done.
  - intros Hdead. apply Hreturned.
    destruct (hs_execute s); try done; rewrite Hlive in Hdead; done.
  - intros Hex. specialize (Hreturned Hex).
    unfold handshake_inv_heap in Hheap. unfold worker_progress in Hprog.
    rewrite Hreturned in Hheap, Hprog.
    destruct Hheap as (e & He & Hheap). destruct Hprog as [Hthread _].
    rewrite Ha in He. injection He as <-. simpl in Hheap.
    assert (execution_func_start w h exec_args =
              Some (hs_heap s,
                    {| task_transaction := transaction exec_args;
                       task_command := command exec_args;
                       task_chrooted := chrooted exec_args |})) as Hstart.
    { unfold execution_func_start, set_running.
      apply andb_true_iff in Hfits as [-> ->]. simpl.
      rewrite Ha. simpl. by rewrite Hheap. }
    split; [done|].
    unfold execute. rewrite Hprep. simpl. rewrite Hthread. simpl.
    rewrite Hstart. simpl. rewrite Hheap, lookup_insert_eq. simpl. done.
Qed.

Lemma copies_held_when_execute_returns_witness :
  let s := run calm_world echo_args
             [caller; worker; worker; worker; worker; worker; caller; caller]
             (handshake_start one_queued) in
  hs_execute s = returned
  ∧ hs_fault s = false
  ∧ hs_transaction s = Some "snap1"%string
  ∧ hs_command s = Some "echo hi"%string
  ∧ hs_chrooted s = Some 1
  ∧ execute calm_world (initial_heap 1) 1 [arg_s "snap1"; arg_s "echo hi"] 1 =
      Some {| hd_heap := hs_heap s; hd_ret := 0; hd_error := None;
              hd_calls := [c_lockSnapshot "snap1" 0; c_pthread_create;
                           c_pthread_detach];
              hd_worker := Some echo_task |}.
Proof.
  assert (registry_at 1 [] (initial_heap 1)) as Hreg by (by eexists).
  destruct (copies_held_when_execute_returns calm_world 1 [] (initial_heap 1)
              one_queued [arg_s "snap1"; arg_s "echo hi"] 1 echo_args
              [caller; worker; worker; worker; worker; worker; caller; caller]
              Hreg eq_refl eq_refl)
    as (_ & _ & Hfault & Hcopies & _ & _ & Htie & _).
  cbv zeta. split; [reflexivity|]. split; [exact Hfault|].
  destruct (Hcopies eq_refl) as (H1 & H2 & H3).
  split; [exact H1|]. split; [exact H2|]. split; [exact H3|].
  apply Htie. reflexivity.
Defined.
